(** * CopyReducer: deep copy of a TIL term, with lazy rewriting

    A shallow embedding of [src/til/CopyReducer.h] (ohmu): the block map of
    [CopyScope], the reduce methods of [CopyReducer] that build the copy,
    the futures of [LazyCopyFuture] and the driver of [LazyCopyTraversal].

    The original term is only read during a copy; it is modelled by
    immutable records that carry what the accessors called on [Orig]
    return.  Everything the copy allocates lives in an arena addressed by
    indices; scopes live on a heap of their own because they are created
    with [new] and destroyed with [delete]. *)

From stdpp Require Import base option list gmap.

Set Default Proof Using "Type".

(** ** Fatal outcomes

    [assert] failures are contract violations; dereferencing a null or
    dangling pointer and indexing a vector out of range are undefined
    behaviour.  Both abort the copy. *)

Inductive error :=
  | ContractViolation
  | UndefinedBehavior.

Inductive result (A : Type) :=
  | OK (a : A)
  | Fatal (e : error).

Arguments OK {A} a.
Arguments Fatal {A} e.

#[global] Instance result_ret : MRet result := @OK.
#[global] Instance result_bind : MBind result := λ A B f m,
  match m with
  | OK a => f a
  | Fatal e => Fatal e
  end.

Definition assert (b : bool) : result unit :=
  if b then OK () else Fatal ContractViolation.

Definition is_fatal {A} (m : result A) : Prop :=
  match m with
  | OK _ => False
  | Fatal _ => True
  end.

(** ** Pointers and attributes *)

(** An [SExpr*] held by the copy: null, a node of the destination arena,
    or a future (futures are arena objects too, kept in a store of their
    own because only the traversal driver can touch their fields). *)
Inductive SExprPtr :=
  | nullptr
  | Ref (a : nat)
  | FutureRef (f : nat).

#[global] Instance SExprPtr_eq_dec : EqDecision SExprPtr.
Proof. solve_decision. Defined.

(** [CopyAttr]: the rewritten term carried from a child to its parent. *)
Record CopyAttr := mkAttr { Exp : SExprPtr }.

#[global] Instance CopyAttr_eq_dec : EqDecision CopyAttr.
Proof. solve_decision. Defined.

(** The default-constructed attribute, [CopyAttr()]. *)
Definition nullAttr : CopyAttr := mkAttr nullptr.

(** ** The original term, as seen through its accessors *)

(** Modelled from the spec: calling conventions are metadata of call and
    code nodes; the construction API builds nodes with the default one. *)
Inductive CallingConvention :=
  | CCV_Default
  | CCV_Other (code : nat).

#[global] Instance CallingConvention_eq_dec : EqDecision CallingConvention.
Proof. solve_decision. Defined.

Record VarDecl := mkVarDecl { varIndex : nat }.

(** [Variable]: a reference to a declaration. *)
Record Variable_ := mkVariable { variableDecl : VarDecl }.

Record Call := mkCall { callingConvention : CallingConvention }.

Record Code := mkCode { codeCallingConvention : CallingConvention }.

(** A [Phi] of the original graph; [instrID] is 0 until instructions are
    numbered. *)
Record Phi := mkPhi { instrID : nat }.

(** A [BasicBlock] of the original graph.  Entries of [arguments] may be
    null. *)
Record BasicBlock := mkBasicBlock {
  blockID : nat;
  arguments : list (option Phi);
  numPredecessors : nat
}.

Record Goto := mkGoto { targetBlock : option BasicBlock }.

Record SCFG := mkSCFG {
  numBlocks : nat;
  entry : BasicBlock;
  exit : BasicBlock
}.

(** ** The destination arena *)

(** A block under construction: its phi nodes (arena addresses), the
    predecessors found so far, the capacity reserved for them, and its
    terminator once the block is closed. *)
Record NewBlock := mkNewBlock {
  Args : list nat;
  Predecessors : list (option nat);
  PredCapacity : nat;
  Terminator : option nat
}.

Inductive Node :=
  | NVariable (vd : VarDecl)
  | NCall (target : SExprPtr) (cc : CallingConvention)
  | NCode (retType body : SExprPtr) (cc : CallingConvention)
  | NPhi (values : list SExprPtr)
  | NGoto (target : nat) (phiIndex : nat)
  | NBasicBlock (b : NewBlock)
  | NSCFG (entryB exitB : nat).

(** [new (arena()) T(...)]: the arena only grows; the new object gets the
    next address. *)
Definition alloc (n : Node) (arena : list Node) : nat * list Node :=
  (length arena, arena ++ [n]).

(** ** ScopeFrame and CopyScope *)

(** A scope: the variable substitution and the instruction map of
    [ScopeFrame], and the block map that [CopyScope] adds.  An entry
    [None] of [Subst] is a frame with no substitution registered; a
    [None] of [BlockMap] is a null pointer. *)
Record CopyScope := mkCopyScope {
  Subst : list (option CopyAttr);
  InstructionMap : gmap nat CopyAttr;
  BlockMap : list (option nat)
}.

Definition set_Subst (f : list (option CopyAttr) → list (option CopyAttr))
    (sc : CopyScope) : CopyScope :=
  mkCopyScope (f (Subst sc)) (InstructionMap sc) (BlockMap sc).

Definition set_InstructionMap (f : gmap nat CopyAttr → gmap nat CopyAttr)
    (sc : CopyScope) : CopyScope :=
  mkCopyScope (Subst sc) (f (InstructionMap sc)) (BlockMap sc).

Definition set_BlockMap (f : list (option nat) → list (option nat))
    (sc : CopyScope) : CopyScope :=
  mkCopyScope (Subst sc) (InstructionMap sc) (f (BlockMap sc)).

(** The scope of a fresh reducer, [new ScopeT()]. *)
Definition emptyScope : CopyScope := mkCopyScope [] ∅ [].

(** Modelled from the spec: [isNull(index)] of the missing [ScopeFrame]
    tells whether the frame of a variable index registers no
    substitution; an index with no enclosing frame is a contract
    violation. *)
Definition ScopeFrame_isNull (i : nat) (sc : CopyScope) : result bool :=
  match Subst sc !! i with
  | Some (Some _) => OK false
  | Some None => OK true
  | None => Fatal ContractViolation
  end.

(** Modelled from the spec: [var(index)] of the missing [ScopeFrame]
    returns the attribute bound to a variable index. *)
Definition ScopeFrame_var (i : nat) (sc : CopyScope) : result CopyAttr :=
  match Subst sc !! i with
  | Some (Some a) => OK a
  | Some None => OK nullAttr
  | None => Fatal ContractViolation
  end.

(** Modelled from the spec: [enterScope] of the missing [ScopeFrame]
    pushes a frame that binds the next variable index to [At]. *)
Definition ScopeFrame_enterScope (At : CopyAttr) (sc : CopyScope) : CopyScope :=
  set_Subst (λ s, s ++ [Some At]) sc.

(** Modelled from the spec: [exitScope] of the missing [ScopeFrame]
    pops the last frame; without a frame it is a contract violation. *)
Definition ScopeFrame_exitScope (sc : CopyScope) : result CopyScope :=
  match Subst sc with
  | [] => Fatal ContractViolation
  | _ => OK (set_Subst (λ s, removelast s) sc)
  end.

(** Modelled from the spec: [insertInstructionMap] of the missing
    [ScopeFrame] records the attribute of an original instruction
    under its instruction id. *)
Definition ScopeFrame_insertInstructionMap (id : nat) (At : CopyAttr)
    (sc : CopyScope) : CopyScope :=
  set_InstructionMap (λ m, <[id := At]> m) sc.

(** Modelled from the spec: [enterCFG] of the missing [ScopeFrame]
    starts the instruction map of the graph being entered. *)
Definition ScopeFrame_enterCFG (Orig : SCFG) (sc : CopyScope) : CopyScope :=
  set_InstructionMap (λ _, ∅) sc.

(** Modelled from the spec: [exitCFG] of the missing [ScopeFrame] drops
    the instruction map of the graph. *)
Definition ScopeFrame_exitCFG (sc : CopyScope) : CopyScope :=
  set_InstructionMap (λ _, ∅) sc.

(** [std::vector::resize(n, x)]: truncate, or pad with [x]. *)
Definition resize_vec {A} (n : nat) (x : A) (l : list A) : list A :=
  take n l ++ replicate (n - length l) x.

(** [lookupBlock]: [BlockMap[Orig->blockID()]]. *)
Definition CopyScope_lookupBlock (Orig : BasicBlock) (sc : CopyScope)
    : result (option nat) :=
  match BlockMap sc !! blockID Orig with
  | Some b => OK b
  | None => Fatal UndefinedBehavior
  end.

(** The loop of [insertBlockMap]: the i-th argument of [Orig] is mapped
    to the i-th argument of [B] when it is non-null and numbered. *)
Fixpoint CopyScope_mapArguments (origArgs : list (option Phi)) (newArgs : list nat)
    (sc : CopyScope) : CopyScope :=
  match origArgs, newArgs with
  | Ph :: origArgs', a :: newArgs' =>
      let sc' :=
        match Ph with
        | Some ph =>
            if 0 <? instrID ph
            then ScopeFrame_insertInstructionMap (instrID ph) (mkAttr (Ref a)) sc
            else sc
        | None => sc
        end in
      CopyScope_mapArguments origArgs' newArgs' sc'
  | _, _ => sc
  end.

(** [insertBlockMap]: add [B] to the block map and its arguments to the
    instruction map.  [B] is read from the arena. *)
Definition CopyScope_insertBlockMap (arena : list Node) (Orig : BasicBlock) (B : nat)
    (sc : CopyScope) : result CopyScope :=
  if decide (blockID Orig < length (BlockMap sc)) then
    let sc1 := set_BlockMap (λ m, <[blockID Orig := Some B]> m) sc in
    match arena !! B with
    | Some (NBasicBlock nb) =>
        let Nargs := length (arguments Orig) in
        _ ← assert (bool_decide (Nargs = length (Args nb)));
        OK (CopyScope_mapArguments (arguments Orig) (Args nb) sc1)
    | _ => Fatal UndefinedBehavior
    end
  else Fatal UndefinedBehavior.

(** [enterCFG]: enter a graph, mapping the blocks of [Orig] to blocks
    of the new graph [S], here at address [G]. *)
Definition CopyScope_enterCFG (arena : list Node) (Orig : SCFG) (G : nat)
    (sc : CopyScope) : result CopyScope :=
  let sc0 := ScopeFrame_enterCFG Orig sc in
  let sc1 := set_BlockMap (resize_vec (numBlocks Orig) None) sc0 in
  match arena !! G with
  | Some (NSCFG Sentry Sexit) =>
      sc2 ← CopyScope_insertBlockMap arena (entry Orig) Sentry sc1;
      CopyScope_insertBlockMap arena (exit Orig) Sexit sc2
  | _ => Fatal UndefinedBehavior
  end.

Definition CopyScope_exitCFG (sc : CopyScope) : CopyScope :=
  set_BlockMap (λ _, []) (ScopeFrame_exitCFG sc).

(** [clone]: the copy constructor; the copy shares nothing with the
    original. *)
Definition CopyScope_clone (sc : CopyScope) : CopyScope := sc.

(** ** CFGBuilder *)

(** Modelled from the spec: the state handle of the missing [CFGBuilder]
    says which block instructions are appended to and whether emission is
    enabled. *)
Record BuilderState := mkBuilderState {
  CurrentBB : option nat;
  EmitInstrs : bool
}.

#[global] Instance BuilderState_eq_dec : EqDecision BuilderState.
Proof. solve_decision. Defined.

Record CFGBuilder := mkCFGBuilder {
  Arena : list Node;
  CurrentCFG : option nat;
  CurrentState : BuilderState
}.

Definition set_Arena (f : list Node → list Node) (b : CFGBuilder)
    : CFGBuilder :=
  mkCFGBuilder (f (Arena b)) (CurrentCFG b) (CurrentState b).

Definition set_CurrentCFG (g : option nat) (b : CFGBuilder) : CFGBuilder :=
  mkCFGBuilder (Arena b) g (CurrentState b).

Definition set_CurrentState (s : BuilderState) (b : CFGBuilder)
    : CFGBuilder :=
  mkCFGBuilder (Arena b) (CurrentCFG b) s.

(** The builder of a fresh reducer. *)
Definition emptyBuilder : CFGBuilder :=
  mkCFGBuilder [] None (mkBuilderState None false).

Definition Builder_currentBB (b : CFGBuilder) : option nat :=
  CurrentBB (CurrentState b).

Definition Builder_currentCFG (b : CFGBuilder) : option nat := CurrentCFG b.

Definition Builder_currentState (b : CFGBuilder) : BuilderState :=
  CurrentState b.

(** Modelled from the spec: [switchState] of the missing [CFGBuilder]
    installs a state and returns the one it replaces. *)
Definition Builder_switchState (s : BuilderState) (b : CFGBuilder)
    : BuilderState * CFGBuilder :=
  (CurrentState b, set_CurrentState s b).

(** Modelled from the spec: [restoreState] of the missing [CFGBuilder]
    installs a state saved by [switchState]. *)
Definition Builder_restoreState (s : BuilderState) (b : CFGBuilder)
    : CFGBuilder :=
  set_CurrentState s b.

(** Allocation of one node by a [newX] constructor. *)
Definition Builder_new (n : Node) (b : CFGBuilder) : nat * CFGBuilder :=
  let '(a, arena) := alloc n (Arena b) in (a, set_Arena (λ _, arena) b).

(** Modelled from the spec: [newVariable] of the missing [CFGBuilder]
    builds a Variable node that refers to a declaration. *)
Definition Builder_newVariable (vd : VarDecl) (b : CFGBuilder)
    : nat * CFGBuilder :=
  Builder_new (NVariable vd) b.

(** Modelled from the spec: [newCall] of the missing [CFGBuilder] builds
    a Call node, which starts with the default calling convention. *)
Definition Builder_newCall (E : SExprPtr) (b : CFGBuilder)
    : nat * CFGBuilder :=
  Builder_new (NCall E CCV_Default) b.

(** Modelled from the spec: [newCode] of the missing [CFGBuilder] builds
    a Code node, which starts with the default calling convention. *)
Definition Builder_newCode (E0 E1 : SExprPtr) (b : CFGBuilder)
    : nat * CFGBuilder :=
  Builder_new (NCode E0 E1 CCV_Default) b.

(** [Res->callingConvention()] on a node of the arena. *)
Definition Node_callingConvention (a : nat) (arena : list Node)
    : result CallingConvention :=
  match arena !! a with
  | Some (NCall _ cc) => OK cc
  | Some (NCode _ _ cc) => OK cc
  | _ => Fatal UndefinedBehavior
  end.

(** [Res->setCallingConvention(cc)] on a node of the arena. *)
Definition Node_setCallingConvention (a : nat) (cc : CallingConvention)
    (arena : list Node) : result (list Node) :=
  match arena !! a with
  | Some (NCall E _) => OK (<[a := NCall E cc]> arena)
  | Some (NCode E0 E1 _) => OK (<[a := NCode E0 E1 cc]> arena)
  | _ => Fatal UndefinedBehavior
  end.

(** Modelled from the spec: [newBlock(argCount, predecessorCapacity)] of
    the missing [CFGBuilder] allocates a block with [Nargs] phi
    placeholders, no predecessor yet and room reserved for [Npreds]. *)
Definition Builder_newBlock (Nargs Npreds : nat) (b : CFGBuilder)
    : nat * CFGBuilder :=
  let B := length (Arena b) in
  let blk := mkNewBlock (seq (S B) Nargs) [] Npreds None in
  (B, set_Arena (λ ar, ar ++ NBasicBlock blk :: replicate Nargs (NPhi [])) b).

(** Modelled from the spec: [setPhiArgument(phi, value, predecessorIndex)]
    of the missing [CFGBuilder] writes a value into the slot that a phi
    placeholder keeps for one predecessor edge. *)
Definition Builder_setPhiArgument (Ph : nat) (E : SExprPtr) (Idx : nat)
    (b : CFGBuilder) : result CFGBuilder :=
  match Arena b !! Ph with
  | Some (NPhi vs) =>
      if decide (Idx < length vs)
      then OK (set_Arena (λ ar, <[Ph := NPhi (<[Idx := E]> vs)]> ar) b)
      else Fatal UndefinedBehavior
  | _ => Fatal UndefinedBehavior
  end.

(** One more slot, still empty, in a phi placeholder. *)
Definition Phi_addSlot (Ph : nat) (arena : list Node) : result (list Node) :=
  match arena !! Ph with
  | Some (NPhi vs) => OK (<[Ph := NPhi (vs ++ [nullptr])]> arena)
  | _ => Fatal UndefinedBehavior
  end.

Fixpoint Phi_addSlots (Phs : list nat) (arena : list Node)
    : result (list Node) :=
  match Phs with
  | [] => OK arena
  | Ph :: Phs' => arena' ← Phi_addSlot Ph arena; Phi_addSlots Phs' arena'
  end.

(** Modelled from the spec: [addPredecessor] of the missing [BasicBlock]
    class appends an incoming edge, gives every phi placeholder of the
    block a slot for it, and returns the index of the edge. *)
Definition BasicBlock_addPredecessor (B : nat) (Pred : option nat)
    (arena : list Node) : result (nat * list Node) :=
  match arena !! B with
  | Some (NBasicBlock nb) =>
      let Idx := length (Predecessors nb) in
      let nb' := mkNewBlock (Args nb) (Predecessors nb ++ [Pred])
                            (PredCapacity nb) (Terminator nb) in
      arena' ← Phi_addSlots (Args nb) (<[B := NBasicBlock nb']> arena);
      OK (Idx, arena')
  | _ => Fatal UndefinedBehavior
  end.

(** Modelled from the spec: [beginBlock] of the missing [CFGBuilder]
    makes a block the one instructions are appended to. *)
Definition Builder_beginBlock (B : option nat) (b : CFGBuilder)
    : CFGBuilder :=
  set_CurrentState (mkBuilderState B (EmitInstrs (CurrentState b))) b.

(** Modelled from the spec: [endBlock] of the missing [CFGBuilder] closes
    the current block with a terminator (possibly null); after it no
    block is current.  It needs a current block. *)
Definition Builder_endBlock (Term : option nat) (b : CFGBuilder)
    : result CFGBuilder :=
  match Builder_currentBB b with
  | Some cb =>
      match Arena b !! cb with
      | Some (NBasicBlock nb) =>
          let nb' := mkNewBlock (Args nb) (Predecessors nb)
                                (PredCapacity nb) Term in
          OK (set_CurrentState
                (mkBuilderState None (EmitInstrs (CurrentState b)))
                (set_Arena (λ ar, <[cb := NBasicBlock nb']> ar) b))
      | _ => Fatal UndefinedBehavior
      end
  | None => Fatal ContractViolation
  end.

(** Modelled from the spec: [beginCFG(nullptr)] of the missing
    [CFGBuilder] opens a new graph that has its entry and exit blocks
    and nothing else. *)
Definition Builder_beginCFG (b : CFGBuilder) : CFGBuilder :=
  let '(Entry, b1) := Builder_newBlock 0 0 b in
  let '(Exit, b2) := Builder_newBlock 0 0 b1 in
  let '(G, b3) := Builder_new (NSCFG Entry Exit) b2 in
  set_CurrentCFG (Some G) b3.

(** Modelled from the spec: [endCFG] of the missing [CFGBuilder] closes
    the current graph. *)
Definition Builder_endCFG (b : CFGBuilder) : CFGBuilder :=
  set_CurrentCFG None b.

(** ** AttributeGrammar: the current scope and the attribute stack *)

(** The state of a reducer object.  [ScopePtr] points into the heap
    [Scopes], where a deleted scope leaves [None].  [Attrs] is the
    attribute stack and [AttrFrame] the start of the current frame. *)
Record CopyReducer := mkCopyReducer {
  ScopePtr : option nat;
  Scopes : list (option CopyScope);
  Attrs : list CopyAttr;
  AttrFrame : nat;
  Builder : CFGBuilder
}.

Definition set_ScopePtr (p : option nat) (r : CopyReducer) : CopyReducer :=
  mkCopyReducer p (Scopes r) (Attrs r) (AttrFrame r) (Builder r).

Definition set_Scopes (f : list (option CopyScope) → list (option CopyScope))
    (r : CopyReducer) : CopyReducer :=
  mkCopyReducer (ScopePtr r) (f (Scopes r)) (Attrs r) (AttrFrame r) (Builder r).

Definition set_Attrs (f : list CopyAttr → list CopyAttr) (r : CopyReducer)
    : CopyReducer :=
  mkCopyReducer (ScopePtr r) (Scopes r) (f (Attrs r)) (AttrFrame r) (Builder r).

Definition set_AttrFrame (n : nat) (r : CopyReducer) : CopyReducer :=
  mkCopyReducer (ScopePtr r) (Scopes r) (Attrs r) n (Builder r).

Definition set_Builder (b : CFGBuilder) (r : CopyReducer) : CopyReducer :=
  mkCopyReducer (ScopePtr r) (Scopes r) (Attrs r) (AttrFrame r) b.

(** [CopyReducer(MemRegionRef A)]: a new scope, no attribute, an idle
    builder. *)
Definition newCopyReducer : CopyReducer :=
  mkCopyReducer (Some 0) [Some emptyScope] [] 0 emptyBuilder.

(** [this->scope()], dereferenced. *)
Definition scope (r : CopyReducer) : result CopyScope :=
  match ScopePtr r with
  | Some p =>
      match Scopes r !! p with
      | Some (Some sc) => OK sc
      | _ => Fatal UndefinedBehavior
      end
  | None => Fatal UndefinedBehavior
  end.

(** A method of the scope that mutates it: the object [this->scope()]
    points to is replaced by its new value. *)
Definition putScope (sc : CopyScope) (r : CopyReducer) : result CopyReducer :=
  match ScopePtr r with
  | Some p =>
      match Scopes r !! p with
      | Some (Some _) => OK (set_Scopes (λ h, <[p := Some sc]> h) r)
      | _ => Fatal UndefinedBehavior
      end
  | None => Fatal UndefinedBehavior
  end.

(** Modelled from the spec: [switchScope] of the missing
    [AttributeGrammar] makes another scope current and returns the one
    it replaces. *)
Definition switchScope (S : option nat) (r : CopyReducer)
    : option nat * CopyReducer :=
  (ScopePtr r, set_ScopePtr S r).

(** Modelled from the spec: [restoreScope] of the missing
    [AttributeGrammar] makes a scope saved by [switchScope] current. *)
Definition restoreScope (S : option nat) (r : CopyReducer) : CopyReducer :=
  set_ScopePtr S r.

(** Modelled from the spec: the attribute stack of the missing
    [AttributeGrammar].  The children of the node being reduced are the
    attributes of the current frame, in order; the result attribute is
    the slot just below the frame. *)
Definition numAttrs (r : CopyReducer) : nat := length (Attrs r) - AttrFrame r.

Definition emptyAttrs (r : CopyReducer) : bool :=
  bool_decide (Attrs r = []).

Definition attr (i : nat) (r : CopyReducer) : result CopyAttr :=
  match Attrs r !! (AttrFrame r + i) with
  | Some a => OK a
  | None => Fatal UndefinedBehavior
  end.

Definition lastAttr (r : CopyReducer) : result CopyAttr :=
  match last (Attrs r) with
  | Some a => OK a
  | None => Fatal UndefinedBehavior
  end.

Definition pushAttr (r : CopyReducer) : CopyReducer :=
  set_Attrs (λ l, l ++ [nullAttr]) r.

(** Assignment to the attribute [pushAttr] has just returned. *)
Definition setLastAttr (a : CopyAttr) (r : CopyReducer) : CopyReducer :=
  set_Attrs (λ l, removelast l ++ [a]) r.

Definition popAttr (r : CopyReducer) : result CopyReducer :=
  match Attrs r with
  | [] => Fatal UndefinedBehavior
  | _ => OK (set_Attrs (λ l, removelast l) r)
  end.

Definition resultAttr (r : CopyReducer) : result CopyAttr :=
  match AttrFrame r with
  | 0 => Fatal UndefinedBehavior
  | S i =>
      match Attrs r !! i with
      | Some a => OK a
      | None => Fatal UndefinedBehavior
      end
  end.

(** Assignment to [this->resultAttr()]. *)
Definition setResultAttr (a : CopyAttr) (r : CopyReducer)
    : result CopyReducer :=
  match AttrFrame r with
  | 0 => Fatal UndefinedBehavior
  | S i =>
      if decide (i < length (Attrs r))
      then OK (set_Attrs (λ l, <[i := a]> l) r)
      else Fatal UndefinedBehavior
  end.

Definition pushAttrFrame (r : CopyReducer) : nat * CopyReducer :=
  (AttrFrame r, set_AttrFrame (length (Attrs r)) r).

Definition restoreAttrFrame (Af : nat) (r : CopyReducer) : CopyReducer :=
  set_AttrFrame Af (set_Attrs (λ l, take (AttrFrame r) l) r).

Definition clearAttrFrames (r : CopyReducer) : CopyReducer :=
  set_AttrFrame 0 (set_Attrs (λ _, []) r).

(** ** CopyReducer: graphs and blocks *)

(** [enterCFG(Cfg)]; [Cfg] is null when an ordinary term is converted to
    a graph. *)
Definition enterCFG (Cfg : option SCFG) (r : CopyReducer)
    : result CopyReducer :=
  match Cfg with
  | Some Orig =>
      let bld := Builder_beginCFG (Builder r) in
      let r1 := set_Builder bld r in
      sc ← scope r1;
      match Builder_currentCFG bld with
      | Some G =>
          sc' ← CopyScope_enterCFG (Arena bld) Orig G sc;
          putScope sc' r1
      | None => Fatal UndefinedBehavior
      end
  | None => OK (set_Builder (Builder_beginCFG (Builder r)) r)
  end.

Definition exitCFG (r : CopyReducer) : result CopyReducer :=
  let r1 := set_Builder (Builder_endCFG (Builder r)) r in
  sc ← scope r1;
  putScope (CopyScope_exitCFG sc) r1.

(** [lookupBlock]: find the block that [Orig] maps to, or create a new
    one. *)
Definition lookupBlock (Orig : option BasicBlock) (r : CopyReducer)
    : result (option nat * CopyReducer) :=
  match Orig with
  | None => OK (None, r)
  | Some Ob =>
      sc ← scope r;
      B2 ← CopyScope_lookupBlock Ob sc;
      match B2 with
      | Some B => OK (Some B, r)
      | None =>
          let Nargs := length (arguments Ob) in
          let '(B, bld) := Builder_newBlock Nargs (numPredecessors Ob)
                                            (Builder r) in
          sc' ← CopyScope_insertBlockMap (Arena bld) Ob B sc;
          r' ← putScope sc' (set_Builder bld r);
          OK (Some B, r')
      end
  end.

Definition enterBlock (B : BasicBlock) (r : CopyReducer)
    : result CopyReducer :=
  '(B2, r1) ← lookupBlock (Some B) r;
  OK (set_Builder (Builder_beginBlock B2 (Builder r1)) r1).

(** [exitBlock]: the terminator should have ended the block. *)
Definition exitBlock (B : BasicBlock) (r : CopyReducer)
    : result CopyReducer :=
  match Builder_currentBB (Builder r) with
  | Some _ =>
      bld ← Builder_endBlock None (Builder r);
      OK (set_Builder bld r)
  | None => OK r
  end.

(** ** CopyReducer: reduce methods *)

Definition reduceVariable (Orig : Variable_) (r : CopyReducer)
    : result CopyReducer :=
  let Idx := varIndex (variableDecl Orig) in
  sc ← scope r;
  null ← ScopeFrame_isNull Idx sc;
  if null : bool then
    let '(Nv, bld) := Builder_newVariable (variableDecl Orig) (Builder r) in
    setResultAttr (mkAttr (Ref Nv)) (set_Builder bld r)
  else
    a ← ScopeFrame_var Idx sc;
    setResultAttr a r.

Definition reduceCode (Orig : Code) (r : CopyReducer) : result CopyReducer :=
  a0 ← attr 0 r;
  a1 ← attr 1 r;
  let '(Res, bld) := Builder_newCode (Exp a0) (Exp a1) (Builder r) in
  arena ← Node_setCallingConvention Res (codeCallingConvention Orig)
                                    (Arena bld);
  setResultAttr (mkAttr (Ref Res)) (set_Builder (set_Arena (λ _, arena) bld) r).

Definition reduceCall (Orig : Call) (r : CopyReducer) : result CopyReducer :=
  a0 ← attr 0 r;
  let '(Res, bld) := Builder_newCall (Exp a0) (Builder r) in
  cc ← Node_callingConvention Res (Arena bld);
  arena ← Node_setCallingConvention Res cc (Arena bld);
  setResultAttr (mkAttr (Ref Res)) (set_Builder (set_Arena (λ _, arena) bld) r).

(** [B->arguments()] of a block of the arena. *)
Definition Block_arguments (B : nat) (arena : list Node)
    : result (list nat) :=
  match arena !! B with
  | Some (NBasicBlock nb) => OK (Args nb)
  | _ => Fatal UndefinedBehavior
  end.

(** The loop of [reduceGoto]: the i-th attribute goes to the i-th phi
    node of the target, at the index of the new edge. *)
Fixpoint reduceGoto_loop (Phs : list nat) (i Idx : nat) (r : CopyReducer)
    : result CopyReducer :=
  match Phs with
  | [] => OK r
  | Ph :: Phs' =>
      a ← attr i r;
      bld ← Builder_setPhiArgument Ph (Exp a) Idx (Builder r);
      reduceGoto_loop Phs' (S i) Idx (set_Builder bld r)
  end.

Definition reduceGoto (Orig : Goto) (r : CopyReducer) : result CopyReducer :=
  '(Bo, r1) ← lookupBlock (targetBlock Orig) r;
  match Bo with
  | None => Fatal UndefinedBehavior
  | Some B =>
      '(Idx, arena2) ← BasicBlock_addPredecessor B
                         (Builder_currentBB (Builder r1)) (Arena (Builder r1));
      let '(Res, bld3) :=
        Builder_new (NGoto B Idx) (set_Arena (λ _, arena2) (Builder r1)) in
      let r3 := set_Builder bld3 r1 in
      Phs ← Block_arguments B (Arena bld3);
      _ ← assert (bool_decide (length Phs = numAttrs r3));
      r4 ← reduceGoto_loop Phs 0 Idx r3;
      bld5 ← Builder_endBlock (Some Res) (Builder r4);
      setResultAttr (mkAttr (Ref Res)) (set_Builder bld5 r4)
  end.

(** ** Terms as the traversal sees them *)

(** The kinds of position the source names, and [TRV_SubExpr] for the
    remaining, strict ones. *)
Inductive TraversalKind :=
  | TRV_SubExpr
  | TRV_Tail
  | TRV_Lazy
  | TRV_Type.

#[global] Instance TraversalKind_eq_dec : EqDecision TraversalKind.
Proof. solve_decision. Defined.

(** What the dispatch does on a node, in order: visit a child in some
    position through [self()->traverse], or call back into the reducer
    (a reduce method, [enterScope], [enterBlock], ...). *)
Inductive Step (E : Type) :=
  | Visit (e : E) (K : TraversalKind)
  | Reduce (rule : CopyReducer → result CopyReducer).

Arguments Visit {E} e K.
Arguments Reduce {E} rule.

(** Modelled from the spec: a term of the missing IR, reduced to what the
    traversal observes: whether it is a fully evaluated value, and the
    steps the external dispatch performs on it.  Children are visited
    once; weak references are callbacks, never visits, so a term is a
    finite tree even when its graph has cycles. *)
#[warnings="-register-all"]
Inductive SExpr :=
  | mkSExpr (value : bool) (steps : list (Step SExpr)).



(** ** LazyCopyFuture and the copier *)

Inductive FutureStatus :=
  | FS_pending
  | FS_done.

#[global] Instance FutureStatus_eq_dec : EqDecision FutureStatus.
Proof. solve_decision. Defined.

(** A [LazyCopyFuture].  [FScopePtr] is its [ScopePtr] member; [Status]
    and [FResult] belong to the base class [Future].  Its [Reducer]
    member is the copier that created it. *)
Record LazyCopyFuture := mkFuture {
  PendingExpr : option SExpr;
  FScopePtr : option nat;
  BState : BuilderState;
  CreateCfg : bool;
  Status : FutureStatus;
  FResult : SExprPtr
}.

(** An [SExprCopier]: a [CopyReducer] and a [LazyCopyTraversal].  The
    futures it allocated are kept in [Futures]; the protected
    [FutureQueue] holds their addresses. *)
Record SExprCopier := mkCopier {
  Reducer : CopyReducer;
  Futures : list LazyCopyFuture;
  FutureQueue : list nat
}.

Definition set_Reducer (r : CopyReducer) (c : SExprCopier) : SExprCopier :=
  mkCopier r (Futures c) (FutureQueue c).

Definition set_Futures (f : list LazyCopyFuture → list LazyCopyFuture)
    (c : SExprCopier) : SExprCopier :=
  mkCopier (Reducer c) (f (Futures c)) (FutureQueue c).

Definition set_FutureQueue (f : list nat → list nat) (c : SExprCopier)
    : SExprCopier :=
  mkCopier (Reducer c) (Futures c) (f (FutureQueue c)).

(** [SExprCopier(MemRegionRef A)]. *)
Definition newSExprCopier : SExprCopier := mkCopier newCopyReducer [] [].

Definition getFuture (F : nat) (c : SExprCopier) : result LazyCopyFuture :=
  match Futures c !! F with
  | Some fut => OK fut
  | None => Fatal UndefinedBehavior
  end.

(** [makeFuture]: create a future in the current context. *)
Definition makeFuture (E : SExpr) (c : SExprCopier)
    : result (nat * SExprCopier) :=
  let r := Reducer c in
  let Bs0 := Builder_currentState (Builder r) in
  let Bs := mkBuilderState (CurrentBB Bs0) false in
  sc ← scope r;
  let S' := length (Scopes r) in
  let r' := set_Scopes (λ h, h ++ [Some (CopyScope_clone sc)]) r in
  let F := length (Futures c) in
  let fut := mkFuture (Some E) (Some S') Bs false FS_pending nullptr in
  OK (F, mkCopier r' (Futures c ++ [fut]) (FutureQueue c ++ [F])).

Definition isLazyPosition (K : TraversalKind) : bool :=
  bool_decide (K = TRV_Lazy) || bool_decide (K = TRV_Type).

(** The steps of a node, run in order with [self()->traverse] for the
    visits. *)
Fixpoint runSteps (trav : SExpr → TraversalKind → SExprCopier → result SExprCopier)
    (ss : list (Step SExpr)) (c : SExprCopier) : result SExprCopier :=
  match ss with
  | [] => OK c
  | Visit e K :: ss' => c' ← trav e K c; runSteps trav ss' c'
  | Reduce rule :: ss' =>
      r' ← rule (Reducer c);
      runSteps trav ss' (set_Reducer r' c)
  end.

(** Modelled from the spec: the generic traversal of the missing
    [AGTraversal] pushes the slot of the result, opens an attribute
    frame, lets the dispatch run the steps of the node (every visited
    child leaves one attribute in the frame), and closes the frame, which
    leaves the result on top of the stack. *)
Definition dispatch (body : SExprCopier → result SExprCopier)
    (c : SExprCopier) : result SExprCopier :=
  let r1 := pushAttr (Reducer c) in
  let '(Af, r2) := pushAttrFrame r1 in
  c3 ← body (set_Reducer r2 c);
  OK (set_Reducer (restoreAttrFrame Af (Reducer c3)) c3).

(** [LazyCopyTraversal::traverse]: traverse [E], or leave a future in a
    lazy or type position. *)
Fixpoint traverse (E : SExpr) (K : TraversalKind) (c : SExprCopier)
    {struct E} : result SExprCopier :=
  match E with
  | mkSExpr value ss =>
      if isLazyPosition K && negb value then
        let c1 := set_Reducer (pushAttr (Reducer c)) c in
        '(F, c2) ← makeFuture E c1;
        OK (set_Reducer (setLastAttr (mkAttr (FutureRef F)) (Reducer c2)) c2)
      else
        dispatch (runSteps traverse ss) c
  end.


(** [finish]: release the scope and the expression of a future. *)
Definition finish (F : nat) (c : SExprCopier) : result SExprCopier :=
  fut ← getFuture F c;
  r' ← match FScopePtr fut with
       | Some p =>
           match Scopes (Reducer c) !! p with
           | Some (Some _) =>
               OK (set_Scopes (λ h, <[p := None]> h) (Reducer c))
           | _ => Fatal UndefinedBehavior
           end
       | None => OK (Reducer c)
       end;
  let fut' := mkFuture None None (BState fut) (CreateCfg fut)
                       (Status fut) (FResult fut) in
  OK (mkCopier r' (<[F := fut']> (Futures c)) (FutureQueue c)).

(** [evaluate]: traverse [PendingExpr] and return the result. *)
Definition evaluate (F : nat) (c : SExprCopier)
    : result (SExprPtr * SExprCopier) :=
  fut ← getFuture F c;
  let '(S', r1) := switchScope (FScopePtr fut) (Reducer c) in
  let '(Bs, bld) := Builder_switchState (BState fut) (Builder r1) in
  let r2 := set_Builder bld r1 in
  r3 ← (if CreateCfg fut then enterCFG None r2 else OK r2);
  E ← match PendingExpr fut with
      | Some E => OK E
      | None => Fatal ContractViolation
      end;
  c4 ← traverse E TRV_Tail (set_Reducer r3 c);
  a ← lastAttr (Reducer c4);
  r5 ← popAttr (Reducer c4);
  '(Res, r6) ← (if CreateCfg fut then
                  let Res := match Builder_currentCFG (Builder r5) with
                             | Some G => Ref G
                             | None => nullptr
                             end in
                  r6 ← exitCFG r5; OK (Res, r6)
                else OK (Exp a, r5));
  let r7 := set_Builder (Builder_restoreState Bs (Builder r6)) r6 in
  let r8 := restoreScope S' r7 in
  c9 ← finish F (set_Reducer r8 c4);
  OK (Res, c9).

(** Modelled from the spec: [force] of the missing base class [Future]
    evaluates a pending future and records its result; forcing a future
    twice is a contract violation. *)
Definition force (F : nat) (c : SExprCopier) : result SExprCopier :=
  fut ← getFuture F c;
  match Status fut with
  | FS_done => Fatal ContractViolation
  | FS_pending =>
      '(Res, c') ← evaluate F c;
      fut' ← getFuture F c';
      let done := mkFuture (PendingExpr fut') (FScopePtr fut') (BState fut')
                           (CreateCfg fut') FS_done Res in
      OK (set_Futures (λ fs, <[F := done]> fs) c')
  end.

(** The loop of [traverseAll].  [fuel] bounds its iterations; the
    result is [None] when the bound is reached before the queue is
    empty. *)
Fixpoint forceQueue (fuel : nat) (c : SExprCopier)
    : option (result SExprCopier) :=
  match FutureQueue c with
  | [] => Some (OK c)
  | F :: Q =>
      match fuel with
      | 0 => None
      | S fuel' =>
          match force F (set_FutureQueue (λ _, Q) c) with
          | OK c' => forceQueue fuel' c'
          | Fatal e => Some (Fatal e)
          end
      end
  end.

(** [traverseAll], up to its loop: the traversal of the term, whose
    result is taken from the attribute stack. *)
Definition traverseAll_top (E : SExpr) (c : SExprCopier)
    : result (SExprPtr * SExprCopier) :=
  _ ← assert (emptyAttrs (Reducer c));
  c1 ← traverse E TRV_Tail c;
  a ← attr 0 (Reducer c1);
  r2 ← popAttr (Reducer c1);
  OK (Exp a, set_Reducer r2 c1).

(** [traverseAll]: perform a lazy traversal. *)
Definition traverseAll (fuel : nat) (E : SExpr) (c : SExprCopier)
    : option (result (SExprPtr * SExprCopier)) :=
  match traverseAll_top E c with
  | OK (Result, c2) =>
      match forceQueue fuel c2 with
      | Some (OK c3) =>
          Some (OK (Result, set_Reducer (clearAttrFrames (Reducer c3)) c3))
      | Some (Fatal e) => Some (Fatal e)
      | None => None
      end
  | Fatal e => Some (Fatal e)
  end.

(** ** Example inputs *)

(** A scope with two frames (index 0 unsubstituted, index 1 bound to the
    node at address 7) and two blocks (block 0 rewritten to the block at
    address 0, block 1 not yet). *)
Definition ex_scope : CopyScope :=
  mkCopyScope [None; Some (mkAttr (Ref 7))] ∅ [Some 0; None].

(** A builder that is appending to the block at address 0. *)
Definition ex_builder : CFGBuilder :=
  mkCFGBuilder [NBasicBlock (mkNewBlock [] [] 0 None)] None
               (mkBuilderState (Some 0) true).

(** A reducer in the middle of a node with one child, whose attribute
    is the node at address 9. *)
Definition ex_reducer : CopyReducer :=
  mkCopyReducer (Some 0) [Some ex_scope] [nullAttr; mkAttr (Ref 9)] 1
                ex_builder.

(** A copier about to start a traversal. *)
Definition ex_copier : SExprCopier :=
  mkCopier (mkCopyReducer (Some 0) [Some ex_scope] [] 0 ex_builder) [] [].

(** Block 1 of the original graph, with one numbered argument and two
    predecessors. *)
Definition ex_block1 : BasicBlock := mkBasicBlock 1 [Some (mkPhi 4)] 2.

Definition ex_goto : Goto := mkGoto (Some ex_block1).

(** A reference to the variable of index [i]. *)
Definition exVariable (i : nat) : SExpr :=
  mkSExpr false [Reduce (reduceVariable (mkVariable (mkVarDecl i)))].

(** A call: the target is a strict child. *)
Definition exCall (target : SExpr) (cc : CallingConvention) : SExpr :=
  mkSExpr false [Visit target TRV_SubExpr; Reduce (reduceCall (mkCall cc))].

(** A code node: the return type is in a type position and the body in
    a lazy position. *)
Definition exCode (ty body : SExpr) (cc : CallingConvention) : SExpr :=
  mkSExpr true [Visit ty TRV_Type; Visit body TRV_Lazy;
                Reduce (reduceCode (mkCode cc))].

(** Code whose body calls code: futures are created both by the
    traversal of the term and while a future is forced. *)
Definition ex_term : SExpr :=
  exCode (exVariable 1)
         (exCall (exCode (exVariable 0) (exVariable 1) CCV_Default)
                 (CCV_Other 3))
         (CCV_Other 2).

(** A copier between two futures of the loop of [traverseAll]: its
    future 0 was created while the block at address 0 was current, with
    a clone of the scope at address 1; now no block is current. *)
Definition ex_forcing : SExprCopier :=
  mkCopier
    (mkCopyReducer (Some 0) [Some ex_scope; Some ex_scope] [] 0
       (mkCFGBuilder [NBasicBlock (mkNewBlock [] [] 0 None)] None
                     (mkBuilderState None true)))
    [mkFuture (Some (exVariable 1)) (Some 1) (mkBuilderState (Some 0) false)
              false FS_pending nullptr]
    [].

(** A new graph, with its entry (one argument) and exit blocks. *)
Definition cfg_arena : list Node :=
  [NBasicBlock (mkNewBlock [1] [] 0 None); NPhi [];
   NBasicBlock (mkNewBlock [] [] 0 None); NSCFG 0 2].

(** An original graph whose entry has a numbered argument. *)
Definition cfg_numbered : SCFG :=
  mkSCFG 2 (mkBasicBlock 0 [Some (mkPhi 3)] 0) (mkBasicBlock 1 [] 0).

(** An original graph whose entry has an argument that is not numbered
    yet. *)
Definition cfg_unnumbered : SCFG :=
  mkSCFG 2 (mkBasicBlock 0 [Some (mkPhi 0)] 0) (mkBasicBlock 1 [] 0).

(** ** Notions used in the statements *)

(** A sequence of lookups, as the rules of Goto, Branch and Switch and
    [enterBlock] perform them during a traversal. *)
Fixpoint lookupBlocks (Os : list (option BasicBlock)) (r : CopyReducer)
    : result CopyReducer :=
  match Os with
  | [] => OK r
  | Ob :: Os' => '(_, r') ← lookupBlock Ob r; lookupBlocks Os' r'
  end.

(** The instruction ids that [insertBlockMap] maps for a block. *)
Definition numberedArgs (origArgs : list (option Phi)) : list nat :=
  omap (λ Ph : option Phi,
          ph ← Ph; if 0 <? instrID ph then Some (instrID ph) else None)
       origArgs.

(** Every address of [Phs] holds a phi node with [n] slots. *)
Definition phis_at (arena : list Node) (Phs : list nat) (n : nat) : Prop :=
  Forall (λ Ph, ∃ vs, arena !! Ph = Some (NPhi vs) ∧ length vs = n) Phs.

(** A block whose phi nodes are distinct and have one slot for each
    predecessor. *)
Definition wf_block (arena : list Node) (nb : NewBlock) : Prop :=
  NoDup (Args nb) ∧ phis_at arena (Args nb) (length (Predecessors nb)).

(** The reducer [r] with another arena. *)
Definition with_arena (arena : list Node) (r : CopyReducer) : CopyReducer :=
  set_Builder (set_Arena (λ _, arena) (Builder r)) r.

(** The size of a term: the number of its nodes. *)
Definition Step_size (size : SExpr → nat) (s : Step SExpr) : nat :=
  match s with
  | Visit e _ => size e
  | Reduce _ => 0
  end.

Fixpoint SExpr_size (E : SExpr) : nat :=
  match E with
  | mkSExpr _ ss => S (sum_list_with (Step_size SExpr_size) ss)
  end.

Definition steps_size (ss : list (Step SExpr)) : nat :=
  sum_list_with (Step_size SExpr_size) ss.

(** The size of the expression a future holds. *)
Definition fut_size (fut : LazyCopyFuture) : nat :=
  match PendingExpr fut with
  | Some E => SExpr_size E
  | None => 0
  end.

(** [c'] has the futures of [c] and new ones behind them, all pending,
    enqueued in the order of their creation, whose pending expressions
    have a total size of at most [n]. *)
Definition extends (n : nat) (c c' : SExprCopier) : Prop :=
  ∃ new,
    Futures c' = Futures c ++ new ∧
    FutureQueue c' = FutureQueue c ++ seq (length (Futures c)) (length new) ∧
    Forall (λ fut, Status fut = FS_pending) new ∧
    sum_list_with fut_size new ≤ n.

(** A forced future: it is done and holds neither expression nor
    scope. *)
Definition released (fut : LazyCopyFuture) : Prop :=
  Status fut = FS_done ∧ PendingExpr fut = None ∧ FScopePtr fut = None.

(** The reducer in which [evaluate] runs the deferred traversal of a
    future. *)
Definition evaluate_context (fut : LazyCopyFuture) (r : CopyReducer)
    : CopyReducer :=
  let r2 := set_Builder (set_CurrentState (BState fut) (Builder r))
                        (set_ScopePtr (FScopePtr fut) r) in
  if CreateCfg fut then set_Builder (Builder_beginCFG (Builder r2)) r2 else r2.

(** The futures on which [forceQueue] calls [force], in order. *)
Fixpoint forcedBy (fuel : nat) (c : SExprCopier) : list nat :=
  match FutureQueue c with
  | [] => []
  | F :: Q =>
      match fuel with
      | 0 => []
      | S fuel' =>
          match force F (set_FutureQueue (λ _, Q) c) with
          | OK c' => F :: forcedBy fuel' c'
          | Fatal _ => [F]
          end
      end
  end.

(** The size of the expression held by the future at address [F]. *)
Definition pending_size (fs : list LazyCopyFuture) (F : nat) : nat :=
  from_option fut_size 0 (fs !! F).

(** The measure of the loop: the total size of the expressions that the
    queued futures still hold. *)
Definition queue_size (c : SExprCopier) : nat :=
  sum_list_with (pending_size (Futures c)) (FutureQueue c).

(** The queue holds addresses of futures. *)
Definition queue_valid (c : SExprCopier) : Prop :=
  Forall (λ F, F < length (Futures c)) (FutureQueue c).

(** The reducer of the examples once block 1 has been created. *)
Definition ex_reducer1 : CopyReducer :=
  match lookupBlock (Some ex_block1) ex_reducer with
  | OK (_, r1) => r1
  | Fatal _ => ex_reducer
  end.

(** The copier of the examples once its future has been evaluated. *)
Definition ex_forced : SExprCopier :=
  match evaluate 0 ex_forcing with
  | OK (_, c') => c'
  | Fatal _ => ex_forcing
  end.

(** ** The remaining methods of the reducer *)

(** An [Instruction] of the original graph, seen through [instrID]. *)
Record Instruction := mkInstruction { Instruction_instrID : nat }.

(** Modelled from the spec: [instr(index)] of the missing [ScopeFrame]
    looks an original instruction up in the instruction map; an
    instruction that was not recorded has the default attribute. *)
Definition ScopeFrame_instr (i : nat) (sc : CopyScope) : CopyAttr :=
  default nullAttr (InstructionMap sc !! i).

(** [reduceNull]: reduce a null pointer. *)
Definition reduceNull (r : CopyReducer) : result CopyReducer :=
  setResultAttr (mkAttr nullptr) r.

Definition reduceWeak (Orig : Instruction) (r : CopyReducer)
    : result CopyReducer :=
  let Idx := Instruction_instrID Orig in
  sc ← scope r;
  setResultAttr (ScopeFrame_instr Idx sc) r.

(** [reduceBBArgument]: arguments are handled in [lookupBlock]. *)
Definition reduceBBArgument (Ph : Phi) (r : CopyReducer)
    : result CopyReducer :=
  OK r.

Definition reduceBBInstruction (I : Instruction) (r : CopyReducer)
    : result CopyReducer :=
  sc ← scope r;
  a ← lastAttr r;
  putScope (ScopeFrame_insertInstructionMap (Instruction_instrID I) a sc) r.

(** [reducePhi]: phi nodes are created in [lookupBlock]. *)
Definition reducePhi (Orig : Phi) (r : CopyReducer) : result CopyReducer :=
  OK r.

(** [reduceBasicBlock]: no result, the block has ended with its
    terminator. *)
Definition reduceBasicBlock (Orig : BasicBlock) (r : CopyReducer)
    : result CopyReducer :=
  setResultAttr (mkAttr nullptr) r.

Definition reduceSCFG (Orig : SCFG) (r : CopyReducer) : result CopyReducer :=
  let G := match Builder_currentCFG (Builder r) with
           | Some G => Ref G
           | None => nullptr
           end in
  setResultAttr (mkAttr G) r.

(** The loop of [attributesAsSExpr], with [n] iterations left. *)
Fixpoint attributesAsSExpr_loop (n i : nat) (r : CopyReducer)
    (Res : list SExprPtr) : result (list SExprPtr) :=
  match n with
  | 0 => OK Res
  | S n' =>
      a ← attr i r;
      attributesAsSExpr_loop n' (S i) r (Res ++ [Exp a])
  end.

Definition attributesAsSExpr (r : CopyReducer) : result (list SExprPtr) :=
  attributesAsSExpr_loop (numAttrs r) 0 r [].

(** [SExprCopier::copy]: copy a term with a copier of its own. *)
Definition copy (fuel : nat) (E : SExpr)
    : option (result (SExprPtr * SExprCopier)) :=
  traverseAll fuel E newSExprCopier.

(** ** Invariants of the arena and of the block map *)

(** Every block of the arena is well formed, and no phi node belongs to
    two blocks. *)
Definition arena_wf (arena : list Node) : Prop :=
  (∀ B nb, arena !! B = Some (NBasicBlock nb) → wf_block arena nb) ∧
  (∀ B1 B2 nb1 nb2 Ph,
     arena !! B1 = Some (NBasicBlock nb1) →
     arena !! B2 = Some (NBasicBlock nb2) →
     Ph ∈ Args nb1 → Ph ∈ Args nb2 → B1 = B2).

(** The block map sends originals to blocks of the arena, and different
    originals to different blocks. *)
Definition blockmap_ok (arena : list Node) (sc : CopyScope) : Prop :=
  (∀ id B, BlockMap sc !! id = Some (Some B) →
           ∃ nb, arena !! B = Some (NBasicBlock nb)) ∧
  (∀ id1 id2 B, BlockMap sc !! id1 = Some (Some B) →
                BlockMap sc !! id2 = Some (Some B) → id1 = id2).

(** A callback that keeps the attribute frame: called inside a frame, it
    leaves the frame where it is, does not shrink the stack below it and
    leaves the attributes under the result slot as they are. *)
Definition keeps_frame (rule : CopyReducer → result CopyReducer) : Prop :=
  ∀ r r', rule r = OK r' → AttrFrame r ≤ length (Attrs r) →
          AttrFrame r' = AttrFrame r ∧ AttrFrame r ≤ length (Attrs r') ∧
          take (AttrFrame r - 1) (Attrs r') = take (AttrFrame r - 1) (Attrs r).

(** A term all of whose callbacks keep the attribute frame. *)
Fixpoint frame_safe (E : SExpr) : Prop :=
  match E with
  | mkSExpr _ ss =>
      foldr (λ s P,
               match s with
               | Visit e _ => frame_safe e
               | Reduce rule => keeps_frame rule
               end ∧ P) True ss
  end.

(** A callback that writes at most the result attribute: the frame and
    every other attribute stay as they are. *)
Definition writes_result_only (rule : CopyReducer → result CopyReducer)
    : Prop :=
  ∀ r r', rule r = OK r' →
          AttrFrame r' = AttrFrame r ∧
          length (Attrs r') = length (Attrs r) ∧
          ∀ i, S i ≠ AttrFrame r → Attrs r' !! i = Attrs r !! i.

(** A reducer in the middle of a node with two children. *)
Definition ex_reducer2 : CopyReducer :=
  mkCopyReducer (Some 0) [Some ex_scope]
                [nullAttr; mkAttr (Ref 9); mkAttr (Ref 8)] 1 ex_builder.

(** Modelled from the spec: a call whose target is a null pointer.  The
    target is a strict child, so [traverse] hands it to the dispatch
    without asking whether it is a value, and the missing dispatch
    reduces a null pointer with [reduceNull], which gives the null
    result. *)
Definition exCallNull (cc : CallingConvention) : SExpr :=
  mkSExpr false [Visit (mkSExpr false [Reduce reduceNull]) TRV_SubExpr;
                 Reduce (reduceCall (mkCall cc))].

(** A term without variables, for a copier that starts from nothing:
    code whose return type is a call and whose body calls code; the
    calls at the leaves have no target. *)
Definition ex_closed_term : SExpr :=
  exCode (exCallNull (CCV_Other 1))
         (exCall (exCode (exCallNull CCV_Default) (exCallNull (CCV_Other 4))
                         CCV_Default)
                 (CCV_Other 3))
         (CCV_Other 2).

(** An arena in which the copy of block 1 (address 1) already has a
    predecessor, the closed block at address 3, for which its phi node
    (address 2) holds the variable at address 5. *)
Definition ex_arena2 : list Node :=
  [NBasicBlock (mkNewBlock [] [] 0 None);
   NBasicBlock (mkNewBlock [2] [Some 3] 2 None);
   NPhi [Ref 5];
   NBasicBlock (mkNewBlock [] [] 0 (Some 4));
   NGoto 1 0;
   NVariable (mkVarDecl 0);
   NVariable (mkVarDecl 1)].

(** The scope of that copy: blocks 0, 1 and 2 of the original are
    rewritten to the blocks at addresses 0, 1 and 3. *)
Definition ex_scope2 : CopyScope :=
  mkCopyScope [None; Some (mkAttr (Ref 5))] ∅ [Some 0; Some 1; Some 3].

(** A reducer about to reduce a second Goto to block 1: the block at
    address 0 is current, and the attribute of the argument of the Goto
    is the variable at address 6. *)
Definition ex_reducer3 : CopyReducer :=
  mkCopyReducer (Some 0) [Some ex_scope2] [nullAttr; mkAttr (Ref 6)] 1
    (mkCFGBuilder ex_arena2 None (mkBuilderState (Some 0) true)).

(** Code whose return type calls code: the future of the return type
    creates futures when it is forced, while the future of the body
    waits in the queue. *)
Definition ex_term2 : SExpr :=
  exCode (exCall (exCode (exVariable 0) (exVariable 1) CCV_Default)
                 (CCV_Other 3))
         (exVariable 1)
         (CCV_Other 2).

(** The copier of the examples in the loop of [traverseAll] on
    [ex_term2], when future 0 has been taken from the queue and is about
    to be forced. *)
Definition ex_forcing2 : SExprCopier :=
  match traverseAll_top ex_term2 ex_copier with
  | OK (_, c) => set_FutureQueue (drop 1) c
  | Fatal _ => ex_copier
  end.

(** Inside a frame that starts at [f], above the attributes [A0]. *)
Definition in_frame (f : nat) (A0 : list CopyAttr) (r : CopyReducer) : Prop :=
  AttrFrame r = f ∧ f ≤ length (Attrs r) ∧ take (f - 1) (Attrs r) = A0.

(** * Properties *)

(** *** The result monad *)

Lemma bind_OK {A B} (m : result A) (f : A → result B) (b : B) :
  m ≫= f = OK b ↔ ∃ a, m = OK a ∧ f a = OK b.
Proof.
  destruct m as [a|e]; simpl; split.
  - eauto.
  - intros (a' & [= <-] & H). done.
  - discriminate.
  - intros (a' & [=] & _).
Qed.

(** *** Scopes *)

Lemma mapArguments_BlockMap origArgs newArgs sc :
  BlockMap (CopyScope_mapArguments origArgs newArgs sc) = BlockMap sc.
Proof.
  revert newArgs sc. induction origArgs as [|Ph os IH]; intros [|a ns] sc;
    simpl; try done.
  rewrite IH. destruct Ph as [ph|]; [|done]. by destruct (0 <? instrID ph).
Qed.

Lemma insertBlockMap_OK arena Orig B sc nb :
  blockID Orig < length (BlockMap sc) →
  arena !! B = Some (NBasicBlock nb) →
  length (arguments Orig) = length (Args nb) →
  CopyScope_insertBlockMap arena Orig B sc =
    OK (CopyScope_mapArguments (arguments Orig) (Args nb)
          (set_BlockMap (λ m, <[blockID Orig := Some B]> m) sc)).
Proof.
  intros Hlt HB Hlen. unfold CopyScope_insertBlockMap.
  rewrite decide_True by done. rewrite HB. simpl.
  rewrite bool_decide_eq_true_2 by done. done.
Qed.

Lemma mapArguments_other origArgs newArgs sc id :
  id ∉ numberedArgs origArgs →
  InstructionMap (CopyScope_mapArguments origArgs newArgs sc) !! id
  = InstructionMap sc !! id.
Proof.
  revert newArgs sc. induction origArgs as [|Ph os IH]; intros [|a ns] sc Hid;
    simpl; try done.
  unfold numberedArgs in Hid. simpl in Hid.
  destruct Ph as [ph|]; simpl in Hid.
  - destruct (0 <? instrID ph) eqn:Hpos; simpl in Hid.
    + apply not_elem_of_cons in Hid as [Hne Hid].
      rewrite IH by done. simpl. by rewrite lookup_insert_ne.
    + by rewrite IH.
  - by rewrite IH.
Qed.

Lemma mapArguments_lookup origArgs newArgs sc i ph a :
  NoDup (numberedArgs origArgs) →
  origArgs !! i = Some (Some ph) →
  0 < instrID ph →
  newArgs !! i = Some a →
  InstructionMap (CopyScope_mapArguments origArgs newArgs sc) !! instrID ph
  = Some (mkAttr (Ref a)).
Proof.
  revert newArgs sc i.
  induction origArgs as [|Ph os IH]; intros [|a' ns] sc i Hnd Ho Hpos Hn;
    try done.
  unfold numberedArgs in Hnd. simpl in Hnd.
  destruct i as [|i]; simpl in *.
  - injection Ho as ->. injection Hn as ->. simpl in Hnd.
    apply Nat.ltb_lt in Hpos as Hpos'. rewrite Hpos' in *. simpl in Hnd.
    apply NoDup_cons in Hnd as [Hnotin _].
    rewrite mapArguments_other by done. simpl. by rewrite lookup_insert_eq.
  - eapply IH; [|done..].
    destruct Ph as [ph'|]; simpl in Hnd; [|done].
    destruct (0 <? instrID ph'); simpl in Hnd; [|done].
    by apply NoDup_cons in Hnd as [_ ?].
Qed.

Lemma length_resize_vec {A} n (x : A) l : length (resize_vec n x l) = n.
Proof.
  unfold resize_vec. rewrite length_app, length_take, length_replicate. lia.
Qed.

Lemma scope_putScope sc r r' :
  putScope sc r = OK r' → scope r' = OK sc ∧ ScopePtr r' = ScopePtr r
  ∧ Builder r' = Builder r ∧ Attrs r' = Attrs r ∧ AttrFrame r' = AttrFrame r.
Proof.
  unfold putScope, scope. destruct (ScopePtr r) as [p|] eqn:Hp; [|done].
  destruct (Scopes r !! p) as [[s|]|] eqn:Hs; try done.
  intros [= <-]. simpl. rewrite Hp.
  rewrite list_lookup_insert_eq; [done|]. by eapply lookup_lt_Some.
Qed.

Lemma putScope_OK sc (sc0 : CopyScope) r :
  scope r = OK sc0 → ∃ r', putScope sc r = OK r'.
Proof.
  unfold putScope, scope. destruct (ScopePtr r) as [p|]; [|done].
  destruct (Scopes r !! p) as [[s|]|]; try done. eauto.
Qed.

(** *** reduceVariable *)

(** C1.  For a reference to the variable of index [i]: when the scope
    binds [i] to an attribute [A], [reduceVariable] stores [A] itself as
    the result attribute and allocates nothing; when the scope registers
    no substitution for [i], it builds a fresh Variable node that refers
    to the declaration, and the result attribute is that node. *)
Theorem reduceVariable_substitutes (Orig : Variable_) (r : CopyReducer)
    (sc : CopyScope) (res : CopyAttr) :
  scope r = OK sc →
  resultAttr r = OK res →
  let i := varIndex (variableDecl Orig) in
  (∀ A, Subst sc !! i = Some (Some A) →
     ∃ r', reduceVariable Orig r = OK r' ∧ resultAttr r' = OK A ∧
           Builder r' = Builder r ∧ Scopes r' = Scopes r)
  ∧ (Subst sc !! i = Some None →
     ∃ r', reduceVariable Orig r = OK r' ∧
           let Nv := length (Arena (Builder r)) in
           resultAttr r' = OK (mkAttr (Ref Nv)) ∧
           Arena (Builder r) !! Nv = None ∧
           Arena (Builder r') = Arena (Builder r) ++ [NVariable (variableDecl Orig)]).
Proof.
  intros Hsc Hres i. unfold reduceVariable. fold i. rewrite Hsc. simpl.
  unfold resultAttr in Hres.
  destruct (AttrFrame r) as [|n] eqn:Hf; [done|].
  destruct (Attrs r !! n) as [a0|] eqn:Ha; [|done].
  apply lookup_lt_Some in Ha as Hlt.
  split.
  - intros A HA. unfold ScopeFrame_isNull, ScopeFrame_var. rewrite HA. simpl.
    unfold setResultAttr. rewrite Hf. rewrite decide_True by done.
    eexists; split; [done|]. simpl. unfold resultAttr. simpl. rewrite Hf.
    rewrite list_lookup_insert_eq by done. done.
  - intros HN. unfold ScopeFrame_isNull. rewrite HN. simpl.
    unfold setResultAttr. simpl. rewrite Hf. rewrite decide_True by done.
    eexists; split; [done|]. simpl. unfold resultAttr. simpl. rewrite Hf.
    rewrite list_lookup_insert_eq by done. split; [done|]. split; [|done].
    apply lookup_ge_None. lia.
Qed.

Lemma reduceVariable_substitutes_witness :
  (∃ r', reduceVariable (mkVariable (mkVarDecl 1)) ex_reducer = OK r' ∧
         resultAttr r' = OK (mkAttr (Ref 7)) ∧
         Builder r' = Builder ex_reducer)
  ∧ (∃ r', reduceVariable (mkVariable (mkVarDecl 0)) ex_reducer = OK r' ∧
           resultAttr r' = OK (mkAttr (Ref 1)) ∧
           Arena (Builder r') !! 1 = Some (NVariable (mkVarDecl 0))).
Proof.
  split.
  - destruct (reduceVariable_substitutes (mkVariable (mkVarDecl 1)) ex_reducer
                ex_scope nullAttr eq_refl eq_refl) as [Hsubst _].
    destruct (Hsubst (mkAttr (Ref 7)) eq_refl) as (r' & Hr & Hres & Hb & _).
    exists r'. auto.
  - destruct (reduceVariable_substitutes (mkVariable (mkVarDecl 0)) ex_reducer
                ex_scope nullAttr eq_refl eq_refl) as [_ Hcopy].
    destruct (Hcopy eq_refl) as (r' & Hr & Hres & _ & Ha).
    exists r'. split; [exact Hr|]. split; [exact Hres|].
    rewrite Ha. reflexivity.
Defined.

(** *** reduceCall and reduceCode *)

Lemma alloc_lookup (n : Node) (arena : list Node) :
  (arena ++ [n]) !! length arena = Some n.
Proof. by rewrite list_lookup_middle. Qed.

Lemma reduceCall_default_convention (Orig : Call) (r : CopyReducer)
    (a0 res : CopyAttr) :
  attr 0 r = OK a0 →
  resultAttr r = OK res →
  ∃ r', reduceCall Orig r = OK r' ∧
        resultAttr r' = OK (mkAttr (Ref (length (Arena (Builder r))))) ∧
        Arena (Builder r') = Arena (Builder r) ++ [NCall (Exp a0) CCV_Default].
Proof.
  intros Ha Hres. unfold reduceCall. rewrite Ha. simpl.
  unfold Node_callingConvention, Node_setCallingConvention. simpl.
  rewrite alloc_lookup. simpl.
  unfold setResultAttr, resultAttr in *. simpl.
  destruct (AttrFrame r) as [|n] eqn:Hf; [done|].
  destruct (Attrs r !! n) as [a1|] eqn:Hn; [|done].
  apply lookup_lt_Some in Hn as Hlt. rewrite decide_True by done.
  eexists. split; [done|]. simpl. rewrite Hf.
  rewrite list_lookup_insert_eq by done. split; [done|].
  apply list_insert_id, alloc_lookup.
Qed.

Lemma reduceCode_keeps_convention (Orig : Code) (r : CopyReducer)
    (a0 a1 res : CopyAttr) :
  attr 0 r = OK a0 →
  attr 1 r = OK a1 →
  resultAttr r = OK res →
  ∃ r', reduceCode Orig r = OK r' ∧
        resultAttr r' = OK (mkAttr (Ref (length (Arena (Builder r))))) ∧
        Arena (Builder r') =
          Arena (Builder r) ++ [NCode (Exp a0) (Exp a1) (codeCallingConvention Orig)].
Proof.
  intros Ha0 Ha1 Hres. unfold reduceCode. rewrite Ha0, Ha1. simpl.
  unfold Node_setCallingConvention. simpl. rewrite alloc_lookup. simpl.
  unfold setResultAttr, resultAttr in *. simpl.
  destruct (AttrFrame r) as [|n] eqn:Hf; [done|].
  destruct (Attrs r !! n) as [a2|] eqn:Hn; [|done].
  apply lookup_lt_Some in Hn as Hlt. rewrite decide_True by done.
  eexists. split; [done|]. simpl. rewrite Hf.
  rewrite list_lookup_insert_eq by done. split; [done|].
  replace (length (Arena (Builder r))) with (length (Arena (Builder r)) + 0) by lia.
  by rewrite insert_app_r.
Qed.

(** C4.  On a Call whose calling convention is not the default one,
    [reduceCall] produces one new Call node, and that node has the
    default calling convention, not the one of the original: the rule
    copies the convention of the new node onto itself.  ([reduceCode]
    reads the convention of the original, see
    [reduceCode_keeps_convention].) *)
Theorem reduceCall_drops_calling_convention :
  ∃ r',
    reduceCall (mkCall (CCV_Other 1)) ex_reducer = OK r' ∧
    resultAttr r' = OK (mkAttr (Ref 1)) ∧
    Node_callingConvention 1 (Arena (Builder r')) = OK CCV_Default ∧
    CCV_Default ≠ callingConvention (mkCall (CCV_Other 1)).
Proof.
  destruct (reduceCall_default_convention (mkCall (CCV_Other 1)) ex_reducer
              (mkAttr (Ref 9)) nullAttr eq_refl eq_refl) as (r' & Hr & Hres & Ha).
  exists r'. split; [done|]. split; [done|]. split; [|done].
  unfold Node_callingConvention. by rewrite Ha.
Qed.

(** *** lookupBlock *)

(** C10.  With a null original block, [lookupBlock] returns null and
    leaves the reducer as it is: no block is allocated and no mapping is
    registered. *)
Theorem lookupBlock_null (r : CopyReducer) :
  lookupBlock None r = OK (None, r).
Proof. reflexivity. Qed.

Lemma lookupBlock_mapped Orig r sc B :
  scope r = OK sc →
  BlockMap sc !! blockID Orig = Some (Some B) →
  lookupBlock (Some Orig) r = OK (Some B, r).
Proof.
  intros Hsc HB. unfold lookupBlock, CopyScope_lookupBlock.
  rewrite Hsc. simpl. by rewrite HB.
Qed.

Lemma lookupBlock_create Orig r sc :
  scope r = OK sc →
  BlockMap sc !! blockID Orig = Some None →
  ∃ r',
    let B := length (Arena (Builder r)) in
    let nb := mkNewBlock (seq (S B) (length (arguments Orig))) []
                         (numPredecessors Orig) None in
    let sc' := CopyScope_mapArguments (arguments Orig) (Args nb)
                 (set_BlockMap (λ m, <[blockID Orig := Some B]> m) sc) in
    lookupBlock (Some Orig) r = OK (Some B, r') ∧
    Builder r' = snd (Builder_newBlock (length (arguments Orig))
                        (numPredecessors Orig) (Builder r)) ∧
    scope r' = OK sc' ∧ ScopePtr r' = ScopePtr r ∧
    Attrs r' = Attrs r ∧ AttrFrame r' = AttrFrame r.
Proof.
  intros Hsc HB. unfold lookupBlock, CopyScope_lookupBlock.
  rewrite Hsc. simpl. rewrite HB. simpl.
  apply lookup_lt_Some in HB as Hlt.
  erewrite insertBlockMap_OK; [|done| |];
    [| rewrite lookup_app_r by done; by rewrite Nat.sub_diag
     | simpl; by rewrite length_seq ].
  simpl.
  match goal with |- context [putScope ?s ?x] =>
    destruct (putScope_OK s sc x) as [r' Hr']; [done|] end.
  exists r'. rewrite Hr'. simpl.
  apply scope_putScope in Hr' as (? & ? & ? & ? & ?). done.
Qed.

(** An existing mapping survives every later lookup. *)
Lemma lookupBlock_preserves Ob r x r' sc i B :
  lookupBlock Ob r = OK (x, r') →
  scope r = OK sc →
  BlockMap sc !! i = Some (Some B) →
  ∃ sc', scope r' = OK sc' ∧ BlockMap sc' !! i = Some (Some B).
Proof.
  intros Hl Hsc Hi. destruct Ob as [Orig|]; simpl in Hl.
  2:{ injection Hl as <- <-. eauto. }
  rewrite Hsc in Hl. simpl in Hl. unfold CopyScope_lookupBlock in Hl.
  destruct (BlockMap sc !! blockID Orig) as [[b|]|] eqn:Hb; simpl in Hl.
  - injection Hl as <- <-. eauto.
  - destruct (lookupBlock_create Orig r sc Hsc Hb) as (r1 & H1 & _ & Hs1 & _).
    unfold lookupBlock, CopyScope_lookupBlock in H1. rewrite Hsc in H1.
    simpl in H1. rewrite Hb in H1. simpl in H1. rewrite H1 in Hl.
    injection Hl as <- <-. eexists; split; [done|].
    rewrite mapArguments_BlockMap. simpl.
    rewrite list_lookup_insert_ne; [done|]. intros <-. congruence.
  - done.
Qed.

Lemma lookupBlocks_preserves Os r r' sc i B :
  lookupBlocks Os r = OK r' →
  scope r = OK sc →
  BlockMap sc !! i = Some (Some B) →
  ∃ sc', scope r' = OK sc' ∧ BlockMap sc' !! i = Some (Some B).
Proof.
  revert r sc. induction Os as [|Ob Os IH]; intros r sc; simpl.
  - intros [= <-]. eauto.
  - intros H Hsc Hi. apply bind_OK in H as ([x r1] & H1 & H2).
    destruct (lookupBlock_preserves _ _ _ _ _ _ _ H1 Hsc Hi) as (sc1 & ? & ?).
    eauto.
Qed.

(** C3.  For a non-null original block: when the scope maps it,
    [lookupBlock] returns the mapping and changes nothing; otherwise it
    allocates a new block with as many phi nodes as the original has
    arguments and room for as many predecessors as the original has,
    registers the mapping in the scope, and returns the block; after any
    sequence of later lookups, a lookup of the same original returns
    that same block, and [enterBlock] opens it. *)
Theorem lookupBlock_lookup_or_create (Orig : BasicBlock) (r : CopyReducer)
    (sc : CopyScope) :
  scope r = OK sc →
  (∀ B, BlockMap sc !! blockID Orig = Some (Some B) →
        lookupBlock (Some Orig) r = OK (Some B, r))
  ∧ (BlockMap sc !! blockID Orig = Some None →
     ∃ r' sc' nb,
       let B := length (Arena (Builder r)) in
       lookupBlock (Some Orig) r = OK (Some B, r') ∧
       Arena (Builder r) !! B = None ∧
       Arena (Builder r') !! B = Some (NBasicBlock nb) ∧
       length (Args nb) = length (arguments Orig) ∧
       PredCapacity nb = numPredecessors Orig ∧
       scope r' = OK sc' ∧
       BlockMap sc' !! blockID Orig = Some (Some B) ∧
       ∀ Os r'', lookupBlocks Os r' = OK r'' →
                 lookupBlock (Some Orig) r'' = OK (Some B, r'') ∧
                 ∃ r3, enterBlock Orig r'' = OK r3 ∧
                       Builder_currentBB (Builder r3) = Some B).
Proof.
  intros Hsc. split; [intros B; by apply lookupBlock_mapped|].
  intros Hb.
  destruct (lookupBlock_create Orig r sc Hsc Hb) as (r' & H1 & Hbld & Hs1 & _).
  simpl in *. eexists r', _, _. split; [done|].
  split; [apply lookup_ge_None; lia|].
  assert (Hmap : BlockMap
    (CopyScope_mapArguments (arguments Orig)
       (seq (S (length (Arena (Builder r)))) (length (arguments Orig)))
       (set_BlockMap (λ m, <[blockID Orig:=Some (length (Arena (Builder r)))]> m) sc))
    !! blockID Orig = Some (Some (length (Arena (Builder r))))).
  { rewrite mapArguments_BlockMap. simpl. apply list_lookup_insert_eq.
    by eapply lookup_lt_Some. }
  split.
  { rewrite Hbld. simpl. rewrite lookup_app_r by done.
    by rewrite Nat.sub_diag. }
  simpl. rewrite length_seq. do 2 (split; [done|]). split; [done|].
  split; [done|].
  intros Os r'' HOs.
  destruct (lookupBlocks_preserves _ _ _ _ _ _ HOs Hs1 Hmap) as (sc2 & ? & ?).
  assert (Hlater : lookupBlock (Some Orig) r''
                   = OK (Some (length (Arena (Builder r))), r''))
    by (by eapply lookupBlock_mapped).
  split; [done|]. unfold enterBlock. rewrite Hlater. simpl. eauto.
Qed.

Lemma lookupBlock_lookup_or_create_witness :
  lookupBlock (Some (mkBasicBlock 0 [] 0)) ex_reducer = OK (Some 0, ex_reducer)
  ∧ ∃ r' nb,
      lookupBlock (Some ex_block1) ex_reducer = OK (Some 1, r') ∧
      Arena (Builder r') !! 1 = Some (NBasicBlock nb) ∧
      length (Args nb) = 1 ∧ PredCapacity nb = 2 ∧
      lookupBlock (Some ex_block1) r' = OK (Some 1, r').
Proof.
  split.
  - destruct (lookupBlock_lookup_or_create (mkBasicBlock 0 [] 0) ex_reducer
                ex_scope eq_refl) as [Hmapped _].
    exact (Hmapped 0 eq_refl).
  - destruct (lookupBlock_lookup_or_create ex_block1 ex_reducer ex_scope
                eq_refl) as [_ Hcreate].
    destruct (Hcreate eq_refl)
      as (r' & sc' & nb & Hr & _ & Hnb & Hargs & Hcap & _ & _ & Hlater).
    exists r', nb. repeat split; try assumption.
    exact (proj1 (Hlater [] r' eq_refl)).
Defined.

(** *** enterCFG *)

(** C5, amended.  For an original graph whose entry and exit blocks
    have different ids, both below its number of blocks, and whose
    numbered arguments of these two blocks have pairwise different
    instruction ids, and for a new graph whose entry and exit blocks
    have as many arguments as those of the original,
    [CopyScope::enterCFG] sizes the block map to the number of blocks of
    the original, maps the original entry to the new entry and the
    original exit to the new exit, and maps every argument of those two
    blocks that is non-null and numbered (instruction id above 0) to the
    corresponding argument of the new block; afterwards [lookupBlock]
    finds entry and exit without creating a block. *)
Theorem enterCFG_registers_entry_exit (arena : list Node) (Orig : SCFG)
    (G Sentry Sexit : nat) (eb xb : NewBlock) (sc : CopyScope) :
  arena !! G = Some (NSCFG Sentry Sexit) →
  arena !! Sentry = Some (NBasicBlock eb) →
  arena !! Sexit = Some (NBasicBlock xb) →
  length (arguments (entry Orig)) = length (Args eb) →
  length (arguments (exit Orig)) = length (Args xb) →
  blockID (entry Orig) < numBlocks Orig →
  blockID (exit Orig) < numBlocks Orig →
  blockID (entry Orig) ≠ blockID (exit Orig) →
  NoDup (numberedArgs (arguments (entry Orig))
         ++ numberedArgs (arguments (exit Orig))) →
  ∃ sc',
    CopyScope_enterCFG arena Orig G sc = OK sc' ∧
    length (BlockMap sc') = numBlocks Orig ∧
    BlockMap sc' !! blockID (entry Orig) = Some (Some Sentry) ∧
    BlockMap sc' !! blockID (exit Orig) = Some (Some Sexit) ∧
    (∀ i ph a, arguments (entry Orig) !! i = Some (Some ph) →
               0 < instrID ph → Args eb !! i = Some a →
               InstructionMap sc' !! instrID ph = Some (mkAttr (Ref a))) ∧
    (∀ i ph a, arguments (exit Orig) !! i = Some (Some ph) →
               0 < instrID ph → Args xb !! i = Some a →
               InstructionMap sc' !! instrID ph = Some (mkAttr (Ref a))) ∧
    (∀ r, scope r = OK sc' →
          lookupBlock (Some (entry Orig)) r = OK (Some Sentry, r) ∧
          lookupBlock (Some (exit Orig)) r = OK (Some Sexit, r)).
Proof.
  intros HG He Hx Hle Hlx Hie Hix Hne Hnd.
  apply NoDup_app in Hnd as (Hnde & Hdisj & Hndx).
  unfold CopyScope_enterCFG. rewrite HG.
  set (sc1 := set_BlockMap _ _).
  assert (Hl1 : length (BlockMap sc1) = numBlocks Orig)
    by apply length_resize_vec.
  rewrite (insertBlockMap_OK _ _ _ _ eb) by (done || by rewrite Hl1). simpl.
  set (sc2 := CopyScope_mapArguments _ _ _).
  assert (Hb2 : BlockMap sc2 = <[blockID (entry Orig) := Some Sentry]> (BlockMap sc1)).
  { unfold sc2. by rewrite mapArguments_BlockMap. }
  assert (Hl2 : length (BlockMap sc2) = numBlocks Orig).
  { by rewrite Hb2, length_insert. }
  rewrite (insertBlockMap_OK _ _ _ _ xb) by (done || by rewrite Hl2).
  set (sc3 := CopyScope_mapArguments _ _ _).
  assert (Hb3 : BlockMap sc3 = <[blockID (exit Orig) := Some Sexit]> (BlockMap sc2)).
  { unfold sc3. by rewrite mapArguments_BlockMap. }
  assert (Hent : BlockMap sc3 !! blockID (entry Orig) = Some (Some Sentry)).
  { rewrite Hb3, list_lookup_insert_ne by done.
    rewrite Hb2. apply list_lookup_insert_eq. by rewrite Hl1. }
  assert (Hext : BlockMap sc3 !! blockID (exit Orig) = Some (Some Sexit)).
  { rewrite Hb3. apply list_lookup_insert_eq. by rewrite Hl2. }
  exists sc3. split; [done|]. split.
  { by rewrite Hb3, length_insert. }
  do 2 (split; [done|]). split; [|split].
  - intros i ph a Hi Hpos Ha. unfold sc3.
    rewrite mapArguments_other.
    + simpl. by eapply mapArguments_lookup.
    + intros Hin. eapply Hdisj; [|exact Hin].
      unfold numberedArgs. apply list_elem_of_omap.
      exists (Some ph). split; [by eapply list_elem_of_lookup_2|].
      simpl. apply Nat.ltb_lt in Hpos. by rewrite Hpos.
  - intros i ph a Hi Hpos Ha. unfold sc3. by eapply mapArguments_lookup.
  - intros r Hr. split; by eapply lookupBlock_mapped.
Qed.

Lemma enterCFG_registers_entry_exit_witness :
  ∃ sc',
    CopyScope_enterCFG cfg_arena cfg_numbered 3 emptyScope = OK sc' ∧
    BlockMap sc' = [Some 0; Some 2] ∧
    InstructionMap sc' !! 3 = Some (mkAttr (Ref 1)).
Proof.
  assert (Hnd : NoDup (numberedArgs (arguments (entry cfg_numbered))
                       ++ numberedArgs (arguments (exit cfg_numbered)))).
  { apply NoDup_singleton. }
  assert (Hentry_id : blockID (entry cfg_numbered) < numBlocks cfg_numbered)
    by (simpl; lia).
  assert (Hexit_id : blockID (exit cfg_numbered) < numBlocks cfg_numbered)
    by (simpl; lia).
  assert (Hids : blockID (entry cfg_numbered) ≠ blockID (exit cfg_numbered))
    by (simpl; lia).
  destruct (enterCFG_registers_entry_exit cfg_arena cfg_numbered 3 0 2
              (mkNewBlock [1] [] 0 None) (mkNewBlock [] [] 0 None) emptyScope
              eq_refl eq_refl eq_refl eq_refl eq_refl Hentry_id Hexit_id Hids
              Hnd)
    as (sc' & Hr & _ & Hmape & Hmapx & Hentry & _).
  exists sc'. split; [exact Hr|]. split.
  - vm_compute in Hr. injection Hr as <-. reflexivity.
  - apply (Hentry 0 (mkPhi 3) 1); [reflexivity|simpl; lia|reflexivity].
Defined.

(** C5, as stated, fails: an argument of the entry block whose
    instruction id is still 0 is not mapped by [enterCFG]. *)
Lemma enterCFG_unnumbered_phi_unmapped :
  ∃ sc',
    CopyScope_enterCFG cfg_arena cfg_unnumbered 3 emptyScope = OK sc' ∧
    arguments (entry cfg_unnumbered) !! 0 = Some (Some (mkPhi 0)) ∧
    InstructionMap sc' !! instrID (mkPhi 0) ≠ Some (mkAttr (Ref 1)).
Proof.
  eexists. split; [reflexivity|]. split; [reflexivity|]. simpl.
  rewrite lookup_empty. discriminate.
Qed.

(** *** exitBlock *)

(** C9, amended.  When the terminator has closed the block, [exitBlock]
    changes nothing.  When a block is still open, [exitBlock] raises no
    error: it closes the block with a null terminator, after which no
    block is current, and it changes nothing else. *)
Theorem exitBlock_closes_open_block (B : BasicBlock) (r : CopyReducer) :
  (Builder_currentBB (Builder r) = None → exitBlock B r = OK r)
  ∧ (∀ cb nb,
       Builder_currentBB (Builder r) = Some cb →
       Arena (Builder r) !! cb = Some (NBasicBlock nb) →
       ∃ r', exitBlock B r = OK r' ∧
             Builder_currentBB (Builder r') = None ∧
             Arena (Builder r') =
               <[cb := NBasicBlock (mkNewBlock (Args nb) (Predecessors nb)
                                               (PredCapacity nb) None)]>
                 (Arena (Builder r)) ∧
             EmitInstrs (CurrentState (Builder r'))
               = EmitInstrs (CurrentState (Builder r)) ∧
             CurrentCFG (Builder r') = CurrentCFG (Builder r) ∧
             ScopePtr r' = ScopePtr r ∧ Scopes r' = Scopes r ∧
             Attrs r' = Attrs r ∧ AttrFrame r' = AttrFrame r).
Proof.
  unfold exitBlock. split.
  - by intros ->.
  - intros cb nb Hcur Hcb. rewrite Hcur. unfold Builder_endBlock.
    rewrite Hcur, Hcb. simpl. eexists. split; [done|]. done.
Qed.

Lemma exitBlock_closes_open_block_witness :
  ∃ r', exitBlock ex_block1 ex_reducer = OK r' ∧
        Builder_currentBB (Builder r') = None ∧
        Arena (Builder r') = [NBasicBlock (mkNewBlock [] [] 0 None)].
Proof.
  destruct (exitBlock_closes_open_block ex_block1 ex_reducer) as [_ Hopen].
  destruct (Hopen 0 (mkNewBlock [] [] 0 None) eq_refl eq_refl)
    as (r' & Hr & Hcur & Ha & _).
  exists r'. split; [exact Hr|]. split; [exact Hcur|]. rewrite Ha. reflexivity.
Defined.

(** C9, as stated, fails: on a reducer whose block is still open,
    [exitBlock] returns normally and changes the state. *)
Lemma exitBlock_open_block_no_error :
  Builder_currentBB (Builder ex_reducer) = Some 0 ∧
  ¬ is_fatal (exitBlock ex_block1 ex_reducer) ∧
  exitBlock ex_block1 ex_reducer ≠ OK ex_reducer.
Proof.
  split; [reflexivity|]. split.
  - vm_compute. tauto.
  - vm_compute. discriminate.
Qed.

(** *** reduceGoto *)

Lemma phis_at_ext arena arena' Phs n :
  (∀ Ph, Ph ∈ Phs → arena' !! Ph = arena !! Ph) →
  phis_at arena Phs n → phis_at arena' Phs n.
Proof.
  unfold phis_at. rewrite !Forall_forall. intros Heq H Ph HPh.
  rewrite Heq by done. by apply H.
Qed.

Lemma phis_at_lookup arena Phs n Ph :
  phis_at arena Phs n → Ph ∈ Phs →
  ∃ vs, arena !! Ph = Some (NPhi vs) ∧ length vs = n.
Proof. unfold phis_at. rewrite Forall_forall. auto. Qed.

Lemma Phi_addSlots_spec Phs arena n :
  NoDup Phs → phis_at arena Phs n →
  ∃ arena',
    Phi_addSlots Phs arena = OK arena' ∧
    length arena' = length arena ∧
    (∀ p, p ∉ Phs → arena' !! p = arena !! p) ∧
    (∀ Ph vs, Ph ∈ Phs → arena !! Ph = Some (NPhi vs) →
              arena' !! Ph = Some (NPhi (vs ++ [nullptr]))).
Proof.
  revert arena. induction Phs as [|Ph Phs IH]; intros arena Hnd Hphis.
  { exists arena. repeat split; try done. intros ? ? H. by apply elem_of_nil in H. }
  apply NoDup_cons in Hnd as [Hnotin Hnd].
  apply Forall_cons in Hphis as [(vs & Hvs & Hlen) Hphis].
  simpl. unfold Phi_addSlot. rewrite Hvs. simpl.
  set (arena1 := <[Ph := NPhi (vs ++ [nullptr])]> arena).
  destruct (IH arena1 Hnd) as (arena' & Hrun & Hl & Hother & Hin).
  { eapply phis_at_ext; [|done]. intros p Hp. unfold arena1.
    apply list_lookup_insert_ne. by intros ->. }
  exists arena'. split; [done|]. split.
  { rewrite Hl. apply length_insert. }
  split.
  - intros p Hp. apply not_elem_of_cons in Hp as [Hne Hp].
    rewrite Hother by done. by apply list_lookup_insert_ne.
  - intros p vs' Hp Hvs'. apply elem_of_cons in Hp as [->|Hp].
    + rewrite Hother by done. unfold arena1.
      rewrite list_lookup_insert_eq by (by eapply lookup_lt_Some).
      congruence.
    + apply Hin; [done|]. unfold arena1.
      rewrite list_lookup_insert_ne; [done|]. by intros ->.
Qed.

Lemma attr_in_frame r i :
  i < numAttrs r → ∃ a, attr i r = OK a.
Proof.
  unfold numAttrs, attr. intros Hi.
  destruct (lookup_lt_is_Some_2 (Attrs r) (AttrFrame r + i)) as [a Ha]; [lia|].
  rewrite Ha. eauto.
Qed.

Lemma reduceGoto_loop_spec Phs i Idx r :
  NoDup Phs →
  Forall (λ Ph, ∃ vs, Arena (Builder r) !! Ph = Some (NPhi vs)
                      ∧ Idx < length vs) Phs →
  i + length Phs ≤ numAttrs r →
  ∃ arena',
    reduceGoto_loop Phs i Idx r = OK (with_arena arena' r) ∧
    length arena' = length (Arena (Builder r)) ∧
    (∀ p, p ∉ Phs → arena' !! p = Arena (Builder r) !! p) ∧
    (∀ j Ph vs a, Phs !! j = Some Ph →
                  Arena (Builder r) !! Ph = Some (NPhi vs) →
                  attr (i + j) r = OK a →
                  arena' !! Ph = Some (NPhi (<[Idx := Exp a]> vs))).
Proof.
  revert i r. induction Phs as [|Ph Phs IH]; intros i r Hnd Hphis Hattrs.
  { exists (Arena (Builder r)). split.
    { simpl. by destruct r as [? ? ? ? []]. }
    repeat split; try done. }
  apply NoDup_cons in Hnd as [Hnotin Hnd].
  apply Forall_cons in Hphis as [(vs & Hvs & Hlen) Hphis].
  simpl in Hattrs.
  destruct (attr_in_frame r i) as [a Ha]; [lia|].
  simpl. rewrite Ha. simpl. unfold Builder_setPhiArgument. rewrite Hvs.
  rewrite decide_True by done. simpl.
  set (r1 := set_Builder _ r).
  destruct (IH (S i) r1 Hnd) as (arena' & Hrun & Hl & Hother & Hin).
  { rewrite Forall_forall in Hphis. apply Forall_forall.
    intros p Hpin. destruct (Hphis p Hpin) as (vs' & Hp & Hlt).
    exists vs'. split; [|done]. simpl.
    rewrite list_lookup_insert_ne; [done|]. by intros ->. }
  { unfold numAttrs in *. simpl. lia. }
  exists arena'. split; [by rewrite Hrun|]. split.
  { rewrite Hl. simpl. apply length_insert. }
  split.
  - intros p Hp. apply not_elem_of_cons in Hp as [Hne Hp].
    rewrite Hother by done. simpl. by apply list_lookup_insert_ne.
  - intros j p vs' a' Hj Hp Ha'. destruct j as [|j]; simpl in Hj.
    + injection Hj as <-. rewrite Hother by done. simpl.
      rewrite list_lookup_insert_eq by (by eapply lookup_lt_Some).
      rewrite Nat.add_0_r in Ha'. congruence.
    + apply (Hin j); [done| |].
      * simpl. rewrite list_lookup_insert_ne; [done|].
        intros ->. apply Hnotin. by eapply list_elem_of_lookup_2.
      * rewrite <- Ha'. unfold attr. simpl.
        by replace (AttrFrame r + S (i + j)) with (AttrFrame r + (i + S j)) by lia.
Qed.

Lemma lookupBlock_frame Ob r x r1 :
  lookupBlock Ob r = OK (x, r1) →
  Attrs r1 = Attrs r ∧ AttrFrame r1 = AttrFrame r ∧ ScopePtr r1 = ScopePtr r ∧
  CurrentState (Builder r1) = CurrentState (Builder r) ∧
  CurrentCFG (Builder r1) = CurrentCFG (Builder r) ∧
  ∃ new, Arena (Builder r1) = Arena (Builder r) ++ new.
Proof.
  destruct Ob as [Orig|]; simpl.
  2:{ intros [= <- <-]. repeat split; try done. exists []. by rewrite app_nil_r. }
  destruct (scope r) as [sc|] eqn:Hsc; [|done]. simpl.
  unfold CopyScope_lookupBlock.
  destruct (BlockMap sc !! blockID Orig) as [[b|]|] eqn:Hb; simpl; [| |done].
  { intros [= <- <-]. repeat split; try done. exists []. by rewrite app_nil_r. }
  intros H.
  destruct (lookupBlock_create Orig r sc Hsc Hb) as (r' & H1 & Hbld & _ & ? & ? & ?).
  unfold lookupBlock, CopyScope_lookupBlock in H1. rewrite Hsc in H1.
  simpl in H1. rewrite Hb in H1. simpl in H1. rewrite H1 in H.
  injection H as <- <-. rewrite Hbld. simpl. repeat split; try done. eauto.
Qed.

(** A block created on demand is well formed. *)
Lemma newBlock_wf Nargs Npreds b :
  let '(B, b') := Builder_newBlock Nargs Npreds b in
  ∃ nb, Arena b' !! B = Some (NBasicBlock nb) ∧ wf_block (Arena b') nb.
Proof.
  simpl. eexists. split.
  { rewrite lookup_app_r by done. by rewrite Nat.sub_diag. }
  split; simpl; [apply NoDup_seq|].
  apply Forall_forall. intros Ph HPh. apply elem_of_seq in HPh.
  exists []. split; [|done].
  rewrite lookup_app_r by lia.
  replace (Ph - length (Arena b)) with (S (Ph - S (length (Arena b)))) by lia.
  simpl. apply lookup_replicate_2. lia.
Qed.

(** C2.  Let [reduceGoto] resolve the target of a Goto to the block [B]
    (creating it on demand), in a reducer that is building a block.
    When the number of attributes equals the number of phi nodes of
    [B], [reduceGoto] appends the current block to the predecessors of
    [B], which gives the edge the next index [Idx]; the i-th phi node of
    [B] receives the i-th attribute in slot [Idx], for every i; the
    current block is closed with the new Goto as terminator; and the
    result attribute is the new Goto.  When the numbers differ,
    [reduceGoto] stops with a contract violation. *)
Theorem reduceGoto_wires_phis (Orig : Goto) (r r1 : CopyReducer)
    (B cb : nat) (nb cbk : NewBlock) (res : CopyAttr) :
  lookupBlock (targetBlock Orig) r = OK (Some B, r1) →
  Arena (Builder r1) !! B = Some (NBasicBlock nb) →
  wf_block (Arena (Builder r1)) nb →
  Builder_currentBB (Builder r) = Some cb →
  Arena (Builder r1) !! cb = Some (NBasicBlock cbk) →
  resultAttr r = OK res →
  (numAttrs r = length (Args nb) →
   ∃ r',
     let Idx := length (Predecessors nb) in
     let Res := length (Arena (Builder r1)) in
     reduceGoto Orig r = OK r' ∧
     (∃ nb', Arena (Builder r') !! B = Some (NBasicBlock nb') ∧
             Args nb' = Args nb ∧
             Predecessors nb' = Predecessors nb ++ [Some cb]) ∧
     (∀ i Ph, Args nb !! i = Some Ph →
        ∃ a vs, attr i r = OK a ∧
                Arena (Builder r') !! Ph = Some (NPhi vs) ∧
                vs !! Idx = Some (Exp a) ∧ length vs = S Idx) ∧
     Arena (Builder r1) !! Res = None ∧
     Arena (Builder r') !! Res = Some (NGoto B Idx) ∧
     Builder_currentBB (Builder r') = None ∧
     (∃ cbk', Arena (Builder r') !! cb = Some (NBasicBlock cbk') ∧
              Terminator cbk' = Some Res) ∧
     resultAttr r' = OK (mkAttr (Ref Res)))
  ∧ (numAttrs r ≠ length (Args nb) →
     reduceGoto Orig r = Fatal ContractViolation).
Proof.
  intros Hlook HB [Hnd Hphis] Hcur Hcb Hres.
  destruct (lookupBlock_frame _ _ _ _ Hlook)
    as (HAttrs & HFrame & _ & HState & _ & _).
  assert (Hcur1 : Builder_currentBB (Builder r1) = Some cb).
  { unfold Builder_currentBB in *. by rewrite HState. }
  assert (HnumA : numAttrs r1 = numAttrs r).
  { unfold numAttrs. by rewrite HAttrs, HFrame. }
  set (arena1 := Arena (Builder r1)) in *.
  set (Idx := length (Predecessors nb)).
  set (nb' := mkNewBlock (Args nb) (Predecessors nb ++ [Some cb])
                         (PredCapacity nb) (Terminator nb)).
  assert (HBnot : B ∉ Args nb).
  { intros Hin. destruct (phis_at_lookup _ _ _ _ Hphis Hin) as (? & ? & _).
    congruence. }
  assert (Hcbnot : cb ∉ Args nb).
  { intros Hin. destruct (phis_at_lookup _ _ _ _ Hphis Hin) as (? & ? & _).
    congruence. }
  destruct (Phi_addSlots_spec (Args nb) (<[B := NBasicBlock nb']> arena1) Idx Hnd)
    as (arena2 & Hslots & Hl2 & Hother2 & Hin2).
  { eapply phis_at_ext; [|done]. intros Ph HPh.
    apply list_lookup_insert_ne. by intros ->. }
  rewrite length_insert in Hl2.
  assert (HB2 : arena2 !! B = Some (NBasicBlock nb')).
  { rewrite Hother2 by done. apply list_lookup_insert_eq.
    by eapply lookup_lt_Some. }
  set (Res := length arena1).
  set (arena3 := arena2 ++ [NGoto B Idx]).
  assert (Hprefix : reduceGoto Orig r =
    (let r3 := with_arena arena3 r1 in
     _ ← assert (bool_decide (length (Args nb) = numAttrs r3));
     r4 ← reduceGoto_loop (Args nb) 0 Idx r3;
     bld5 ← Builder_endBlock (Some Res) (Builder r4);
     setResultAttr (mkAttr (Ref Res)) (set_Builder bld5 r4))).
  { unfold reduceGoto. rewrite Hlook. simpl.
    unfold BasicBlock_addPredecessor. fold arena1. rewrite HB, Hcur1.
    fold nb' Idx. rewrite Hslots. simpl. rewrite Hl2. fold Res arena3.
    unfold Block_arguments. simpl.
    assert (arena3 !! B = Some (NBasicBlock nb')) as ->.
    { unfold arena3. rewrite lookup_app_l; [done|]. by eapply lookup_lt_Some. }
    done. }
  rewrite Hprefix. clear Hprefix. simpl.
  assert (Hnum3 : numAttrs (with_arena arena3 r1) = numAttrs r) by done.
  rewrite Hnum3. split; intros Hnum.
  2:{ rewrite bool_decide_eq_false_2 by done. done. }
  rewrite bool_decide_eq_true_2 by done. simpl.
  destruct (reduceGoto_loop_spec (Args nb) 0 Idx (with_arena arena3 r1) Hnd)
    as (arena4 & Hloop & Hl4 & Hother4 & Hin4).
  { apply Forall_forall. intros Ph HPh.
    destruct (phis_at_lookup _ _ _ _ Hphis HPh) as (vs & Hvs & Hlen).
    exists (vs ++ [nullptr]). split.
    - simpl. unfold arena3. rewrite lookup_app_l.
      + apply Hin2; [done|]. rewrite list_lookup_insert_ne; [done|].
        by intros ->.
      + rewrite Hl2. by eapply lookup_lt_Some.
    - rewrite length_app. simpl. lia. }
  { rewrite Hnum3. lia. }
  rewrite Hloop. simpl.
  simpl in Hl4, Hother4, Hin4.
  assert (Hl3 : length arena3 = S (length arena1)).
  { unfold arena3. rewrite length_app. simpl. lia. }
  assert (Hcblt : cb < length arena1) by (by eapply lookup_lt_Some).
  assert (HBlt : B < length arena1) by (by eapply lookup_lt_Some).
  assert (Hcb4 : ∃ cbk4, arena4 !! cb = Some (NBasicBlock cbk4) ∧
            (cb = B → cbk4 = nb') ∧ (cb ≠ B → cbk4 = cbk)).
  { rewrite Hother4 by done. unfold arena3.
    rewrite lookup_app_l by lia. rewrite Hother2 by done.
    destruct (decide (cb = B)) as [->|Hne].
    - exists nb'. rewrite list_lookup_insert_eq by done. done.
    - exists cbk. rewrite list_lookup_insert_ne by done. done. }
  destruct Hcb4 as (cbk4 & Hcb4 & HcbB & HcbnB).
  unfold Builder_endBlock. simpl. unfold Builder_currentBB in Hcur1.
  unfold Builder_currentBB. simpl. rewrite Hcur1, Hcb4. simpl.
  unfold setResultAttr. simpl. rewrite HFrame.
  unfold resultAttr in Hres.
  destruct (AttrFrame r) as [|k] eqn:Hk; [done|].
  destruct (Attrs r !! k) as [a0|] eqn:Hak; [|done].
  apply lookup_lt_Some in Hak as Hklt.
  rewrite HAttrs. rewrite decide_True by done.
  eexists. split; [done|]. simpl.
  set (cbk5 := mkNewBlock (Args cbk4) (Predecessors cbk4) (PredCapacity cbk4)
                          (Some (length arena1))).
  assert (Hphi5 : ∀ Ph, Ph ∈ Args nb →
            (<[cb := NBasicBlock cbk5]> arena4) !! Ph = arena4 !! Ph).
  { intros Ph HPh. apply list_lookup_insert_ne. by intros ->. }
  split; [|split; [|split; [|split; [|split; [|split]]]]].
  - destruct (decide (cb = B)) as [->|Hne].
    + exists cbk5. rewrite list_lookup_insert_eq by lia.
      unfold cbk5. rewrite (HcbB eq_refl). done.
    + exists nb'. rewrite list_lookup_insert_ne by done.
      rewrite Hother4 by done. unfold arena3.
      rewrite lookup_app_l by lia. done.
  - intros i Ph Hi.
    assert (HPh : Ph ∈ Args nb) by (by eapply list_elem_of_lookup_2).
    destruct (phis_at_lookup _ _ _ _ Hphis HPh) as (vs & Hvs & Hlen).
    destruct (attr_in_frame r i) as [a Ha].
    { rewrite Hnum. by eapply lookup_lt_Some. }
    exists a, (<[Idx := Exp a]> (vs ++ [nullptr])).
    split; [done|]. split; [|split].
    + rewrite Hphi5 by done. apply (Hin4 i); [done| |].
      * unfold arena3. rewrite lookup_app_l.
        -- apply Hin2; [done|]. rewrite list_lookup_insert_ne; [done|].
           by intros ->.
        -- rewrite Hl2. by eapply lookup_lt_Some.
      * rewrite <- Ha. unfold attr. simpl. by rewrite HAttrs, HFrame, Hk.
    + apply list_lookup_insert_eq. rewrite length_app. simpl. lia.
    + rewrite length_insert, length_app. simpl. lia.
  - apply lookup_ge_None. done.
  - rewrite list_lookup_insert_ne by lia.
    rewrite Hother4.
    + unfold arena3. rewrite lookup_app_r by lia.
      rewrite Hl2, Nat.sub_diag. done.
    + intros Hin. destruct (phis_at_lookup _ _ _ _ Hphis Hin) as (? & Hx & _).
      apply lookup_lt_Some in Hx. lia.
  - done.
  - exists cbk5. split; [|done]. apply list_lookup_insert_eq. lia.
  - unfold resultAttr. simpl. rewrite HFrame, HAttrs.
    rewrite list_lookup_insert_eq by done. done.
Qed.

Lemma reduceGoto_wires_phis_witness :
  ∃ r',
    reduceGoto ex_goto ex_reducer = OK r' ∧
    (∃ nb', Arena (Builder r') !! 1 = Some (NBasicBlock nb') ∧
            Predecessors nb' = [Some 0]) ∧
    (∃ vs, Arena (Builder r') !! 2 = Some (NPhi vs) ∧
           vs !! 0 = Some (Ref 9)) ∧
    Arena (Builder r') !! 3 = Some (NGoto 1 0) ∧
    resultAttr r' = OK (mkAttr (Ref 3)).
Proof.
  assert (Hwf : wf_block (Arena (Builder ex_reducer1))
                         (mkNewBlock [2] [] 2 None)).
  { split; [apply NoDup_singleton|].
    apply List.Forall_cons; [|apply List.Forall_nil].
    exists []. split; reflexivity. }
  destruct (reduceGoto_wires_phis ex_goto ex_reducer ex_reducer1 1 0
              (mkNewBlock [2] [] 2 None) (mkNewBlock [] [] 0 None) nullAttr
              eq_refl eq_refl Hwf eq_refl eq_refl eq_refl) as [Hwire _].
  destruct (Hwire eq_refl)
    as (r' & Hr & (nb' & HB & _ & Hpreds) & Hphis & _ & Hgoto & _ & _ & Hres).
  exists r'. split; [exact Hr|]. split; [|split; [|split]].
  - exists nb'. split; [exact HB|exact Hpreds].
  - destruct (Hphis 0 2 eq_refl) as (a & vs & Ha & Hvs & Hslot & _).
    exists vs. split; [exact Hvs|].
    injection Ha as <-. exact Hslot.
  - exact Hgoto.
  - exact Hres.
Defined.

(** *** Terms and futures *)

Lemma SExpr_size_pos E : 0 < SExpr_size E.
Proof. destruct E. simpl. lia. Qed.

Lemma SExpr_nested_ind (P : SExpr → Prop) :
  (∀ v ss,
     Forall (λ s, match s with Visit e _ => P e | Reduce _ => True end) ss →
     P (mkSExpr v ss)) →
  ∀ E, P E.
Proof.
  intros H. fix IH 1. intros [v ss]. apply H.
  induction ss as [|[e K|rule] ss IHss]; constructor; auto.
Qed.

Lemma extends_refl c : extends 0 c c.
Proof.
  exists []. simpl. rewrite !app_nil_r. repeat split; auto.
Qed.

Lemma extends_set_Reducer n c c' r :
  extends n c c' → extends n c (set_Reducer r c').
Proof. intros (new & ? & ? & ? & ?). by exists new. Qed.

Lemma extends_set_Reducer_l n c c' r :
  extends n (set_Reducer r c) c' → extends n c c'.
Proof. intros (new & ? & ? & ? & ?). by exists new. Qed.

Lemma extends_trans n1 n2 c1 c2 c3 :
  extends n1 c1 c2 → extends n2 c2 c3 → extends (n1 + n2) c1 c3.
Proof.
  intros (new1 & Hf1 & Hq1 & Hs1 & Hn1) (new2 & Hf2 & Hq2 & Hs2 & Hn2).
  exists (new1 ++ new2). split; [|split; [|split]].
  - by rewrite Hf2, Hf1, app_assoc.
  - rewrite Hq2, Hq1, Hf1, <- app_assoc. f_equal.
    rewrite !length_app, seq_app. done.
  - by apply Forall_app.
  - rewrite sum_list_with_app. lia.
Qed.

Lemma extends_weaken n m c c' : n ≤ m → extends n c c' → extends m c c'.
Proof. intros Hle (new & ? & ? & ? & ?). exists new. repeat split; auto. lia. Qed.

Lemma extends_lookup n c c' F fut :
  extends n c c' → Futures c !! F = Some fut → Futures c' !! F = Some fut.
Proof.
  intros (new & -> & _) HF. rewrite lookup_app_l; [done|].
  by eapply lookup_lt_Some.
Qed.

Lemma makeFuture_extends E c F c' :
  makeFuture E c = OK (F, c') → extends (SExpr_size E) c c'.
Proof.
  unfold makeFuture. destruct (scope (Reducer c)); [|done]. simpl.
  intros [= <- <-]. eexists [_]. simpl. repeat split; auto.
  unfold fut_size. simpl. lia.
Qed.

Lemma dispatch_extends n body c c' :
  (∀ c0 c1, body c0 = OK c1 → extends n c0 c1) →
  dispatch body c = OK c' → extends n c c'.
Proof.
  intros Hbody. unfold dispatch. simpl. intros H.
  apply bind_OK in H as (c3 & H3 & [= <-]).
  apply extends_set_Reducer. eapply extends_set_Reducer_l. eauto.
Qed.

Lemma runSteps_extends trav ss c c' :
  Forall (λ s, match s with
               | Visit e K => ∀ c0 c1, trav e K c0 = OK c1 →
                                       extends (SExpr_size e) c0 c1
               | Reduce _ => True
               end) ss →
  runSteps trav ss c = OK c' → extends (steps_size ss) c c'.
Proof.
  revert c. induction ss as [|s ss IH]; intros c Hss; simpl.
  { intros [= <-]. apply extends_refl. }
  apply Forall_cons in Hss as [Hs Hss]. destruct s as [e K|rule]; intros H.
  - apply bind_OK in H as (c1 & H1 & H2).
    change (steps_size (Visit e K :: ss)) with (SExpr_size e + steps_size ss).
    eapply extends_trans; eauto.
  - apply bind_OK in H as (r1 & H1 & H2).
    change (steps_size (Reduce rule :: ss)) with (0 + steps_size ss).
    eapply extends_trans; [|eauto].
    apply extends_set_Reducer, extends_refl.
Qed.

(** A traversal that is not deferred leaves futures for proper subterms
    only. *)
Lemma traverse_extends E K c c' :
  traverse E K c = OK c' →
  extends (SExpr_size E) c c' ∧
  (isLazyPosition K = false → extends (SExpr_size E - 1) c c').
Proof.
  revert K c c'. induction E as [v ss IH] using SExpr_nested_ind.
  intros K c c' H. simpl in H.
  assert (Hstrict : dispatch (runSteps traverse ss) c = OK c' →
                    extends (steps_size ss) c c').
  { apply dispatch_extends. intros c0 c1. apply runSteps_extends.
    eapply Forall_impl; [exact IH|]. intros [e K'|rule]; [|done].
    intros He c2 c3 Hc. by apply He in Hc as [? _]. }
  destruct (isLazyPosition K) eqn:HK; simpl in H.
  - split; [|done]. destruct v; simpl in H.
    + eapply extends_weaken; [|by apply Hstrict].
      unfold steps_size. simpl. lia.
    + apply bind_OK in H as ([F c2] & H2 & [= <-]).
      apply extends_set_Reducer. eapply extends_set_Reducer_l.
      eapply makeFuture_extends. exact H2.
  - assert (extends (steps_size ss) c c') as Hext by auto.
    split; [|intros _].
    + eapply extends_weaken; [|exact Hext]. unfold steps_size. simpl. lia.
    + eapply extends_weaken; [|exact Hext]. unfold steps_size. simpl. lia.
Qed.

(** *** traverse *)




(** *** evaluate *)

Lemma finish_spec F c c' :
  finish F c = OK c' →
  ∃ fut,
    Futures c !! F = Some fut ∧
    Futures c' = <[F := mkFuture None None (BState fut) (CreateCfg fut)
                                 (Status fut) (FResult fut)]> (Futures c) ∧
    FutureQueue c' = FutureQueue c ∧
    ScopePtr (Reducer c') = ScopePtr (Reducer c) ∧
    Builder (Reducer c') = Builder (Reducer c) ∧
    Attrs (Reducer c') = Attrs (Reducer c) ∧
    AttrFrame (Reducer c') = AttrFrame (Reducer c) ∧
    (∀ p, FScopePtr fut = Some p → Scopes (Reducer c') !! p = Some None).
Proof.
  unfold finish, getFuture. destruct (Futures c !! F) as [fut|]; [|done].
  simpl. intros H. exists fut. split; [done|].
  destruct (FScopePtr fut) as [p|].
  - destruct (Scopes (Reducer c) !! p) as [[sc|]|] eqn:Hp; try done.
    simpl in H. injection H as <-. simpl. repeat split; try done.
    intros ? [= <-]. apply list_lookup_insert_eq. by eapply lookup_lt_Some.
  - simpl in H. injection H as <-. simpl. repeat split; done.
Qed.

Lemma evaluate_spec F c Res c' :
  evaluate F c = OK (Res, c') →
  ∃ fut E c4,
    Futures c !! F = Some fut ∧
    PendingExpr fut = Some E ∧
    traverse E TRV_Tail (set_Reducer (evaluate_context fut (Reducer c)) c)
      = OK c4 ∧
    Futures c' = <[F := mkFuture None None (BState fut) (CreateCfg fut)
                                 (Status fut) (FResult fut)]> (Futures c4) ∧
    FutureQueue c' = FutureQueue c4 ∧
    ScopePtr (Reducer c') = ScopePtr (Reducer c) ∧
    CurrentState (Builder (Reducer c')) = CurrentState (Builder (Reducer c)) ∧
    (∀ p, FScopePtr fut = Some p → Scopes (Reducer c') !! p = Some None).
Proof.
  unfold evaluate, getFuture.
  destruct (Futures c !! F) as [fut|] eqn:HF; [|done]. simpl.
  intros H. exists fut. unfold evaluate_context.
  destruct (CreateCfg fut) eqn:Hcfg; simpl in H;
    (destruct (PendingExpr fut) as [E|] eqn:HE; [|done]); simpl in H;
    apply bind_OK in H as (c4 & H4 & H);
    apply bind_OK in H as (a & Ha & H);
    apply bind_OK in H as (r5 & H5 & H).
  - apply bind_OK in H as ([Res' r6] & H6 & H).
    apply bind_OK in H6 as (r6' & H6 & [= <- <-]).
    apply bind_OK in H as (c9 & H9 & [= <- <-]).
    exists E, c4. do 3 (split; [done|]).
    apply finish_spec in H9
      as (fut' & HF' & Hfs & Hq & Hsp & Hb & _ & _ & Hdel).
    simpl in *.
    assert (fut' = fut) as ->.
    { apply traverse_extends in H4 as [Hext _].
      eapply extends_lookup in Hext; [|exact HF]. congruence. }
    rewrite Hcfg in *. repeat split; try done. by rewrite Hb.
  - apply bind_OK in H as (c9 & H9 & [= <- <-]).
    exists E, c4. do 3 (split; [done|]).
    apply finish_spec in H9
      as (fut' & HF' & Hfs & Hq & Hsp & Hb & _ & _ & Hdel).
    simpl in *.
    assert (fut' = fut) as ->.
    { apply traverse_extends in H4 as [Hext _].
      eapply extends_lookup in Hext; [|exact HF]. congruence. }
    rewrite Hcfg in *. repeat split; try done. by rewrite Hb.
Qed.

Lemma evaluate_context_switched fut r :
  ScopePtr (evaluate_context fut r) = FScopePtr fut ∧
  CurrentState (Builder (evaluate_context fut r)) = BState fut.
Proof. unfold evaluate_context. by destruct (CreateCfg fut). Qed.

(** C8.  When [evaluate] returns on a future: the deferred traversal of
    the captured term ran with the scope and the builder state saved in
    the future; afterwards the scope and the builder state of the
    reducer are the ones that were current when [evaluate] was called;
    the future holds neither the term nor the scope clone; and the scope
    clone is deleted. *)
Theorem evaluate_restores_context (F : nat) (c : SExprCopier)
    (fut : LazyCopyFuture) (Res : SExprPtr) (c' : SExprCopier) :
  Futures c !! F = Some fut →
  evaluate F c = OK (Res, c') →
  (∃ E c4,
     PendingExpr fut = Some E ∧
     ScopePtr (evaluate_context fut (Reducer c)) = FScopePtr fut ∧
     CurrentState (Builder (evaluate_context fut (Reducer c))) = BState fut ∧
     traverse E TRV_Tail (set_Reducer (evaluate_context fut (Reducer c)) c)
       = OK c4) ∧
  ScopePtr (Reducer c') = ScopePtr (Reducer c) ∧
  CurrentState (Builder (Reducer c')) = CurrentState (Builder (Reducer c)) ∧
  (∃ fut', Futures c' !! F = Some fut' ∧
           PendingExpr fut' = None ∧ FScopePtr fut' = None) ∧
  (∀ p, FScopePtr fut = Some p → Scopes (Reducer c') !! p = Some None).
Proof.
  intros HF Hev.
  apply evaluate_spec in Hev
    as (fut0 & E & c4 & HF0 & HE & Htr & Hfs & _ & Hsp & Hst & Hdel).
  assert (fut0 = fut) as -> by congruence.
  destruct (evaluate_context_switched fut (Reducer c)) as [? ?].
  split. { exists E, c4. auto. } do 2 (split; [done|]). split; [|done].
  exists (mkFuture None None (BState fut) (CreateCfg fut) (Status fut)
                   (FResult fut)).
  rewrite Hfs. split; [|done].
  apply list_lookup_insert_eq.
  apply traverse_extends in Htr as [Hext _].
  eapply extends_lookup in Hext; [|exact HF]. by eapply lookup_lt_Some.
Qed.

Lemma evaluate_restores_context_witness :
  evaluate 0 ex_forcing = OK (Ref 7, ex_forced) ∧
  ScopePtr (Reducer ex_forced) = Some 0 ∧
  CurrentState (Builder (Reducer ex_forced)) = mkBuilderState None true ∧
  Scopes (Reducer ex_forced) !! 1 = Some None ∧
  ∃ fut', Futures ex_forced !! 0 = Some fut' ∧
          PendingExpr fut' = None ∧ FScopePtr fut' = None.
Proof.
  assert (Hev : evaluate 0 ex_forcing = OK (Ref 7, ex_forced))
    by (vm_compute; reflexivity).
  destruct (evaluate_restores_context 0 ex_forcing
              (mkFuture (Some (exVariable 1)) (Some 1)
                        (mkBuilderState (Some 0) false) false FS_pending nullptr)
              (Ref 7) ex_forced eq_refl Hev)
    as (_ & Hscope & Hstate & Hfut & Hdel).
  split; [exact Hev|]. split; [exact Hscope|]. split; [exact Hstate|].
  split; [exact (Hdel 1 eq_refl)|exact Hfut].
Defined.

(** *** traverseAll *)

Lemma force_spec F c c' :
  force F c = OK c' →
  ∃ fut E new Res,
    Futures c !! F = Some fut ∧
    Status fut = FS_pending ∧
    PendingExpr fut = Some E ∧
    Futures c' = <[F := mkFuture None None (BState fut) (CreateCfg fut)
                                 FS_done Res]> (Futures c) ++ new ∧
    FutureQueue c' = FutureQueue c ++ seq (length (Futures c)) (length new) ∧
    Forall (λ fut, Status fut = FS_pending) new ∧
    sum_list_with fut_size new < SExpr_size E.
Proof.
  unfold force, getFuture.
  destruct (Futures c !! F) as [fut|] eqn:HF; [|done]. simpl.
  destruct (Status fut) eqn:Hst; [|done].
  intros H. apply bind_OK in H as ([Res c1] & Hev & H).
  apply evaluate_spec in Hev
    as (fut0 & E & c4 & HF0 & HE & Htr & Hfs & Hq & _).
  assert (fut0 = fut) as -> by congruence.
  apply traverse_extends in Htr as [_ Hext].
  destruct (Hext eq_refl) as (new & Hf4 & Hq4 & Hpend & Hsz). simpl in *.
  apply lookup_lt_Some in HF as Hlt.
  assert (HF1 : Futures c1 !! F =
            Some (mkFuture None None (BState fut) (CreateCfg fut)
                           (Status fut) (FResult fut))).
  { rewrite Hfs. apply list_lookup_insert_eq. rewrite Hf4, length_app. lia. }
  rewrite HF1 in H. simpl in H. injection H as <-. simpl.
  exists fut, E, new, Res. do 3 (split; [done|]). split; [|split; [|split]].
  - rewrite Hfs, Hf4, list_insert_insert_eq. by rewrite insert_app_l.
  - by rewrite Hq, Hq4.
  - done.
  - pose proof (SExpr_size_pos E). lia.
Qed.

Lemma force_preserves_released G c c' F fut :
  force G c = OK c' →
  Futures c !! F = Some fut → released fut →
  ∃ fut', Futures c' !! F = Some fut' ∧ released fut'.
Proof.
  intros Hforce HF Hrel.
  apply force_spec in Hforce
    as (futG & E & new & Res & HG & Hpend & _ & Hfs & _).
  assert (G ≠ F).
  { intros ->. destruct Hrel as [Hdone _]. congruence. }
  exists fut. split; [|done]. rewrite Hfs.
  rewrite lookup_app_l by (rewrite length_insert; by eapply lookup_lt_Some).
  by rewrite list_lookup_insert_ne.
Qed.

Lemma forceQueue_preserves_released fuel c c' F fut :
  forceQueue fuel c = Some (OK c') →
  Futures c !! F = Some fut → released fut →
  ∃ fut', Futures c' !! F = Some fut' ∧ released fut'.
Proof.
  revert c fut. induction fuel as [|fuel IH]; intros c fut; simpl;
    destruct (FutureQueue c) as [|G Q]; try done.
  - intros [= <-]. eauto.
  - intros [= <-]. eauto.
  - destruct (force G _) as [c1|] eqn:H1; [|done]. intros H2 HF Hrel.
    destruct (force_preserves_released _ _ _ _ _ H1 HF Hrel) as (fut1 & ? & ?).
    eauto.
Qed.

Lemma forceQueue_forces_in_order fuel c c' :
  forceQueue fuel c = Some (OK c') →
  FutureQueue c' = [] ∧
  length (Futures c) ≤ length (Futures c') ∧
  forcedBy fuel c =
    FutureQueue c ++ seq (length (Futures c))
                         (length (Futures c') - length (Futures c)) ∧
  ∀ F, F ∈ forcedBy fuel c →
       ∃ fut, Futures c' !! F = Some fut ∧ released fut.
Proof.
  revert c. induction fuel as [|fuel IH]; intros c; simpl;
    destruct (FutureQueue c) as [|G Q] eqn:HQ; try done.
  1,2: intros [= <-]; rewrite HQ, Nat.sub_diag; simpl;
       repeat split; try done; by intros ? ?%elem_of_nil.
  destruct (force G _) as [c1|] eqn:H1; [|done]. intros H2.
  destruct (IH _ H2) as (Hq' & Hlen & Htrace & Hrel).
  apply force_spec in H1 as Hspec.
  destruct Hspec as (futG & E & new & Res & HG & _ & _ & Hfs & Hq1 & _).
  simpl in *.
  assert (Hl1 : length (Futures c1) = length (Futures c) + length new).
  { by rewrite Hfs, length_app, length_insert. }
  split; [done|]. split; [lia|]. split.
  - rewrite Htrace, Hq1. f_equal. rewrite <- app_assoc. f_equal.
    rewrite Hl1.
    replace (length (Futures c') - length (Futures c))
      with (length new + (length (Futures c') - (length (Futures c) + length new)))
      by lia.
    by rewrite seq_app.
  - intros F HF. apply elem_of_cons in HF as [->|HF]; [|by apply Hrel].
    eapply forceQueue_preserves_released; [exact H2| |].
    + rewrite Hfs. rewrite lookup_app_l
        by (rewrite length_insert; by eapply lookup_lt_Some).
      apply list_lookup_insert_eq. by eapply lookup_lt_Some.
    + done.
Qed.

Lemma pending_size_new fs new :
  sum_list_with (pending_size (fs ++ new)) (seq (length fs) (length new))
  = sum_list_with fut_size new.
Proof.
  revert fs. induction new as [|fut new IH]; intros fs; [done|].
  simpl. f_equal.
  - unfold pending_size. by rewrite list_lookup_middle.
  - specialize (IH (fs ++ [fut])). rewrite <- app_assoc in IH. simpl in IH.
    rewrite <- IH. rewrite length_app. simpl.
    by replace (length fs + 1) with (S (length fs)) by lia.
Qed.

Lemma pending_size_old fs F rel new Q :
  PendingExpr rel = None →
  Forall (λ G, G < length fs) Q →
  sum_list_with (pending_size (<[F := rel]> fs ++ new)) Q
  ≤ sum_list_with (pending_size fs) Q.
Proof.
  intros Hrel. induction 1 as [|G Q HG _ IH]; simpl; [done|].
  apply Nat.add_le_mono; [|done].
  unfold pending_size. rewrite lookup_app_l by (by rewrite length_insert).
  destruct (decide (F = G)) as [->|Hne].
  - rewrite list_lookup_insert_eq by done. simpl. unfold fut_size.
    rewrite Hrel. lia.
  - by rewrite list_lookup_insert_ne.
Qed.

Lemma force_decreases F Q c c' :
  FutureQueue c = Q →
  queue_valid c →
  force F c = OK c' →
  queue_valid c' ∧ queue_size c' < pending_size (Futures c) F + queue_size c.
Proof.
  intros HQ Hvalid Hforce.
  apply force_spec in Hforce
    as (fut & E & new & Res & HF & _ & HE & Hfs & Hq & _ & Hsz).
  unfold queue_valid, queue_size in *. rewrite Hq, Hfs. split.
  - apply Forall_app. split.
    + eapply Forall_impl; [exact Hvalid|]. simpl. intros G HG.
      rewrite length_app, length_insert. lia.
    + apply Forall_forall. intros G HG. apply elem_of_seq in HG.
      rewrite length_app, length_insert. lia.
  - rewrite sum_list_with_app.
    pose proof (pending_size_old (Futures c) F
      (mkFuture None None (BState fut) (CreateCfg fut) FS_done Res) new
      (FutureQueue c) eq_refl Hvalid) as Hold.
    pose proof (pending_size_new
      (<[F := mkFuture None None (BState fut) (CreateCfg fut) FS_done Res]>
         (Futures c)) new) as Hnew.
    rewrite length_insert in Hnew. rewrite Hnew.
    assert (pending_size (Futures c) F = SExpr_size E) as ->.
    { unfold pending_size. rewrite HF. simpl. unfold fut_size. by rewrite HE. }
    lia.
Qed.

Lemma forceQueue_terminates fuel c :
  queue_valid c → queue_size c < fuel → is_Some (forceQueue fuel c).
Proof.
  revert c. induction fuel as [|fuel IH]; intros c Hvalid Hfuel; [lia|].
  simpl. destruct (FutureQueue c) as [|F Q] eqn:HQ; [done|].
  destruct (force F _) as [c1|e] eqn:Hforce; [|done].
  apply (force_decreases F Q) in Hforce as [Hvalid1 Hdec]; [|done|].
  - apply IH; [done|]. unfold queue_size in *. simpl in *.
    rewrite HQ in Hfuel. simpl in Hfuel. lia.
  - unfold queue_valid in *. simpl. rewrite HQ in Hvalid.
    by apply Forall_cons in Hvalid as [_ ?].
Qed.

Lemma traverseAll_top_extends E c Result c2 :
  traverseAll_top E c = OK (Result, c2) →
  extends (SExpr_size E - 1) c c2.
Proof.
  unfold traverseAll_top. intros H.
  apply bind_OK in H as ([] & _ & H).
  apply bind_OK in H as (c1 & H1 & H).
  apply bind_OK in H as (a & _ & H).
  apply bind_OK in H as (r2 & _ & [= <- <-]).
  apply extends_set_Reducer. apply traverse_extends in H1 as [_ H1].
  by apply H1.
Qed.

(** C7.  Started with an empty queue, the loop of [traverseAll] ends
    within as many iterations as the term has nodes.  When [traverseAll]
    returns, the queue is empty, and the futures forced by the loop are
    exactly the futures created since the start, each forced once, in
    the order of their creation, which is the order in which
    [makeFuture] enqueued them: first the queue left by the traversal of
    the term, then the futures enqueued while others were forced.  All
    of them are done and released. *)
Theorem traverseAll_drains_queue (E : SExpr) (c : SExprCopier) :
  FutureQueue c = [] →
  (∀ fuel, SExpr_size E ≤ fuel → is_Some (traverseAll fuel E c))
  ∧ (∀ fuel Result c',
       traverseAll fuel E c = Some (OK (Result, c')) →
       FutureQueue c' = [] ∧
       ∃ c2,
         traverseAll_top E c = OK (Result, c2) ∧
         let n := length (Futures c) in
         let n' := length (Futures c') in
         forcedBy fuel c2 = seq n (n' - n) ∧
         forcedBy fuel c2 =
           FutureQueue c2 ++ seq (length (Futures c2))
                                 (n' - length (Futures c2)) ∧
         NoDup (forcedBy fuel c2) ∧
         (∀ F, n ≤ F < n' →
               F ∈ forcedBy fuel c2 ∧
               ∃ fut, Futures c' !! F = Some fut ∧ released fut)).
Proof.
  intros Hempty. split.
  - intros fuel Hfuel. unfold traverseAll.
    destruct (traverseAll_top E c) as [[Result c2]|e] eqn:Htop; [|done].
    destruct (forceQueue_terminates fuel c2) as [[c3|e] Hrun].
    + destruct (traverseAll_top_extends _ _ _ _ Htop) as (new & Hf & Hq & _).
      unfold queue_valid. rewrite Hq, Hf, Hempty. simpl.
      apply Forall_forall. intros F HF. apply elem_of_seq in HF.
      rewrite length_app. lia.
    + destruct (traverseAll_top_extends _ _ _ _ Htop)
        as (new & Hf & Hq & _ & Hsz).
      unfold queue_size. rewrite Hq, Hf, Hempty. simpl.
      rewrite pending_size_new. pose proof (SExpr_size_pos E). lia.
    + by rewrite Hrun.
    + by rewrite Hrun.
  - intros fuel Result c'. unfold traverseAll.
    destruct (traverseAll_top E c) as [[Result2 c2]|e] eqn:Htop; [|done].
    destruct (forceQueue fuel c2) as [[c3|e]|] eqn:Hrun; try done.
    intros [= <- <-]. simpl.
    destruct (forceQueue_forces_in_order _ _ _ Hrun)
      as (Hq3 & Hlen & Htrace & Hrel).
    split; [done|]. exists c2. split; [done|].
    destruct (traverseAll_top_extends _ _ _ _ Htop) as (new & Hf & Hq & _).
    rewrite Hempty in Hq. simpl in Hq.
    assert (Heq : forcedBy fuel c2 =
              seq (length (Futures c)) (length (Futures c3) - length (Futures c))).
    { rewrite Htrace, Hq, Hf, length_app. rewrite Hf, length_app in Hlen.
      replace (length (Futures c3) - length (Futures c))
        with (length new + (length (Futures c3) - (length (Futures c) + length new)))
        by lia.
      by rewrite seq_app. }
    split; [done|]. split; [done|]. split; [rewrite Heq; apply NoDup_seq|].
    intros F HF.
    assert (F ∈ forcedBy fuel c2) by (rewrite Heq; apply elem_of_seq; lia).
    auto.
Qed.

Lemma traverseAll_drains_queue_witness :
  is_Some (traverseAll 6 ex_term ex_copier) ∧
  ∃ Result c' c2,
    traverseAll 6 ex_term ex_copier = Some (OK (Result, c')) ∧
    FutureQueue c' = [] ∧
    traverseAll_top ex_term ex_copier = OK (Result, c2) ∧
    FutureQueue c2 = [0; 1] ∧
    forcedBy 6 c2 = [0; 1; 2; 3].
Proof.
  destruct (traverseAll_drains_queue ex_term ex_copier eq_refl)
    as [Htotal Hdrain].
  split.
  - apply Htotal. vm_compute. lia.
  - destruct (traverseAll 6 ex_term ex_copier) as [[[Result c']|e]|] eqn:Hrun;
      [|vm_compute in Hrun; discriminate Hrun..].
    destruct (Hdrain 6 Result c' Hrun) as (Hq & c2 & Htop & Htrace & _ & _).
    exists Result, c', c2. split; [reflexivity|]. split; [exact Hq|].
    split; [exact Htop|].
    assert (Hlen : length (Futures c') = 4).
    { vm_compute in Hrun. injection Hrun as <- <-. reflexivity. }
    split.
    + vm_compute in Htop. injection Htop as <- <-. reflexivity.
    + rewrite Htrace, Hlen. reflexivity.
Defined.

(** * Further properties of the code *)

(** *** CopyScope *)

Lemma mapArguments_Subst origArgs newArgs sc :
  Subst (CopyScope_mapArguments origArgs newArgs sc) = Subst sc.
Proof.
  revert newArgs sc. induction origArgs as [|Ph os IH]; intros [|a ns] sc;
    simpl; try done.
  rewrite IH. destruct Ph as [ph|]; [|done]. by destruct (0 <? instrID ph).
Qed.

Lemma insertBlockMap_inv arena Orig B sc sc' :
  CopyScope_insertBlockMap arena Orig B sc = OK sc' →
  ∃ nb,
    blockID Orig < length (BlockMap sc) ∧
    arena !! B = Some (NBasicBlock nb) ∧
    length (arguments Orig) = length (Args nb) ∧
    sc' = CopyScope_mapArguments (arguments Orig) (Args nb)
            (set_BlockMap (λ m, <[blockID Orig := Some B]> m) sc).
Proof.
  unfold CopyScope_insertBlockMap. case_decide; [|done].
  destruct (arena !! B) as [[| | | | |nb|]|]; try done. simpl.
  case_bool_decide; [|done]. simpl. intros [= <-]. by exists nb.
Qed.

Lemma lookup_resize_vec {A} n (x : A) l i :
  i < n → resize_vec n x l !! i = Some (default x (l !! i)).
Proof.
  intros Hi. unfold resize_vec.
  destruct (decide (i < length l)) as [Hlt|Hge].
  - rewrite lookup_app_l by (rewrite length_take; lia).
    rewrite lookup_take_lt by done.
    destruct (lookup_lt_is_Some_2 l i Hlt) as [y ->]. done.
  - rewrite lookup_app_r by (rewrite length_take; lia).
    rewrite length_take, (lookup_ge_None_2 l i) by lia. simpl.
    apply lookup_replicate_2. lia.
Qed.

(** X1.  [CopyScope::enterCFG] leaves the substitution as it is, and of
    the block map it fills in only the entries of the entry and the exit
    block: every other block of the graph keeps the entry it had, or has
    no copy yet where the map was shorter than the graph. *)
Theorem enterCFG_other_blocks (arena : list Node) (Orig : SCFG) (G : nat)
    (sc sc' : CopyScope) :
  CopyScope_enterCFG arena Orig G sc = OK sc' →
  Subst sc' = Subst sc ∧
  ∀ id, id < numBlocks Orig →
        id ≠ blockID (entry Orig) → id ≠ blockID (exit Orig) →
        BlockMap sc' !! id = Some (default None (BlockMap sc !! id)).
Proof.
  unfold CopyScope_enterCFG.
  destruct (arena !! G) as [[| | | | | |Se Sx]|]; try done.
  intros H. apply bind_OK in H as (sc2 & H1 & H2).
  apply insertBlockMap_inv in H1 as (eb & _ & _ & _ & ->).
  apply insertBlockMap_inv in H2 as (xb & _ & _ & _ & ->).
  split.
  - rewrite mapArguments_Subst. simpl. by rewrite mapArguments_Subst.
  - intros id Hid Hne Hnx. rewrite mapArguments_BlockMap. simpl.
    rewrite list_lookup_insert_ne by lia.
    rewrite mapArguments_BlockMap. simpl.
    rewrite list_lookup_insert_ne by lia.
    by apply lookup_resize_vec.
Qed.

Lemma enterCFG_other_blocks_witness :
  ∃ sc',
    CopyScope_enterCFG cfg_arena (mkSCFG 4 (entry cfg_numbered) (exit cfg_numbered))
                       3 (mkCopyScope [] ∅ [None; None; Some 7]) = OK sc' ∧
    BlockMap sc' !! 2 = Some (Some 7) ∧ BlockMap sc' !! 3 = Some None.
Proof.
  eexists. split; [reflexivity|].
  destruct (enterCFG_other_blocks cfg_arena
              (mkSCFG 4 (entry cfg_numbered) (exit cfg_numbered)) 3
              (mkCopyScope [] ∅ [None; None; Some 7]) _ eq_refl) as [_ Hother].
  split.
  - apply (Hother 2); simpl; lia.
  - apply (Hother 3); simpl; lia.
Defined.

(** X2.  [CopyScope::exitCFG] undoes [CopyScope::enterCFG]: after the
    two calls the block map and the instruction map are empty, and the
    substitution is the one from before the graph was entered. *)
Theorem enterCFG_exitCFG (arena : list Node) (Orig : SCFG) (G : nat)
    (sc sc' : CopyScope) :
  CopyScope_enterCFG arena Orig G sc = OK sc' →
  CopyScope_exitCFG sc' = mkCopyScope (Subst sc) ∅ [].
Proof.
  unfold CopyScope_enterCFG.
  destruct (arena !! G) as [[| | | | | |Se Sx]|]; try done.
  intros H. apply bind_OK in H as (sc2 & H1 & H2).
  apply insertBlockMap_inv in H1 as (eb & _ & _ & _ & ->).
  apply insertBlockMap_inv in H2 as (xb & _ & _ & _ & ->).
  unfold CopyScope_exitCFG, ScopeFrame_exitCFG, set_BlockMap,
    set_InstructionMap. simpl. rewrite mapArguments_Subst. simpl.
  by rewrite mapArguments_Subst.
Qed.

Lemma enterCFG_exitCFG_witness :
  ∃ sc',
    CopyScope_enterCFG cfg_arena cfg_numbered 3 ex_scope = OK sc' ∧
    CopyScope_exitCFG sc' = mkCopyScope [None; Some (mkAttr (Ref 7))] ∅ [].
Proof.
  eexists. split; [reflexivity|].
  exact (enterCFG_exitCFG cfg_arena cfg_numbered 3 ex_scope _ eq_refl).
Defined.

(** X3.  [insertBlockMap]: an original block whose id is outside the
    block map is an out-of-bounds write; an original and a copy with
    different numbers of arguments fail the assertion; otherwise the call
    writes the one entry of the original in the block map, keeps the
    substitution, and touches the instruction map only at the ids of the
    numbered arguments of the original. *)
Theorem insertBlockMap_effect (arena : list Node) (Orig : BasicBlock)
    (B : nat) (sc : CopyScope) :
  (length (BlockMap sc) ≤ blockID Orig →
   CopyScope_insertBlockMap arena Orig B sc = Fatal UndefinedBehavior)
  ∧ (∀ nb, blockID Orig < length (BlockMap sc) →
           arena !! B = Some (NBasicBlock nb) →
           length (arguments Orig) ≠ length (Args nb) →
           CopyScope_insertBlockMap arena Orig B sc = Fatal ContractViolation)
  ∧ (∀ sc', CopyScope_insertBlockMap arena Orig B sc = OK sc' →
            BlockMap sc' = <[blockID Orig := Some B]> (BlockMap sc) ∧
            Subst sc' = Subst sc ∧
            ∀ id, id ∉ numberedArgs (arguments Orig) →
                  InstructionMap sc' !! id = InstructionMap sc !! id).
Proof.
  split; [|split].
  - intros Hge. unfold CopyScope_insertBlockMap.
    rewrite decide_False by lia. done.
  - intros nb Hlt HB Hne. unfold CopyScope_insertBlockMap.
    rewrite decide_True by done. rewrite HB. simpl.
    by rewrite bool_decide_eq_false_2.
  - intros sc' H. apply insertBlockMap_inv in H as (nb & _ & _ & _ & ->).
    rewrite mapArguments_BlockMap, mapArguments_Subst. simpl.
    split; [done|]. split; [done|]. intros id Hid.
    by rewrite mapArguments_other.
Qed.

Lemma insertBlockMap_effect_witness :
  CopyScope_insertBlockMap cfg_arena (mkBasicBlock 5 [] 0) 0 ex_scope
    = Fatal UndefinedBehavior
  ∧ CopyScope_insertBlockMap cfg_arena (mkBasicBlock 1 [] 0) 0 ex_scope
    = Fatal ContractViolation
  ∧ ∃ sc', CopyScope_insertBlockMap cfg_arena (mkBasicBlock 1 [Some (mkPhi 4)] 0)
             0 ex_scope = OK sc' ∧
           BlockMap sc' = [Some 0; Some 0] ∧
           InstructionMap sc' !! 9 = None.
Proof.
  destruct (insertBlockMap_effect cfg_arena (mkBasicBlock 5 [] 0) 0 ex_scope)
    as [Hrange _].
  destruct (insertBlockMap_effect cfg_arena (mkBasicBlock 1 [] 0) 0 ex_scope)
    as (_ & Hcount & _).
  destruct (insertBlockMap_effect cfg_arena (mkBasicBlock 1 [Some (mkPhi 4)] 0)
              0 ex_scope) as (_ & _ & Hok).
  split; [apply Hrange; simpl; lia|]. split.
  - apply (Hcount (mkNewBlock [1] [] 0 None)); simpl; [lia|reflexivity|lia].
  - eexists. split; [reflexivity|].
    destruct (Hok _ eq_refl) as (Hmap & _ & Hother).
    split; [exact Hmap|]. rewrite Hother; [reflexivity|].
    simpl. apply not_elem_of_cons. split; [lia|apply not_elem_of_nil].
Defined.

(** *** The frame of lookupBlock *)

Lemma putScope_inv sc r r' :
  putScope sc r = OK r' →
  ∃ p sc0, ScopePtr r = Some p ∧ Scopes r !! p = Some (Some sc0) ∧
           r' = set_Scopes (λ h, <[p := Some sc]> h) r.
Proof.
  unfold putScope. destruct (ScopePtr r) as [p|]; [|done].
  destruct (Scopes r !! p) as [[sc0|]|] eqn:Hp; try done.
  intros [= <-]. by exists p, sc0.
Qed.

(** The two ways in which a lookup of a non-null block succeeds. *)
Lemma lookupBlock_inv Orig r x r' :
  lookupBlock (Some Orig) r = OK (x, r') →
  ∃ sc, scope r = OK sc ∧
    ((∃ B, BlockMap sc !! blockID Orig = Some (Some B) ∧ x = Some B ∧ r' = r)
     ∨ (BlockMap sc !! blockID Orig = Some None ∧
        x = Some (length (Arena (Builder r))) ∧
        ∃ p, ScopePtr r = Some p ∧
          r' = set_Scopes
                 (λ h, <[p := Some (CopyScope_mapArguments (arguments Orig)
                              (seq (S (length (Arena (Builder r))))
                                   (length (arguments Orig)))
                              (set_BlockMap
                                 (λ m, <[blockID Orig :=
                                           Some (length (Arena (Builder r)))]> m)
                                 sc))]> h)
                 (set_Builder
                    (snd (Builder_newBlock (length (arguments Orig))
                            (numPredecessors Orig) (Builder r))) r))).
Proof.
  intros H. simpl in H. destruct (scope r) as [sc|] eqn:Hsc; [|done].
  exists sc. split; [done|]. simpl in H. unfold CopyScope_lookupBlock in H.
  destruct (BlockMap sc !! blockID Orig) as [[B|]|] eqn:Hb; simpl in H; [| |done].
  - injection H as <- <-. left. eauto.
  - right. apply lookup_lt_Some in Hb as Hlt.
    erewrite insertBlockMap_OK in H; [|done| |];
      [| rewrite lookup_app_r by done; by rewrite Nat.sub_diag
       | simpl; by rewrite length_seq ].
    simpl in H. apply bind_OK in H as (r1 & H1 & [= <- <-]).
    apply putScope_inv in H1 as (p & sc0 & Hp & _ & ->).
    split; [done|]. split; [done|]. exists p. split; done.
Qed.

(** X4.  The frame of [lookupBlock]: a successful call leaves the
    attribute stack, the current scope pointer, the state and the
    current graph of the builder alone; it keeps every node the arena
    already has, every scope but the current one, and in the current
    scope the substitution and the size of the block map. *)
Theorem lookupBlock_changes_only (Ob : option BasicBlock) (r : CopyReducer)
    (x : option nat) (r' : CopyReducer) :
  lookupBlock Ob r = OK (x, r') →
  Attrs r' = Attrs r ∧ AttrFrame r' = AttrFrame r ∧
  ScopePtr r' = ScopePtr r ∧
  CurrentState (Builder r') = CurrentState (Builder r) ∧
  CurrentCFG (Builder r') = CurrentCFG (Builder r) ∧
  (∀ a n, Arena (Builder r) !! a = Some n → Arena (Builder r') !! a = Some n) ∧
  length (Scopes r') = length (Scopes r) ∧
  (∀ p, ScopePtr r ≠ Some p → Scopes r' !! p = Scopes r !! p) ∧
  (∀ sc sc', scope r = OK sc → scope r' = OK sc' →
             Subst sc' = Subst sc ∧
             length (BlockMap sc') = length (BlockMap sc)).
Proof.
  intros H. destruct Ob as [Orig|].
  2:{ injection H as <- <-. do 8 (split; [done|]).
      intros sc sc' H1 H2. rewrite H1 in H2. by injection H2 as <-. }
  apply lookupBlock_inv in H as (sc0 & Hsc0 & [(B & _ & _ & ->)|(Hb & _ & p & Hp & ->)]).
  { do 8 (split; [done|]).
    intros sc sc' H1 H2. rewrite H1 in H2. by injection H2 as <-. }
  simpl. do 5 (split; [done|]). split; [|split; [|split]].
  - intros a n Ha. rewrite lookup_app_l; [done|]. by eapply lookup_lt_Some.
  - apply length_insert.
  - intros q Hq. apply list_lookup_insert_ne. congruence.
  - intros sc sc' Hsc. rewrite Hsc in Hsc0. injection Hsc0 as <-.
    unfold scope. simpl. rewrite Hp.
    unfold scope in Hsc. rewrite Hp in Hsc.
    destruct (Scopes r !! p) as [[s|]|] eqn:Hs; try done.
    rewrite list_lookup_insert_eq by (by eapply lookup_lt_Some).
    intros [= <-]. rewrite mapArguments_Subst, mapArguments_BlockMap. simpl.
    by rewrite length_insert.
Qed.

Lemma lookupBlock_changes_only_witness :
  ∃ r', lookupBlock (Some ex_block1) ex_reducer = OK (Some 1, r') ∧
        Attrs r' = Attrs ex_reducer ∧
        Arena (Builder r') !! 0 = Some (NBasicBlock (mkNewBlock [] [] 0 None)) ∧
        CurrentState (Builder r') = mkBuilderState (Some 0) true.
Proof.
  eexists. split; [reflexivity|].
  destruct (lookupBlock_changes_only (Some ex_block1) ex_reducer _ _ eq_refl)
    as (Hattrs & _ & _ & Hstate & _ & Harena & _).
  split; [exact Hattrs|]. split; [|exact Hstate].
  apply Harena. reflexivity.
Defined.

(** *** The invariants of the arena and of the block map *)

Lemma phis_at_app arena new Phs n :
  phis_at arena Phs n → phis_at (arena ++ new) Phs n.
Proof.
  unfold phis_at. rewrite !Forall_forall. intros H Ph HPh.
  destruct (H Ph HPh) as (vs & Hvs & Hlen). exists vs. split; [|done].
  rewrite lookup_app_l; [done|]. by eapply lookup_lt_Some.
Qed.

Lemma wf_block_app arena new nb :
  wf_block arena nb → wf_block (arena ++ new) nb.
Proof. intros [? ?]. split; [done|]. by apply phis_at_app. Qed.

Lemma wf_block_phi_lt arena nb Ph :
  wf_block arena nb → Ph ∈ Args nb → Ph < length arena.
Proof.
  intros [_ Hphis] HPh.
  destruct (phis_at_lookup _ _ _ _ Hphis HPh) as (vs & Hvs & _).
  by eapply lookup_lt_Some.
Qed.

(** Allocating anything but a block keeps the arena well formed. *)
Lemma arena_wf_alloc arena n :
  (∀ nb, n ≠ NBasicBlock nb) →
  arena_wf arena → arena_wf (arena ++ [n]).
Proof.
  intros Hn [Hwf Hdisj].
  assert (Hold : ∀ B nb, (arena ++ [n]) !! B = Some (NBasicBlock nb) →
                         arena !! B = Some (NBasicBlock nb)).
  { intros B nb HB. destruct (decide (B < length arena)) as [Hlt|Hge].
    - by rewrite lookup_app_l in HB.
    - rewrite lookup_app_r in HB by lia.
      destruct (B - length arena) as [|k]; simpl in HB; [|done].
      injection HB as ->. by destruct (Hn nb). }
  split.
  - intros B nb HB. apply wf_block_app. eapply Hwf. by apply Hold.
  - intros B1 B2 nb1 nb2 Ph H1 H2. eapply Hdisj; by apply Hold.
Qed.

Lemma arena_wf_newBlock Nargs Npreds b :
  arena_wf (Arena b) →
  arena_wf (Arena (snd (Builder_newBlock Nargs Npreds b))).
Proof.
  intros [Hwf Hdisj]. simpl.
  set (blk := mkNewBlock (seq (S (length (Arena b))) Nargs) [] Npreds None).
  set (new := NBasicBlock blk :: replicate Nargs (NPhi [])).
  assert (Hcases : ∀ B nb, (Arena b ++ new) !! B = Some (NBasicBlock nb) →
            Arena b !! B = Some (NBasicBlock nb)
            ∨ (B = length (Arena b) ∧ nb = blk)).
  { intros B nb HB. destruct (decide (B < length (Arena b))) as [Hlt|Hge].
    - left. by rewrite lookup_app_l in HB.
    - right. rewrite lookup_app_r in HB by lia.
      destruct (B - length (Arena b)) as [|k] eqn:Hk; simpl in HB.
      + injection HB as <-. split; [lia|done].
      + apply lookup_replicate in HB as [? _]. done. }
  assert (Hnew : wf_block (Arena b ++ new) blk).
  { pose proof (newBlock_wf Nargs Npreds b) as Hnb. simpl in Hnb.
    destruct Hnb as (nb & Hnb & Hw).
    rewrite lookup_app_r, Nat.sub_diag in Hnb by done. simpl in Hnb.
    by injection Hnb as <-. }
  split.
  - intros B nb HB. destruct (Hcases B nb HB) as [Hold|[-> ->]]; [|done].
    apply wf_block_app. by eapply Hwf.
  - intros B1 B2 nb1 nb2 Ph H1 H2 HP1 HP2.
    destruct (Hcases B1 nb1 H1) as [Ho1|[-> ->]];
      destruct (Hcases B2 nb2 H2) as [Ho2|[-> ->]]; try done.
    + by eapply Hdisj.
    + pose proof (wf_block_phi_lt _ _ _ (Hwf _ _ Ho1) HP1).
      apply elem_of_seq in HP2. lia.
    + pose proof (wf_block_phi_lt _ _ _ (Hwf _ _ Ho2) HP2).
      apply elem_of_seq in HP1. lia.
Qed.

Lemma lookupBlock_invariants (Ob : option BasicBlock)
    (r : CopyReducer) (sc : CopyScope) (x : option nat) (r' : CopyReducer) :
  lookupBlock Ob r = OK (x, r') →
  scope r = OK sc →
  arena_wf (Arena (Builder r)) →
  blockmap_ok (Arena (Builder r)) sc →
  arena_wf (Arena (Builder r')) ∧
  (∃ sc', scope r' = OK sc' ∧ blockmap_ok (Arena (Builder r')) sc') ∧
  (∀ B, x = Some B → ∃ nb, Arena (Builder r') !! B = Some (NBasicBlock nb)).
Proof.
  intros H Hsc Hwf [Hvalid Hinj]. destruct Ob as [Orig|].
  2:{ injection H as <- <-. split; [done|]. split; [|done]. by exists sc. }
  apply lookupBlock_inv in H
    as (sc0 & Hsc0 & [(B & HB & -> & ->)|(Hb & -> & p & Hp & ->)]);
    rewrite Hsc in Hsc0; injection Hsc0 as <-.
  { split; [done|]. split; [by exists sc|].
    intros ? [= <-]. by eapply Hvalid. }
  simpl. split; [by apply (arena_wf_newBlock _ _ (Builder r))|].
  set (arena' := Arena (Builder r) ++ _).
  assert (Hnew : arena' !! length (Arena (Builder r)) =
            Some (NBasicBlock (mkNewBlock
              (seq (S (length (Arena (Builder r)))) (length (arguments Orig)))
              [] (numPredecessors Orig) None))).
  { unfold arena'. rewrite lookup_app_r by done. by rewrite Nat.sub_diag. }
  split; [|intros ? [= <-]; eauto].
  eexists. split.
  { unfold scope in *. simpl. rewrite Hp in *.
    destruct (Scopes r !! p) as [[s|]|] eqn:Hs; try done.
    by rewrite list_lookup_insert_eq by (by eapply lookup_lt_Some). }
  apply lookup_lt_Some in Hb as Hlt.
  split.
  - intros id B. rewrite mapArguments_BlockMap. simpl.
    destruct (decide (id = blockID Orig)) as [->|Hne].
    + rewrite list_lookup_insert_eq by done. intros [= <-]. eauto.
    + rewrite list_lookup_insert_ne by done. intros HB.
      destruct (Hvalid _ _ HB) as (nb & Hnb). exists nb. unfold arena'.
      rewrite lookup_app_l; [done|]. by eapply lookup_lt_Some.
  - intros id1 id2 B. rewrite mapArguments_BlockMap. simpl.
    destruct (decide (id1 = blockID Orig)) as [->|Hne1];
      destruct (decide (id2 = blockID Orig)) as [->|Hne2]; try done.
    + rewrite list_lookup_insert_eq, list_lookup_insert_ne by done.
      intros [= <-] HB. destruct (Hvalid _ _ HB) as (nb & Hnb).
      apply lookup_lt_Some in Hnb. lia.
    + rewrite list_lookup_insert_eq, list_lookup_insert_ne by done.
      intros HB [= <-]. destruct (Hvalid _ _ HB) as (nb & Hnb).
      apply lookup_lt_Some in Hnb. lia.
    + rewrite !list_lookup_insert_ne by done. apply Hinj.
Qed.

(** X5.  [lookupBlock] keeps the invariants of the copy: if every block
    of the arena is well formed, no phi node belongs to two blocks, and
    the block map sends different originals to different blocks of the
    arena, then the same holds after the call, and the block it returns
    is a block of the arena. *)
Theorem lookupBlock_keeps_invariants (Ob : option BasicBlock)
    (r : CopyReducer) (sc : CopyScope) (x : option nat) (r' : CopyReducer) :
  lookupBlock Ob r = OK (x, r') →
  scope r = OK sc →
  arena_wf (Arena (Builder r)) →
  blockmap_ok (Arena (Builder r)) sc →
  arena_wf (Arena (Builder r')) ∧
  (∃ sc', scope r' = OK sc' ∧ blockmap_ok (Arena (Builder r')) sc') ∧
  (∀ B, x = Some B → ∃ nb, Arena (Builder r') !! B = Some (NBasicBlock nb)).
Proof. apply lookupBlock_invariants. Qed.

Lemma ex_arena_wf : arena_wf (Arena (Builder ex_reducer)).
Proof.
  split.
  - intros [|B] nb HB; [|done]. injection HB as <-.
    split; [apply NoDup_nil_2|apply List.Forall_nil].
  - intros [|B1] [|B2] nb1 nb2 Ph H1 H2; try done.
Qed.

Lemma ex_blockmap_ok : blockmap_ok (Arena (Builder ex_reducer)) ex_scope.
Proof.
  split.
  - intros [|[|id]] B HB; try done. injection HB as <-. eauto.
  - intros [|[|id1]] [|[|id2]] B H1 H2; try done.
Qed.

Lemma lookupBlock_keeps_invariants_witness :
  ∃ r', lookupBlock (Some ex_block1) ex_reducer = OK (Some 1, r') ∧
        arena_wf (Arena (Builder r')) ∧
        ∃ nb, Arena (Builder r') !! 1 = Some (NBasicBlock nb).
Proof.
  eexists. split; [reflexivity|].
  destruct (lookupBlock_keeps_invariants (Some ex_block1) ex_reducer ex_scope
              _ _ eq_refl eq_refl ex_arena_wf ex_blockmap_ok)
    as (Hwf & _ & Hvalid).
  split; [exact Hwf|]. exact (Hvalid 1 eq_refl).
Defined.

(** *** Weak references *)

Lemma setResultAttr_inv a r r' :
  setResultAttr a r = OK r' →
  ∃ i, AttrFrame r = S i ∧ i < length (Attrs r) ∧
       r' = set_Attrs (λ l, <[i := a]> l) r.
Proof.
  unfold setResultAttr. destruct (AttrFrame r) as [|i]; [done|].
  case_decide; [|done]. intros [= <-]. by exists i.
Qed.

Lemma setResultAttr_OK a r res :
  resultAttr r = OK res →
  ∃ r', setResultAttr a r = OK r' ∧ resultAttr r' = OK a ∧
        Scopes r' = Scopes r ∧ ScopePtr r' = ScopePtr r ∧
        Builder r' = Builder r ∧ AttrFrame r' = AttrFrame r.
Proof.
  unfold resultAttr, setResultAttr. destruct (AttrFrame r) as [|i] eqn:Hf; [done|].
  destruct (Attrs r !! i) as [a0|] eqn:Hi; [|done]. intros _.
  apply lookup_lt_Some in Hi. rewrite decide_True by done.
  eexists. split; [done|]. simpl. rewrite Hf.
  by rewrite list_lookup_insert_eq.
Qed.

(** X6.  [lookupBlock] and [reduceWeak]: once [lookupBlock] has created
    the copy of a block, a weak reference to the i-th argument of the
    original (a numbered one, the numbers of the arguments being
    distinct) reduces to the i-th phi node of the new block, which has
    no slots yet. *)
Theorem lookupBlock_maps_arguments (Orig : BasicBlock) (r r' : CopyReducer)
    (sc : CopyScope) (B i : nat) (ph : Phi) (res : CopyAttr) :
  scope r = OK sc →
  BlockMap sc !! blockID Orig = Some None →
  lookupBlock (Some Orig) r = OK (Some B, r') →
  NoDup (numberedArgs (arguments Orig)) →
  arguments Orig !! i = Some (Some ph) →
  0 < instrID ph →
  resultAttr r = OK res →
  ∃ nb Ph r'',
    Arena (Builder r') !! B = Some (NBasicBlock nb) ∧
    Args nb !! i = Some Ph ∧
    Arena (Builder r') !! Ph = Some (NPhi []) ∧
    reduceWeak (mkInstruction (instrID ph)) r' = OK r'' ∧
    resultAttr r'' = OK (mkAttr (Ref Ph)).
Proof.
  intros Hsc Hb Hlook Hnd Hi Hpos Hres.
  apply lookupBlock_inv in Hlook
    as (sc0 & Hsc0 & [(B0 & HB & _)|(_ & HB & p & Hp & ->)]).
  { rewrite Hsc in Hsc0. injection Hsc0 as <-. congruence. }
  rewrite Hsc in Hsc0. injection Hsc0 as <-. injection HB as ->.
  set (n := length (arguments Orig)).
  assert (Hin : i < n) by (by eapply lookup_lt_Some).
  assert (Hseq : seq (S (length (Arena (Builder r)))) n !! i
                 = Some (S (length (Arena (Builder r))) + i))
    by (by apply lookup_seq_lt).
  set (sc' := CopyScope_mapArguments _ _ _).
  assert (Hscope : scope (set_Scopes (λ h, <[p := Some sc']> h)
             (set_Builder (snd (Builder_newBlock n (numPredecessors Orig)
                                  (Builder r))) r)) = OK sc').
  { unfold scope in *. simpl. rewrite Hp in *.
    destruct (Scopes r !! p) as [[s|]|] eqn:Hs; try done.
    by rewrite list_lookup_insert_eq by (by eapply lookup_lt_Some). }
  destruct (setResultAttr_OK
              (mkAttr (Ref (S (length (Arena (Builder r))) + i)))
              (set_Scopes (λ h, <[p := Some sc']> h)
                 (set_Builder (snd (Builder_newBlock n (numPredecessors Orig)
                                      (Builder r))) r)) res Hres)
    as (r'' & Hset & Hres'' & _).
  eexists _, _, r''. split.
  { simpl. rewrite lookup_app_r by done. by rewrite Nat.sub_diag. }
  split; [exact Hseq|]. split; [|split].
  - simpl. rewrite lookup_app_r by lia.
    replace (S (length (Arena (Builder r)) + i) - length (Arena (Builder r)))
      with (S i) by lia.
    simpl. apply lookup_replicate_2. done.
  - unfold reduceWeak. rewrite Hscope. simpl.
    unfold ScopeFrame_instr, sc'.
    erewrite mapArguments_lookup; [exact Hset|done..].
  - exact Hres''.
Qed.

Lemma lookupBlock_maps_arguments_witness :
  ∃ r' r'',
    lookupBlock (Some ex_block1) ex_reducer = OK (Some 1, r') ∧
    reduceWeak (mkInstruction 4) r' = OK r'' ∧
    resultAttr r'' = OK (mkAttr (Ref 2)).
Proof.
  assert (Hnd : NoDup (numberedArgs (arguments ex_block1)))
    by apply NoDup_singleton.
  assert (Hpos : 0 < instrID (mkPhi 4)) by (simpl; lia).
  destruct (lookupBlock_maps_arguments ex_block1 ex_reducer _ ex_scope 1 0
              (mkPhi 4) nullAttr eq_refl eq_refl eq_refl Hnd eq_refl Hpos
              eq_refl)
    as (nb & Ph & r'' & HB & HPh & _ & Hweak & Hres).
  eexists _, r''. split; [reflexivity|]. split; [exact Hweak|].
  rewrite Hres. vm_compute in HB. injection HB as <-.
  injection HPh as <-. reflexivity.
Defined.

(** X7.  [reduceBBInstruction] records the last attribute under the id
    of the instruction: the instruction map returns it for that id and
    is unchanged for every other id, the block map, the substitution,
    the attribute stack and the builder stay as they are, and a weak
    reference to the instruction then reduces to that attribute. *)
Theorem reduceBBInstruction_records (I : Instruction) (r r1 : CopyReducer) :
  reduceBBInstruction I r = OK r1 →
  ∃ sc sc1 a,
    scope r = OK sc ∧ lastAttr r = OK a ∧ scope r1 = OK sc1 ∧
    ScopeFrame_instr (Instruction_instrID I) sc1 = a ∧
    (∀ j, j ≠ Instruction_instrID I →
          ScopeFrame_instr j sc1 = ScopeFrame_instr j sc) ∧
    BlockMap sc1 = BlockMap sc ∧ Subst sc1 = Subst sc ∧
    Attrs r1 = Attrs r ∧ AttrFrame r1 = AttrFrame r ∧
    Builder r1 = Builder r ∧
    (∀ res, resultAttr r1 = OK res →
            ∃ r2, reduceWeak I r1 = OK r2 ∧ resultAttr r2 = OK a).
Proof.
  unfold reduceBBInstruction. intros H.
  apply bind_OK in H as (sc & Hsc & H).
  apply bind_OK in H as (a & Ha & H).
  apply scope_putScope in H as (Hsc1 & _ & Hb & Hattrs & Hframe).
  eexists sc, _, a. do 3 (split; [done|]).
  split; [|split; [|do 5 (split; [done|])]].
  - unfold ScopeFrame_instr. simpl. by rewrite lookup_insert_eq.
  - intros j Hj. unfold ScopeFrame_instr. simpl.
    by rewrite lookup_insert_ne.
  - intros res Hres. unfold reduceWeak. rewrite Hsc1. simpl.
    destruct (setResultAttr_OK
                (ScopeFrame_instr (Instruction_instrID I)
                   (ScopeFrame_insertInstructionMap (Instruction_instrID I) a sc))
                r1 res Hres) as (r2 & Hset & Hres2 & _).
    exists r2. split; [done|]. rewrite Hres2. f_equal.
    unfold ScopeFrame_instr. simpl. by rewrite lookup_insert_eq.
Qed.

Lemma reduceBBInstruction_records_witness :
  ∃ r1 r2,
    reduceBBInstruction (mkInstruction 6) ex_reducer = OK r1 ∧
    reduceWeak (mkInstruction 6) r1 = OK r2 ∧
    resultAttr r2 = OK (mkAttr (Ref 9)).
Proof.
  destruct (reduceBBInstruction_records (mkInstruction 6) ex_reducer _ eq_refl)
    as (sc & sc1 & a & _ & Ha & _ & _ & _ & _ & _ & _ & _ & _ & Hweak).
  destruct (Hweak nullAttr eq_refl) as (r2 & H2 & Hres).
  eexists _, r2. split; [reflexivity|]. split; [exact H2|].
  rewrite Hres. vm_compute in Ha. injection Ha as <-. reflexivity.
Defined.

(** *** The arena after reduceGoto *)

Lemma reduceGoto_inv Orig r r' :
  reduceGoto Orig r = OK r' →
  ∃ B r1, lookupBlock (targetBlock Orig) r = OK (Some B, r1).
Proof.
  unfold reduceGoto.
  destruct (lookupBlock (targetBlock Orig) r) as [[[B|] r1]|]; try done.
  eauto.
Qed.

(** What a successful [reduceGoto] leaves in the arena, node by node. *)
Lemma reduceGoto_arena Orig r r' B r1 nb :
  reduceGoto Orig r = OK r' →
  lookupBlock (targetBlock Orig) r = OK (Some B, r1) →
  Arena (Builder r1) !! B = Some (NBasicBlock nb) →
  wf_block (Arena (Builder r1)) nb →
  let arena1 := Arena (Builder r1) in
  let Idx := length (Predecessors nb) in
  let Res := length arena1 in
  ∃ cb k,
    Builder_currentBB (Builder r) = Some cb ∧
    numAttrs r = length (Args nb) ∧
    length (Arena (Builder r')) = S Res ∧
    Arena (Builder r') !! Res = Some (NGoto B Idx) ∧
    (∀ p b, arena1 !! p = Some (NBasicBlock b) →
       Arena (Builder r') !! p =
         Some (NBasicBlock (mkNewBlock (Args b)
                 (if decide (p = B) then Predecessors b ++ [Some cb]
                  else Predecessors b)
                 (PredCapacity b)
                 (if decide (p = cb) then Some Res else Terminator b)))) ∧
    (∀ i Ph vs, Args nb !! i = Some Ph → arena1 !! Ph = Some (NPhi vs) →
       ∃ a, attr i r = OK a ∧
            Arena (Builder r') !! Ph
              = Some (NPhi (<[Idx := Exp a]> (vs ++ [nullptr])))) ∧
    (∀ p n, arena1 !! p = Some n → (∀ b, n ≠ NBasicBlock b) →
            p ∉ Args nb → Arena (Builder r') !! p = Some n) ∧
    Builder_currentBB (Builder r') = None ∧
    EmitInstrs (CurrentState (Builder r'))
      = EmitInstrs (CurrentState (Builder r)) ∧
    CurrentCFG (Builder r') = CurrentCFG (Builder r) ∧
    Scopes r' = Scopes r1 ∧ ScopePtr r' = ScopePtr r ∧
    AttrFrame r' = AttrFrame r ∧
    AttrFrame r = S k ∧ k < length (Attrs r) ∧
    Attrs r' = <[k := mkAttr (Ref Res)]> (Attrs r).
Proof.
  intros H Hlook HB [Hnd Hphis] arena1 Idx Res.
  fold arena1 in HB, Hphis.
  destruct (lookupBlock_frame _ _ _ _ Hlook)
    as (HAttrs & HFrame & HSp & HState & HCfg & _).
  assert (HnumA : numAttrs r1 = numAttrs r).
  { unfold numAttrs. by rewrite HAttrs, HFrame. }
  set (cur := Builder_currentBB (Builder r1)).
  assert (Hcur : Builder_currentBB (Builder r) = cur).
  { unfold cur, Builder_currentBB. by rewrite HState. }
  set (nb' := mkNewBlock (Args nb) (Predecessors nb ++ [cur])
                         (PredCapacity nb) (Terminator nb)).
  assert (HBnot : B ∉ Args nb).
  { intros Hin. destruct (phis_at_lookup _ _ _ _ Hphis Hin) as (? & ? & _).
    congruence. }
  destruct (Phi_addSlots_spec (Args nb) (<[B := NBasicBlock nb']> arena1) Idx Hnd)
    as (arena2 & Hslots & Hl2 & Hother2 & Hin2).
  { eapply phis_at_ext; [|done]. intros Ph HPh.
    apply list_lookup_insert_ne. by intros ->. }
  rewrite length_insert in Hl2.
  assert (HBlt : B < length arena1) by (by eapply lookup_lt_Some).
  assert (HB2 : arena2 !! B = Some (NBasicBlock nb')).
  { rewrite Hother2 by done. by apply list_lookup_insert_eq. }
  set (arena3 := arena2 ++ [NGoto B Idx]).
  assert (Hprefix : reduceGoto Orig r =
    (let r3 := with_arena arena3 r1 in
     _ ← assert (bool_decide (length (Args nb) = numAttrs r3));
     r4 ← reduceGoto_loop (Args nb) 0 Idx r3;
     bld5 ← Builder_endBlock (Some Res) (Builder r4);
     setResultAttr (mkAttr (Ref Res)) (set_Builder bld5 r4))).
  { unfold reduceGoto. rewrite Hlook. simpl.
    unfold BasicBlock_addPredecessor. fold arena1. rewrite HB.
    fold cur nb' Idx. rewrite Hslots. simpl. rewrite Hl2. fold Res arena3.
    unfold Block_arguments. simpl.
    assert (arena3 !! B = Some (NBasicBlock nb')) as ->.
    { unfold arena3. rewrite lookup_app_l; [done|]. lia. }
    done. }
  rewrite Hprefix in H. clear Hprefix. simpl in H.
  assert (Hnum3 : numAttrs (with_arena arena3 r1) = numAttrs r) by done.
  rewrite Hnum3 in H.
  destruct (decide (length (Args nb) = numAttrs r)) as [Hnum|Hnum].
  2:{ by rewrite bool_decide_eq_false_2 in H. }
  rewrite bool_decide_eq_true_2 in H by done. simpl in H.
  assert (Hphi3 : ∀ Ph vs, Ph ∈ Args nb → arena1 !! Ph = Some (NPhi vs) →
            arena3 !! Ph = Some (NPhi (vs ++ [nullptr]))).
  { intros Ph vs HPh Hvs. unfold arena3. rewrite lookup_app_l.
    - apply Hin2; [done|]. rewrite list_lookup_insert_ne; [done|].
      by intros ->.
    - rewrite Hl2. by eapply lookup_lt_Some. }
  destruct (reduceGoto_loop_spec (Args nb) 0 Idx (with_arena arena3 r1) Hnd)
    as (arena4 & Hloop & Hl4 & Hother4 & Hin4).
  { apply Forall_forall. intros Ph HPh.
    destruct (phis_at_lookup _ _ _ _ Hphis HPh) as (vs & Hvs & Hlen).
    exists (vs ++ [nullptr]). split; [by apply Hphi3|].
    rewrite length_app. simpl. unfold Idx. lia. }
  { rewrite Hnum3. lia. }
  rewrite Hloop in H. simpl in H. simpl in Hl4, Hother4, Hin4.
  assert (Hl3 : length arena3 = S (length arena1)).
  { unfold arena3. rewrite length_app. simpl. lia. }
  assert (Hattr : ∀ i, attr i (with_arena arena3 r1) = attr i r).
  { intros i. unfold attr. simpl. by rewrite HAttrs, HFrame. }
  assert (Hphi4 : ∀ i Ph vs, Args nb !! i = Some Ph →
            arena1 !! Ph = Some (NPhi vs) →
            ∃ a, attr i r = OK a ∧
                 arena4 !! Ph = Some (NPhi (<[Idx := Exp a]> (vs ++ [nullptr])))).
  { intros i Ph vs Hi Hvs.
    destruct (attr_in_frame r i) as [a Ha].
    { rewrite <- Hnum. by eapply lookup_lt_Some. }
    exists a. split; [done|]. apply (Hin4 i); [done| |by rewrite Hattr].
    apply Hphi3; [|done]. by eapply list_elem_of_lookup_2. }
  unfold Builder_endBlock in H. simpl in H.
  unfold Builder_currentBB in H. simpl in H.
  fold (Builder_currentBB (Builder r1)) in H. fold cur in H.
  destruct cur as [cb|] eqn:Hcb; [|done].
  destruct (arena4 !! cb) as [[| | | | |cbk4|]|] eqn:Hcb4; try done.
  simpl in H.
  apply setResultAttr_inv in H as (k & Hk & Hklt & ->). simpl in *.
  assert (Hcbnot : cb ∉ Args nb).
  { intros Hin. apply list_elem_of_lookup_1 in Hin as [i Hi].
    assert (HPh : cb ∈ Args nb) by (by eapply list_elem_of_lookup_2).
    destruct (phis_at_lookup _ _ _ _ Hphis HPh) as (vs & Hvs & _).
    destruct (Hphi4 i cb vs Hi Hvs) as (a & _ & Hx). congruence. }
  assert (Hcblt : cb < length arena1).
  { apply lookup_lt_Some in Hcb4 as Hlt. rewrite Hl4, Hl3 in Hlt.
    destruct (decide (cb = length arena1)) as [->|]; [|lia].
    rewrite Hother4 in Hcb4 by done. unfold arena3 in Hcb4.
    rewrite lookup_app_r, Hl2, Nat.sub_diag in Hcb4 by lia. done. }
  assert (Hold4 : ∀ p, p < length arena1 → p ∉ Args nb →
            arena4 !! p = (<[B := NBasicBlock nb']> arena1) !! p).
  { intros p Hp Hnot. rewrite Hother4 by done. unfold arena3.
    rewrite lookup_app_l by lia. by apply Hother2. }
  set (cbk5 := mkNewBlock (Args cbk4) (Predecessors cbk4) (PredCapacity cbk4)
                          (Some (length arena1))).
  exists cb, k. split; [done|]. split; [done|]. split.
  { by rewrite length_insert, Hl4, Hl3. }
  split.
  { rewrite list_lookup_insert_ne by lia. rewrite Hother4.
    - unfold arena3. by rewrite lookup_app_r, Hl2, Nat.sub_diag by lia.
    - intros Hin. pose proof (wf_block_phi_lt _ _ _ (conj Hnd Hphis) Hin). lia. }
  split.
  { intros p b Hp.
    assert (Hplt : p < length arena1) by (by eapply lookup_lt_Some).
    assert (Hpnot : p ∉ Args nb).
    { intros Hin. destruct (phis_at_lookup _ _ _ _ Hphis Hin) as (? & ? & _).
      congruence. }
    assert (Hp4 : arena4 !! p = Some (NBasicBlock (mkNewBlock (Args b)
              (if decide (p = B) then Predecessors b ++ [Some cb]
               else Predecessors b) (PredCapacity b) (Terminator b)))).
    { rewrite Hold4 by done. destruct (decide (p = B)) as [->|Hne].
      - rewrite list_lookup_insert_eq by done.
        assert (b = nb) as -> by congruence. done.
      - rewrite list_lookup_insert_ne by done. rewrite Hp. by destruct b. }
    destruct (decide (p = cb)) as [->|Hne].
    - rewrite list_lookup_insert_eq by (rewrite Hl4, Hl3; lia).
      rewrite Hcb4 in Hp4. injection Hp4 as ->. done.
    - by rewrite list_lookup_insert_ne. }
  split.
  { intros i Ph vs Hi Hvs. destruct (Hphi4 i Ph vs Hi Hvs) as (a & Ha & Hx).
    exists a. split; [done|]. rewrite list_lookup_insert_ne; [done|].
    intros ->. apply Hcbnot. by eapply list_elem_of_lookup_2. }
  split.
  { intros p n Hp Hn Hnot.
    assert (Hplt : p < length arena1) by (by eapply lookup_lt_Some).
    assert (HpB : p ≠ B).
    { intros ->. rewrite HB in Hp. injection Hp as <-. by destruct (Hn nb). }
    assert (Hp4 : arena4 !! p = Some n).
    { rewrite Hold4 by done. by rewrite list_lookup_insert_ne. }
    rewrite list_lookup_insert_ne; [done|].
    intros ->. rewrite Hcb4 in Hp4. injection Hp4 as <-.
    by destruct (Hn cbk4). }
  rewrite HState, HCfg, HSp, HFrame, HAttrs. rewrite HFrame in Hk.
  rewrite HAttrs in Hklt. repeat split; done.
Qed.

(** X8.  [reduceGoto] keeps the invariants of the copy: well-formed
    blocks, phi nodes that belong to one block, and a block map that
    sends different originals to different blocks of the arena. *)
Theorem reduceGoto_keeps_invariants (Orig : Goto) (r r' : CopyReducer)
    (sc : CopyScope) :
  reduceGoto Orig r = OK r' →
  scope r = OK sc →
  arena_wf (Arena (Builder r)) →
  blockmap_ok (Arena (Builder r)) sc →
  arena_wf (Arena (Builder r')) ∧
  ∃ sc', scope r' = OK sc' ∧ blockmap_ok (Arena (Builder r')) sc'.
Proof.
  intros H Hsc Hwf Hmap.
  destruct (reduceGoto_inv _ _ _ H) as (B & r1 & Hlook).
  destruct (lookupBlock_invariants _ _ _ _ _ Hlook Hsc Hwf Hmap)
    as ([Hwf1 Hdisj1] & (sc1 & Hsc1 & Hvalid1 & Hinj1) & HBv).
  destruct (HBv B eq_refl) as (nb & HB).
  pose proof (Hwf1 _ _ HB) as Hnb.
  destruct (reduceGoto_arena _ _ _ _ _ _ H Hlook HB Hnb)
    as (cb & k & _ & _ & Hlen & Hgoto & Hblocks & Hphis & Hrest & _ & _ & _
        & Hscopes & Hsp & _).
  destruct (lookupBlock_frame _ _ _ _ Hlook) as (_ & _ & Hsp1 & _).
  set (arena1 := Arena (Builder r1)) in *.
  set (arena' := Arena (Builder r')) in *.
  assert (Hrev : ∀ p b', arena' !! p = Some (NBasicBlock b') →
            ∃ b, arena1 !! p = Some (NBasicBlock b) ∧ Args b' = Args b ∧
                 Predecessors b' =
                   (if decide (p = B) then Predecessors b ++ [Some cb]
                    else Predecessors b)).
  { intros p b' Hp. apply lookup_lt_Some in Hp as Hplt. rewrite Hlen in Hplt.
    destruct (decide (p = length arena1)) as [->|Hne]; [congruence|].
    destruct (lookup_lt_is_Some_2 arena1 p) as [n Hn]; [lia|].
    destruct (decide (p ∈ Args nb)) as [Hin|Hnot].
    { apply list_elem_of_lookup_1 in Hin as [i Hi].
      destruct Hnb as [_ Hph].
      destruct (phis_at_lookup _ _ _ p Hph) as (vs & Hvs & _);
        [by eapply list_elem_of_lookup_2|].
      destruct (Hphis i p vs Hi Hvs) as (a & _ & Hx). congruence. }
    destruct n as [| | | | |b|];
      try (rewrite (Hrest p _ Hn) in Hp by done; discriminate Hp).
    exists b. split; [done|]. rewrite (Hblocks p b Hn) in Hp.
    injection Hp as <-. done. }
  split; [split|].
  - intros p b' Hp. destruct (Hrev p b' Hp) as (b & Hb & HArgs & HPreds).
    destruct (Hwf1 _ _ Hb) as [Hndb Hphb]. split; [by rewrite HArgs|].
    rewrite HArgs, HPreds. apply Forall_forall. intros Ph HPh.
    destruct (phis_at_lookup _ _ _ Ph Hphb HPh) as (vs & Hvs & Hlenvs).
    destruct (decide (p = B)) as [->|Hne].
    + assert (b = nb) as -> by congruence.
      apply list_elem_of_lookup_1 in HPh as [i Hi].
      destruct (Hphis i Ph vs Hi Hvs) as (a & _ & Hx).
      eexists. split; [exact Hx|].
      rewrite length_insert, !length_app. simpl. lia.
    + exists vs. split; [|done]. apply Hrest; [done|done|].
      intros Hin. apply Hne. by eapply (Hdisj1 p B b nb Ph).
  - intros B1 B2 b1 b2 Ph H1 H2 HP1 HP2.
    destruct (Hrev _ _ H1) as (b1' & Hb1 & HA1 & _).
    destruct (Hrev _ _ H2) as (b2' & Hb2 & HA2 & _).
    rewrite HA1 in HP1. rewrite HA2 in HP2. by eapply Hdisj1.
  - exists sc1. split.
    { unfold scope in *. by rewrite Hscopes, Hsp, <- Hsp1. }
    split; [|done]. intros id B0 Hid.
    destruct (Hvalid1 _ _ Hid) as (b & Hb). rewrite (Hblocks _ _ Hb). eauto.
Qed.

(** X9.  [reduceGoto] only adds to the target block: the predecessors
    the target had, and the values its phi nodes had for them, are still
    there, in the same positions, and every node other than the target,
    its phi nodes and the current block is unchanged. *)
Theorem reduceGoto_keeps_earlier_edges (Orig : Goto) (r r' : CopyReducer)
    (sc : CopyScope) :
  reduceGoto Orig r = OK r' →
  scope r = OK sc →
  arena_wf (Arena (Builder r)) →
  blockmap_ok (Arena (Builder r)) sc →
  ∃ B r1 nb,
    lookupBlock (targetBlock Orig) r = OK (Some B, r1) ∧
    Arena (Builder r1) !! B = Some (NBasicBlock nb) ∧
    (∃ nb', Arena (Builder r') !! B = Some (NBasicBlock nb') ∧
            take (length (Predecessors nb)) (Predecessors nb')
              = Predecessors nb) ∧
    (∀ Ph vs, Ph ∈ Args nb → Arena (Builder r1) !! Ph = Some (NPhi vs) →
       ∃ vs', Arena (Builder r') !! Ph = Some (NPhi vs') ∧
              take (length (Predecessors nb)) vs' = vs) ∧
    (∀ p n, Arena (Builder r1) !! p = Some n →
            p ≠ B → Builder_currentBB (Builder r) ≠ Some p → p ∉ Args nb →
            Arena (Builder r') !! p = Some n).
Proof.
  intros H Hsc Hwf Hmap.
  destruct (reduceGoto_inv _ _ _ H) as (B & r1 & Hlook).
  destruct (lookupBlock_invariants _ _ _ _ _ Hlook Hsc Hwf Hmap)
    as ([Hwf1 Hdisj1] & _ & HBv).
  destruct (HBv B eq_refl) as (nb & HB).
  pose proof (Hwf1 _ _ HB) as Hnb.
  destruct (reduceGoto_arena _ _ _ _ _ _ H Hlook HB Hnb)
    as (cb & k & Hcur & _ & _ & _ & Hblocks & Hphis & Hrest & _).
  exists B, r1, nb. do 2 (split; [done|]). split; [|split].
  - eexists. split; [by apply Hblocks|]. simpl.
    rewrite decide_True by done. by rewrite take_app_length.
  - intros Ph vs HPh Hvs. destruct Hnb as [_ Hph].
    destruct (phis_at_lookup _ _ _ Ph Hph HPh) as (vs0 & Hvs0 & Hlen).
    assert (vs0 = vs) as -> by congruence.
    apply list_elem_of_lookup_1 in HPh as [i Hi].
    destruct (Hphis i Ph vs Hi Hvs) as (a & _ & Hx).
    eexists. split; [exact Hx|]. rewrite <- Hlen.
    rewrite take_insert_ge by lia. by rewrite take_app_length.
  - intros p n Hn HpB Hpcb Hnot.
    destruct n as [| | | | |b|]; try (by apply Hrest).
    rewrite (Hblocks p b Hn). rewrite decide_False by done.
    rewrite decide_False by congruence. by destruct b.
Qed.

Lemma reduceGoto_keeps_invariants_witness :
  ∃ r', reduceGoto ex_goto ex_reducer = OK r' ∧
        arena_wf (Arena (Builder r')).
Proof.
  eexists. split; [reflexivity|].
  exact (proj1 (reduceGoto_keeps_invariants ex_goto ex_reducer _ ex_scope
                  eq_refl eq_refl ex_arena_wf ex_blockmap_ok)).
Defined.

Lemma ex_arena2_wf : arena_wf (Arena (Builder ex_reducer3)).
Proof.
  split.
  - intros B nb HB. repeat (destruct B as [|B]; try done).
    all: injection HB as <-; split;
      [apply NoDup_nil_2 || apply NoDup_singleton|].
    all: repeat constructor. by exists [Ref 5].
  - intros B1 B2 nb1 nb2 Ph H1 H2 Hin1 Hin2.
    repeat (destruct B1 as [|B1]; try done).
    all: injection H1 as <-; try by apply elem_of_nil in Hin1.
    repeat (destruct B2 as [|B2]; try done).
    all: injection H2 as <-; by apply elem_of_nil in Hin2.
Qed.

Lemma ex_blockmap2_ok : blockmap_ok (Arena (Builder ex_reducer3)) ex_scope2.
Proof.
  split.
  - intros id B HB. repeat (destruct id as [|id]; try done).
    all: injection HB as <-; simpl; eauto.
  - intros id1 id2 B H1 H2.
    repeat (destruct id1 as [|id1]; try done).
    all: injection H1 as <-; repeat (destruct id2 as [|id2]; try done).
Qed.

Lemma reduceGoto_keeps_earlier_edges_witness :
  ∃ r' nb' vs',
    reduceGoto ex_goto ex_reducer3 = OK r' ∧
    Arena (Builder r') !! 1 = Some (NBasicBlock nb') ∧
    take 1 (Predecessors nb') = [Some 3] ∧
    Arena (Builder r') !! 2 = Some (NPhi vs') ∧
    take 1 vs' = [Ref 5] ∧
    Arena (Builder r') !! 3
      = Some (NBasicBlock (mkNewBlock [] [] 0 (Some 4))) ∧
    Arena (Builder r') !! 5 = Some (NVariable (mkVarDecl 0)).
Proof.
  destruct (reduceGoto ex_goto ex_reducer3) as [r'|e] eqn:Hrun;
    [|vm_compute in Hrun; discriminate Hrun].
  destruct (reduceGoto_keeps_earlier_edges ex_goto ex_reducer3 r' ex_scope2
              Hrun eq_refl ex_arena2_wf ex_blockmap2_ok)
    as (B & r1 & nb & Hlook & HB & (nb' & HB' & Hpreds) & Hphis & Hother).
  vm_compute in Hlook. injection Hlook as <- <-.
  vm_compute in HB. injection HB as <-.
  destruct (Hphis 2 [Ref 5]) as (vs' & Hphi & Hvs);
    [apply list_elem_of_singleton; reflexivity|reflexivity|].
  exists r', nb', vs'. split; [reflexivity|].
  split; [exact HB'|]. split; [exact Hpreds|].
  split; [exact Hphi|]. split; [exact Hvs|].
  split;
    (apply Hother;
      [reflexivity | discriminate | vm_compute; discriminate
      | simpl; rewrite list_elem_of_singleton; discriminate]).
Defined.

(** *** Blocks *)

Lemma exitBlock_inv B r r' :
  exitBlock B r = OK r' →
  Builder_currentBB (Builder r') = None ∧
  Attrs r' = Attrs r ∧ AttrFrame r' = AttrFrame r ∧
  Scopes r' = Scopes r ∧ ScopePtr r' = ScopePtr r.
Proof.
  unfold exitBlock. destruct (Builder_currentBB (Builder r)) as [cb|] eqn:Hcur.
  - unfold Builder_endBlock. rewrite Hcur.
    destruct (Arena (Builder r) !! cb) as [[| | | | |nb|]|]; try done.
    simpl. by intros [= <-].
  - by intros [= <-].
Qed.

(** X10.  [exitBlock] leaves no current block, and calling it again,
    for whichever block, changes nothing. *)
Theorem exitBlock_idempotent (B B' : BasicBlock) (r r' : CopyReducer) :
  exitBlock B r = OK r' →
  Builder_currentBB (Builder r') = None ∧ exitBlock B' r' = OK r'.
Proof.
  intros H. apply exitBlock_inv in H as (Hcur & _). split; [done|].
  unfold exitBlock. by rewrite Hcur.
Qed.

Lemma exitBlock_idempotent_witness :
  ∃ r', exitBlock ex_block1 ex_reducer = OK r' ∧
        exitBlock ex_block1 r' = OK r'.
Proof.
  eexists. split; [reflexivity|].
  exact (proj2 (exitBlock_idempotent ex_block1 ex_block1 ex_reducer _ eq_refl)).
Defined.

(** *** Scope clones *)

(** X11.  The scope that [makeFuture] hands to a future is a copy: it
    sits at an address that was free before, it is not the current
    scope, it equals the current scope at the time of the call, and a
    later [lookupBlock] in the current scope does not change it. *)
Theorem makeFuture_clone_isolated (E : SExpr) (c c1 : SExprCopier) (F : nat)
    (sc : CopyScope) (Ob : option BasicBlock) (x : option nat)
    (r2 : CopyReducer) :
  scope (Reducer c) = OK sc →
  makeFuture E c = OK (F, c1) →
  lookupBlock Ob (Reducer c1) = OK (x, r2) →
  ∃ fut S',
    Futures c1 !! F = Some fut ∧ FScopePtr fut = Some S' ∧
    ScopePtr (Reducer c1) ≠ Some S' ∧
    Scopes (Reducer c) !! S' = None ∧
    Scopes (Reducer c1) !! S' = Some (Some sc) ∧
    Scopes r2 !! S' = Some (Some sc).
Proof.
  intros Hsc Hmake Hlook. unfold makeFuture in Hmake. rewrite Hsc in Hmake.
  simpl in Hmake. injection Hmake as <- <-. simpl in *.
  assert (Hptr : ScopePtr (Reducer c) ≠ Some (length (Scopes (Reducer c)))).
  { unfold scope in Hsc. destruct (ScopePtr (Reducer c)) as [p|]; [|done].
    destruct (Scopes (Reducer c) !! p) as [o|] eqn:Hp; [|done].
    apply lookup_lt_Some in Hp. intros [= ->]. lia. }
  assert (Hclone : (Scopes (Reducer c) ++ [Some (CopyScope_clone sc)])
                     !! length (Scopes (Reducer c)) = Some (Some sc)).
  { by rewrite list_lookup_middle. }
  eexists _, _. split; [by rewrite list_lookup_middle|].
  split; [done|]. split; [done|]. split; [by apply lookup_ge_None_2|].
  split; [done|].
  destruct Ob as [Orig|]; [|by injection Hlook as <- <-].
  apply lookupBlock_inv in Hlook
    as (sc0 & _ & [(B & _ & _ & ->)|(_ & _ & p & Hp & ->)]); [done|].
  simpl in *. rewrite list_lookup_insert_ne; [done|]. congruence.
Qed.

Lemma makeFuture_clone_isolated_witness :
  ∃ c1 r2,
    makeFuture (exVariable 1) ex_copier = OK (0, c1) ∧
    lookupBlock (Some ex_block1) (Reducer c1) = OK (Some 1, r2) ∧
    Scopes r2 !! 1 = Some (Some ex_scope) ∧
    (∃ sc2, scope r2 = OK sc2 ∧ BlockMap sc2 !! 1 = Some (Some 1)).
Proof.
  eexists _, _. split; [reflexivity|]. split; [reflexivity|].
  destruct (makeFuture_clone_isolated (exVariable 1) ex_copier _ 0 ex_scope
              (Some ex_block1) _ _ eq_refl eq_refl eq_refl)
    as (fut & S' & HF & HS & _ & _ & _ & Hclone).
  injection HF as <-. injection HS as <-.
  split; [exact Hclone|]. eexists. split; reflexivity.
Defined.

(** *** The attribute stack *)

Lemma writes_result_only_set a :
  writes_result_only (setResultAttr a).
Proof.
  intros r r' H. apply setResultAttr_inv in H as (k & Hk & Hlt & ->).
  simpl. split; [done|]. split; [apply length_insert|].
  intros i Hi. apply list_lookup_insert_ne. lia.
Qed.

Lemma writes_result_only_same_attrs rule :
  (∀ r r', rule r = OK r' → Attrs r' = Attrs r ∧ AttrFrame r' = AttrFrame r) →
  writes_result_only rule.
Proof.
  intros Hrule r r' H. destruct (Hrule r r' H) as [-> ->]. done.
Qed.

Lemma writes_result_only_keeps_frame rule :
  writes_result_only rule → keeps_frame rule.
Proof.
  intros Hrule r r' H Hle. destruct (Hrule r r' H) as (Hf & Hlen & Hsame).
  split; [done|]. split; [lia|].
  apply list_eq. intros i.
  destruct (decide (i < AttrFrame r - 1)) as [Hlt|Hge].
  - rewrite !lookup_take_lt by done. apply Hsame. lia.
  - by rewrite !lookup_take_ge by lia.
Qed.

Lemma reduceGoto_loop_attrs Phs i Idx r r' :
  reduceGoto_loop Phs i Idx r = OK r' →
  Attrs r' = Attrs r ∧ AttrFrame r' = AttrFrame r.
Proof.
  revert i r. induction Phs as [|Ph Phs IH]; intros i r; simpl.
  { by intros [= <-]. }
  intros H. apply bind_OK in H as (a & _ & H).
  apply bind_OK in H as (bld & _ & H). by apply IH in H as [-> ->].
Qed.

Lemma writes_result_only_reduceVariable Orig :
  writes_result_only (reduceVariable Orig).
Proof.
  intros r r'. unfold reduceVariable. intros H.
  apply bind_OK in H as (sc & _ & H). apply bind_OK in H as ([] & _ & H).
  - simpl in H. by apply writes_result_only_set in H.
  - apply bind_OK in H as (a & _ & H). by apply writes_result_only_set in H.
Qed.

Lemma writes_result_only_reduceCode Orig :
  writes_result_only (reduceCode Orig).
Proof.
  intros r r'. unfold reduceCode. intros H.
  apply bind_OK in H as (a0 & _ & H). apply bind_OK in H as (a1 & _ & H).
  simpl in H. apply bind_OK in H as (arena & _ & H).
  by apply writes_result_only_set in H.
Qed.

Lemma writes_result_only_reduceCall Orig :
  writes_result_only (reduceCall Orig).
Proof.
  intros r r'. unfold reduceCall. intros H.
  apply bind_OK in H as (a0 & _ & H). simpl in H.
  apply bind_OK in H as (cc & _ & H). apply bind_OK in H as (arena & _ & H).
  by apply writes_result_only_set in H.
Qed.

Lemma writes_result_only_reduceGoto Orig :
  writes_result_only (reduceGoto Orig).
Proof.
  intros r r'. unfold reduceGoto. intros H.
  apply bind_OK in H as ([[B|] r1] & Hlook & H); [|done].
  destruct (lookupBlock_frame _ _ _ _ Hlook) as (HA & HF & _).
  apply bind_OK in H as ([Idx arena2] & _ & H). simpl in H.
  apply bind_OK in H as (Phs & _ & H). apply bind_OK in H as ([] & _ & H).
  apply bind_OK in H as (r4 & Hloop & H).
  apply reduceGoto_loop_attrs in Hloop as [HA4 HF4]. simpl in HA4, HF4.
  apply bind_OK in H as (bld5 & _ & H).
  apply writes_result_only_set in H as (Hf & Hlen & Hsame). simpl in *.
  rewrite HF4, HF in Hf, Hsame. rewrite HA4, HA in Hlen, Hsame. done.
Qed.

Lemma writes_result_only_reduceBBInstruction I :
  writes_result_only (reduceBBInstruction I).
Proof.
  apply writes_result_only_same_attrs. intros r r' H.
  unfold reduceBBInstruction in H.
  apply bind_OK in H as (sc & _ & H). apply bind_OK in H as (a & _ & H).
  by apply scope_putScope in H as (_ & _ & _ & ? & ?).
Qed.

Lemma writes_result_only_enterBlock B :
  writes_result_only (enterBlock B).
Proof.
  apply writes_result_only_same_attrs. intros r r' H. unfold enterBlock in H.
  apply bind_OK in H as ([B2 r1] & Hlook & [= <-]).
  by destruct (lookupBlock_frame _ _ _ _ Hlook) as (? & ? & _).
Qed.

Lemma writes_result_only_exitBlock B :
  writes_result_only (exitBlock B).
Proof.
  apply writes_result_only_same_attrs. intros r r' H.
  by apply exitBlock_inv in H as (_ & ? & ? & _).
Qed.

(** X12.  The reduce methods of [CopyReducer], [enterBlock] and
    [exitBlock] keep the attribute frame and write no attribute other
    than the result attribute. *)
Theorem reduce_methods_write_result_only :
  writes_result_only reduceNull ∧
  (∀ Orig, writes_result_only (reduceWeak Orig)) ∧
  (∀ Ph, writes_result_only (reduceBBArgument Ph)) ∧
  (∀ I, writes_result_only (reduceBBInstruction I)) ∧
  (∀ Orig, writes_result_only (reduceCode Orig)) ∧
  (∀ Orig, writes_result_only (reduceVariable Orig)) ∧
  (∀ Orig, writes_result_only (reduceCall Orig)) ∧
  (∀ Orig, writes_result_only (reducePhi Orig)) ∧
  (∀ Orig, writes_result_only (reduceGoto Orig)) ∧
  (∀ Orig, writes_result_only (reduceBasicBlock Orig)) ∧
  (∀ Orig, writes_result_only (reduceSCFG Orig)) ∧
  (∀ B, writes_result_only (enterBlock B)) ∧
  (∀ B, writes_result_only (exitBlock B)).
Proof.
  split; [apply writes_result_only_set|].
  split.
  { intros Orig r r' H. unfold reduceWeak in H.
    apply bind_OK in H as (sc & _ & H). by apply writes_result_only_set in H. }
  split.
  { intros Ph. apply writes_result_only_same_attrs. by intros r r' [= <-]. }
  split; [apply writes_result_only_reduceBBInstruction|].
  split; [apply writes_result_only_reduceCode|].
  split; [apply writes_result_only_reduceVariable|].
  split; [apply writes_result_only_reduceCall|].
  split.
  { intros Ph. apply writes_result_only_same_attrs. by intros r r' [= <-]. }
  split; [apply writes_result_only_reduceGoto|].
  split; [intros Orig; apply writes_result_only_set|].
  split.
  { intros Orig r r' H. unfold reduceSCFG in H.
    by apply writes_result_only_set in H. }
  split; [apply writes_result_only_enterBlock|apply writes_result_only_exitBlock].
Qed.

(** *** One attribute for every traversal *)

Lemma frame_safe_steps v ss :
  frame_safe (mkSExpr v ss) ↔
  Forall (λ s, match s with
               | Visit e _ => frame_safe e
               | Reduce rule => keeps_frame rule
               end) ss.
Proof.
  simpl. induction ss as [|s ss IH]; simpl.
  - split; [constructor|done].
  - rewrite Forall_cons. by rewrite IH.
Qed.

Lemma runSteps_in_frame f A0 ss c c' :
  Forall (λ s, match s with
               | Visit e K => ∀ c0 c1, traverse e K c0 = OK c1 →
                   ∃ a, Attrs (Reducer c1) = Attrs (Reducer c0) ++ [a] ∧
                        AttrFrame (Reducer c1) = AttrFrame (Reducer c0)
               | Reduce rule => keeps_frame rule
               end) ss →
  runSteps traverse ss c = OK c' →
  in_frame f A0 (Reducer c) → in_frame f A0 (Reducer c').
Proof.
  revert c. induction ss as [|s ss IH]; intros c Hss; simpl.
  { by intros [= <-]. }
  apply Forall_cons in Hss as [Hs Hss]. destruct s as [e K|rule]; intros H Hin.
  - apply bind_OK in H as (c1 & H1 & H2). apply (IH c1 Hss H2).
    destruct (Hs _ _ H1) as (a & HA & HF). destruct Hin as (Hf & Hle & Htake).
    unfold in_frame. rewrite HA, HF, length_app. split; [done|].
    split; [lia|]. rewrite take_app_le by lia. done.
  - apply bind_OK in H as (r1 & H1 & H2). apply (IH _ Hss H2). simpl.
    destruct Hin as (Hf & Hle & Htake). rewrite <- Hf in Hle.
    destruct (Hs _ _ H1 Hle) as (HF & Hle' & Htake').
    unfold in_frame. rewrite HF, Hf in *. rewrite Htake'. done.
Qed.

(** X13.  [traverse] pushes exactly one attribute: if the callbacks of
    a term keep the attribute frame, a successful traversal of the term
    leaves the attribute stack as it was, with one attribute on top, and
    the frame where it was. *)
Theorem traverse_pushes_one_attribute (E : SExpr) (K : TraversalKind)
    (c c' : SExprCopier) :
  frame_safe E →
  traverse E K c = OK c' →
  ∃ a, Attrs (Reducer c') = Attrs (Reducer c) ++ [a] ∧
       AttrFrame (Reducer c') = AttrFrame (Reducer c).
Proof.
  revert K c c'. induction E as [v ss IH] using SExpr_nested_ind.
  intros K c c' Hsafe H. apply frame_safe_steps in Hsafe. simpl in H.
  destruct (isLazyPosition K && negb v).
  - apply bind_OK in H as ([F c2] & H2 & [= <-]).
    unfold makeFuture in H2. destruct (scope _); [|done]. simpl in H2.
    injection H2 as <- <-. simpl. eexists. split; [|done].
    by rewrite removelast_last.
  - unfold dispatch in H. simpl in H. apply bind_OK in H as (c3 & H3 & [= <-]).
    simpl.
    assert (Hin : in_frame (S (length (Attrs (Reducer c)))) (Attrs (Reducer c))
                    (Reducer c3)).
    { eapply runSteps_in_frame; [|exact H3|].
      - rewrite Forall_forall in IH, Hsafe. apply Forall_forall.
        intros [e K'|rule] Hs; [|by apply (Hsafe _ Hs)].
        intros c0 c1. apply (IH _ Hs). by apply (Hsafe _ Hs).
      - unfold in_frame. simpl. rewrite length_app. simpl.
        split; [lia|]. split; [lia|].
        rewrite Nat.sub_0_r. by rewrite take_app_length. }
    destruct Hin as (Hf & Hle & Htake). rewrite Hf.
    replace (S (length (Attrs (Reducer c))) - 1)
      with (length (Attrs (Reducer c))) in Htake by lia.
    destruct (lookup_lt_is_Some_2 (Attrs (Reducer c3))
                (length (Attrs (Reducer c)))) as [a Ha]; [lia|].
    exists a. split; [|done].
    erewrite take_S_r by exact Ha. by rewrite Htake.
Qed.

Lemma frame_safe_exVariable i : frame_safe (exVariable i).
Proof.
  apply frame_safe_steps. apply List.Forall_cons; [|apply List.Forall_nil].
  apply writes_result_only_keeps_frame, writes_result_only_reduceVariable.
Qed.

Lemma frame_safe_exCall target cc :
  frame_safe target → frame_safe (exCall target cc).
Proof.
  intros Ht. apply frame_safe_steps.
  apply List.Forall_cons; [done|].
  apply List.Forall_cons; [|apply List.Forall_nil].
  apply writes_result_only_keeps_frame, writes_result_only_reduceCall.
Qed.

Lemma frame_safe_exCode ty body cc :
  frame_safe ty → frame_safe body → frame_safe (exCode ty body cc).
Proof.
  intros Hty Hbody. apply frame_safe_steps.
  apply List.Forall_cons; [done|]. apply List.Forall_cons; [done|].
  apply List.Forall_cons; [|apply List.Forall_nil].
  apply writes_result_only_keeps_frame, writes_result_only_reduceCode.
Qed.

Lemma ex_term_frame_safe : frame_safe ex_term.
Proof.
  exact (frame_safe_exCode _ _ _ (frame_safe_exVariable 1)
           (frame_safe_exCall _ _
              (frame_safe_exCode _ _ _ (frame_safe_exVariable 0)
                 (frame_safe_exVariable 1)))).
Qed.

Lemma traverse_pushes_one_attribute_witness :
  ∃ c' a, traverse ex_term TRV_Tail ex_copier = OK c' ∧
          Attrs (Reducer c') = [a] ∧ AttrFrame (Reducer c') = 0.
Proof.
  destruct (traverse ex_term TRV_Tail ex_copier) as [c'|e] eqn:Hrun;
    [|vm_compute in Hrun; discriminate Hrun].
  destruct (traverse_pushes_one_attribute ex_term TRV_Tail ex_copier c'
              ex_term_frame_safe Hrun) as (a & HA & HF).
  exists c', a. split; [reflexivity|]. split; [exact HA|exact HF].
Defined.

(** *** copy and traverseAll *)

(** X14.  [SExprCopier::copy]: with fuel at least the size of the term
    the copy returns; and when it returns a result, the queue is empty,
    every future created on the way has been forced and has released
    its scope, and the attribute stack is empty again. *)
Theorem copy_forces_every_future (E : SExpr) :
  (∀ fuel, SExpr_size E ≤ fuel → is_Some (copy fuel E))
  ∧ (∀ fuel Result c',
       copy fuel E = Some (OK (Result, c')) →
       FutureQueue c' = [] ∧
       (∀ F fut, Futures c' !! F = Some fut → released fut) ∧
       Attrs (Reducer c') = [] ∧ AttrFrame (Reducer c') = 0).
Proof.
  unfold copy, traverseAll. split.
  - intros fuel Hfuel.
    destruct (traverseAll_top E newSExprCopier) as [[Result c2]|e] eqn:Htop;
      [|done].
    destruct (traverseAll_top_extends _ _ _ _ Htop) as (new & Hf & Hq & _ & Hsz).
    simpl in Hf, Hq.
    destruct (forceQueue_terminates fuel c2) as [[c3|e] Hrun].
    + unfold queue_valid. rewrite Hq, Hf.
      apply Forall_forall. intros F HF. apply elem_of_seq in HF. simpl in HF.
      lia.
    + unfold queue_size. rewrite Hq, Hf.
      pose proof (pending_size_new [] new) as Hnew. simpl in Hnew.
      rewrite Hnew. pose proof (SExpr_size_pos E). lia.
    + by rewrite Hrun.
    + by rewrite Hrun.
  - intros fuel Result c'.
    destruct (traverseAll_top E newSExprCopier) as [[Result2 c2]|e] eqn:Htop;
      [|done].
    destruct (forceQueue fuel c2) as [[c3|e]|] eqn:Hrun; try done.
    intros [= <- <-]. simpl.
    destruct (forceQueue_forces_in_order _ _ _ Hrun)
      as (Hq3 & Hlen & Htrace & Hrel).
    destruct (traverseAll_top_extends _ _ _ _ Htop) as (new & Hf & Hq & _).
    simpl in Hf, Hq. split; [done|]. split; [|done].
    intros F fut HF. apply lookup_lt_Some in HF as Hlt.
    destruct (Hrel F) as (fut' & HF' & Hr).
    { rewrite Htrace, Hq, Hf. rewrite Hf in Hlen.
      rewrite <- seq_app. apply elem_of_seq. lia. }
    congruence.
Qed.

Lemma copy_forces_every_future_witness :
  is_Some (copy 9 ex_closed_term) ∧
  ∃ Result c', copy 9 ex_closed_term = Some (OK (Result, c')) ∧
               FutureQueue c' = [] ∧ length (Futures c') = 4 ∧
               ∀ F fut, Futures c' !! F = Some fut → released fut.
Proof.
  destruct (copy_forces_every_future ex_closed_term) as [Htotal Hforced].
  split; [apply Htotal; vm_compute; lia|].
  destruct (copy 9 ex_closed_term) as [[[Result c']|e]|] eqn:Hrun;
    [|vm_compute in Hrun; discriminate Hrun..].
  destruct (Hforced 9 Result c' Hrun) as (Hq & Hrel & _).
  exists Result, c'. split; [reflexivity|]. split; [exact Hq|].
  split; [|exact Hrel].
  vm_compute in Hrun. injection Hrun as <- <-. reflexivity.
Defined.

(** *** Futures *)

(** X15.  [LazyCopyFuture::finish] deletes the scope of the future
    once: a second call changes nothing. *)
Theorem finish_idempotent (F : nat) (c c1 : SExprCopier) :
  finish F c = OK c1 → finish F c1 = OK c1.
Proof.
  intros H. apply finish_spec in H as Hspec.
  destruct Hspec as (fut & HF & Hfs & _).
  apply lookup_lt_Some in HF as Hlt.
  unfold finish, getFuture. rewrite Hfs.
  rewrite list_lookup_insert_eq by done. simpl.
  rewrite list_insert_insert_eq. destruct c1 as [r1 fs1 q1]. simpl in *.
  by rewrite Hfs.
Qed.

Lemma finish_idempotent_witness :
  ∃ c1, finish 0 ex_forcing = OK c1 ∧ finish 0 c1 = OK c1 ∧
        Scopes (Reducer c1) !! 1 = Some None.
Proof.
  eexists. split; [reflexivity|]. split; [|reflexivity].
  exact (finish_idempotent 0 ex_forcing _ eq_refl).
Defined.

(** X16.  [LazyCopyFuture::evaluate] leaves every other future as it
    is; the futures it creates are appended to the store, still
    pending, and are appended to the queue in the order of creation. *)
Theorem evaluate_leaves_other_futures (F : nat) (c c' : SExprCopier)
    (Res : SExprPtr) :
  evaluate F c = OK (Res, c') →
  (∀ G fut, G ≠ F → Futures c !! G = Some fut → Futures c' !! G = Some fut) ∧
  ∃ new,
    length (Futures c') = length (Futures c) + length new ∧
    FutureQueue c' = FutureQueue c ++ seq (length (Futures c)) (length new) ∧
    (∀ i fut, new !! i = Some fut →
              Futures c' !! (length (Futures c) + i) = Some fut ∧
              Status fut = FS_pending).
Proof.
  intros H. apply evaluate_spec in H
    as (fut & E & c4 & HF & _ & Htr & Hfs & Hq & _).
  apply traverse_extends in Htr as [(new & Hf4 & Hq4 & Hpend & _) _].
  simpl in Hf4, Hq4. apply lookup_lt_Some in HF as Hlt. split.
  - intros G futG Hne HG. rewrite Hfs, list_lookup_insert_ne by done.
    rewrite Hf4. rewrite lookup_app_l; [done|]. by eapply lookup_lt_Some.
  - exists new. split; [|split].
    + by rewrite Hfs, length_insert, Hf4, length_app.
    + by rewrite Hq, Hq4.
    + intros i futi Hi. split.
      * rewrite Hfs, list_lookup_insert_ne by lia. rewrite Hf4.
        rewrite lookup_app_r by lia.
        by replace (length (Futures c) + i - length (Futures c)) with i by lia.
      * rewrite Forall_forall in Hpend. apply Hpend.
        by eapply list_elem_of_lookup_2.
Qed.

Lemma evaluate_leaves_other_futures_witness :
  ∃ Res c' fut1,
    evaluate 0 ex_forcing2 = OK (Res, c') ∧
    Futures ex_forcing2 !! 1 = Some fut1 ∧
    Futures c' !! 1 = Some fut1 ∧
    length (Futures c') = 4 ∧
    FutureQueue ex_forcing2 = [1] ∧
    FutureQueue c' = [1; 2; 3] ∧
    (∀ i, i < 2 → ∃ fut, Futures c' !! (2 + i) = Some fut ∧
                         Status fut = FS_pending).
Proof.
  destruct (evaluate 0 ex_forcing2) as [[Res c']|e] eqn:Hrun;
    [|vm_compute in Hrun; discriminate Hrun].
  destruct (evaluate_leaves_other_futures 0 ex_forcing2 c' Res Hrun)
    as (Hother & new & Hlen & Hq & Hnew).
  assert (Hlen' : length (Futures c') = 4).
  { vm_compute in Hrun. injection Hrun as _ <-. reflexivity. }
  assert (Hn : length new = 2).
  { rewrite Hlen' in Hlen. change (length (Futures ex_forcing2)) with 2 in Hlen.
    lia. }
  destruct (Futures ex_forcing2 !! 1) as [fut1|] eqn:H1;
    [|vm_compute in H1; discriminate H1].
  exists Res, c', fut1. split; [reflexivity|]. split; [reflexivity|].
  split; [apply Hother; [lia|exact H1]|]. split; [exact Hlen'|].
  split; [reflexivity|]. split.
  - rewrite Hq, Hn. reflexivity.
  - intros i Hi.
    destruct (lookup_lt_is_Some_2 new i) as [fut Hfut]; [lia|].
    exists fut. exact (Hnew i fut Hfut).
Defined.

(** *** attributesAsSExpr and reduceCode *)

Lemma attributesAsSExpr_loop_spec n i r Res :
  AttrFrame r + i + n ≤ length (Attrs r) →
  attributesAsSExpr_loop n i r Res
  = OK (Res ++ (Exp <$> take n (drop (AttrFrame r + i) (Attrs r)))).
Proof.
  revert i Res. induction n as [|n IH]; intros i Res Hle; simpl.
  { by rewrite app_nil_r. }
  unfold attr.
  destruct (lookup_lt_is_Some_2 (Attrs r) (AttrFrame r + i)) as [a Ha]; [lia|].
  rewrite Ha. simpl. rewrite IH by lia. f_equal.
  rewrite <- app_assoc. f_equal. simpl.
  rewrite (drop_S _ a _ Ha). simpl.
  by replace (AttrFrame r + S i) with (S (AttrFrame r + i)) by lia.
Qed.

(** X17.  [attributesAsSExpr] returns the expressions of the
    attributes of the current frame, in order, and never reads outside
    the stack. *)
Theorem attributesAsSExpr_frame (r : CopyReducer) :
  attributesAsSExpr r = OK (Exp <$> drop (AttrFrame r) (Attrs r)).
Proof.
  unfold attributesAsSExpr, numAttrs.
  destruct (decide (AttrFrame r ≤ length (Attrs r))) as [Hle|Hgt].
  - rewrite attributesAsSExpr_loop_spec by lia. simpl.
    rewrite Nat.add_0_r. f_equal. f_equal.
    apply take_ge. rewrite length_drop. lia.
  - replace (length (Attrs r) - AttrFrame r) with 0 by lia. simpl.
    by rewrite drop_ge by lia.
Qed.

(** X18.  [reduceCode] appends one Code node to the arena, made of the
    two attributes of the children and carrying the calling convention
    of the original; the result attribute points to it, and the scopes
    and the current block stay as they are. *)
Theorem reduceCode_copies_code (Orig : Code) (r r' : CopyReducer) :
  reduceCode Orig r = OK r' →
  ∃ a0 a1,
    attr 0 r = OK a0 ∧ attr 1 r = OK a1 ∧
    Arena (Builder r') =
      Arena (Builder r)
        ++ [NCode (Exp a0) (Exp a1) (codeCallingConvention Orig)] ∧
    resultAttr r' = OK (mkAttr (Ref (length (Arena (Builder r))))) ∧
    Scopes r' = Scopes r ∧ ScopePtr r' = ScopePtr r ∧
    Builder_currentBB (Builder r') = Builder_currentBB (Builder r).
Proof.
  intros H. unfold reduceCode in H.
  apply bind_OK in H as (a0 & Ha0 & H). apply bind_OK in H as (a1 & Ha1 & H).
  simpl in H. unfold Node_setCallingConvention in H. simpl in H.
  rewrite alloc_lookup in H. simpl in H.
  apply setResultAttr_inv in H as (i & Hf & Hi & ->). simpl in *.
  exists a0, a1. do 2 (split; [done|]). split.
  { replace (length (Arena (Builder r)))
      with (length (Arena (Builder r)) + 0) by lia.
    by rewrite insert_app_r. }
  split; [|done].
  unfold resultAttr. simpl. rewrite Hf.
  by rewrite list_lookup_insert_eq.
Qed.

Lemma reduceCode_copies_code_witness :
  ∃ r', reduceCode (mkCode (CCV_Other 5)) ex_reducer2 = OK r' ∧
        resultAttr r' = OK (mkAttr (Ref 1)) ∧
        Arena (Builder r') !! 1 = Some (NCode (Ref 9) (Ref 8) (CCV_Other 5)).
Proof.
  eexists. split; [reflexivity|].
  destruct (reduceCode_copies_code (mkCode (CCV_Other 5)) ex_reducer2 _ eq_refl)
    as (a0 & a1 & H0 & H1 & Ha & Hres & _).
  vm_compute in H0. injection H0 as <-.
  vm_compute in H1. injection H1 as <-.
  split; [exact Hres|]. rewrite Ha. reflexivity.
Defined.

(** *** Entering and leaving a graph *)

(** X19.  [CopyReducer::enterCFG] on a graph starts a new graph in the
    builder and maps the entry and the exit block of the original to
    those of the new graph: after the call [lookupBlock] returns them
    without creating anything (both are the exit block when the two
    originals have the same id), and the attribute stack is
    unchanged. *)
Theorem enterCFG_registers_new_graph (Orig : SCFG) (r r' : CopyReducer) :
  enterCFG (Some Orig) r = OK r' →
  ∃ G Sentry Sexit,
    Builder_currentCFG (Builder r') = Some G ∧
    Arena (Builder r) !! G = None ∧
    Arena (Builder r') !! G = Some (NSCFG Sentry Sexit) ∧
    Attrs r' = Attrs r ∧ AttrFrame r' = AttrFrame r ∧
    lookupBlock (Some (exit Orig)) r' = OK (Some Sexit, r') ∧
    (blockID (entry Orig) ≠ blockID (exit Orig) →
     lookupBlock (Some (entry Orig)) r' = OK (Some Sentry, r')) ∧
    (blockID (entry Orig) = blockID (exit Orig) →
     lookupBlock (Some (entry Orig)) r' = OK (Some Sexit, r')).
Proof.
  unfold enterCFG. intros H. apply bind_OK in H as (sc & Hsc & H).
  simpl in H. apply bind_OK in H as (sc' & Henter & Hput).
  apply scope_putScope in Hput as (Hsc' & _ & Hb & HA & HF).
  unfold CopyScope_enterCFG in Henter.
  rewrite list_lookup_middle in Henter by done.
  apply bind_OK in Henter as (sc2 & H1 & H2).
  apply insertBlockMap_inv in H1 as (eb & Hle & _ & _ & ->).
  apply insertBlockMap_inv in H2 as (xb & Hlx & _ & _ & ->).
  rewrite mapArguments_BlockMap in Hlx. simpl in Hle, Hlx.
  rewrite length_insert in Hlx.
  eexists _, _, _. rewrite Hb. simpl.
  split; [reflexivity|].
  split; [apply lookup_ge_None_2; rewrite !length_app; simpl; lia|].
  split; [by apply list_lookup_middle|]. do 2 (split; [done|]).
  split; [|split].
  - eapply lookupBlock_mapped; [done|].
    rewrite mapArguments_BlockMap. simpl. apply list_lookup_insert_eq.
    rewrite mapArguments_BlockMap. simpl. by rewrite length_insert.
  - intros Hne. eapply lookupBlock_mapped; [done|].
    rewrite mapArguments_BlockMap. simpl.
    rewrite list_lookup_insert_ne by done.
    rewrite mapArguments_BlockMap. simpl. by apply list_lookup_insert_eq.
  - intros Heq. eapply lookupBlock_mapped; [done|]. rewrite Heq.
    rewrite mapArguments_BlockMap. simpl. apply list_lookup_insert_eq.
    rewrite mapArguments_BlockMap. simpl. by rewrite length_insert.
Qed.

Lemma enterCFG_registers_new_graph_witness :
  ∃ r', enterCFG (Some (mkSCFG 2 (mkBasicBlock 0 [] 0) (mkBasicBlock 1 [] 0)))
                 ex_reducer = OK r' ∧
        Builder_currentCFG (Builder r') = Some 3 ∧
        lookupBlock (Some (mkBasicBlock 0 [] 0)) r' = OK (Some 1, r') ∧
        lookupBlock (Some (mkBasicBlock 1 [] 0)) r' = OK (Some 2, r').
Proof.
  eexists. split; [reflexivity|].
  destruct (enterCFG_registers_new_graph
              (mkSCFG 2 (mkBasicBlock 0 [] 0) (mkBasicBlock 1 [] 0))
              ex_reducer _ eq_refl)
    as (G & Se & Sx & HG & _ & Harena & _ & _ & Hexit & Hentry & _).
  vm_compute in HG. injection HG as <-.
  vm_compute in Harena. injection Harena as <- <-.
  split; [reflexivity|]. split; [|exact Hexit].
  apply Hentry. simpl. lia.
Defined.

(** X20.  [CopyReducer::exitCFG] closes the current graph of the
    builder, keeps the arena and the substitution, and empties the
    block map and the instruction map: a later [lookupBlock] of any
    block reads outside the block map. *)
Theorem exitCFG_forgets_blocks (r r' : CopyReducer) :
  exitCFG r = OK r' →
  Builder_currentCFG (Builder r') = None ∧
  Arena (Builder r') = Arena (Builder r) ∧
  (∃ sc sc', scope r = OK sc ∧ scope r' = OK sc' ∧
             sc' = mkCopyScope (Subst sc) ∅ []) ∧
  ∀ Orig, lookupBlock (Some Orig) r' = Fatal UndefinedBehavior.
Proof.
  unfold exitCFG. intros H. apply bind_OK in H as (sc & Hsc & H).
  apply scope_putScope in H as (Hsc' & _ & Hb & _).
  rewrite Hb. simpl. do 2 (split; [done|]). split.
  - exists sc. eexists. split; [done|]. split; [exact Hsc'|]. done.
  - intros Orig. unfold lookupBlock. rewrite Hsc'. simpl. done.
Qed.

Lemma exitCFG_forgets_blocks_witness :
  ∃ r', exitCFG ex_reducer = OK r' ∧
        lookupBlock (Some (mkBasicBlock 0 [] 0)) ex_reducer
          = OK (Some 0, ex_reducer) ∧
        lookupBlock (Some (mkBasicBlock 0 [] 0)) r' = Fatal UndefinedBehavior.
Proof.
  eexists. split; [reflexivity|]. split; [reflexivity|].
  exact (proj2 (proj2 (proj2 (exitCFG_forgets_blocks ex_reducer _ eq_refl)))
           (mkBasicBlock 0 [] 0)).
Defined.
